(** * The HTML sanitizer of [lib/utils/sanitize-html.js]

    The sanitizer parses a string into a DOM document, walks every node
    below [doc.body], strips attributes from the tags it keeps, queues the
    other nodes in two lists, applies the queued removals after the walk
    and returns [doc.body.innerHTML].

    The browser's parser and serializer are outside the file: they are
    two parameters of the sanitizer from string to string, and the rest
    of the model starts from the parsed tree below [body] and ends with
    the child list of [body] that [innerHTML] prints.  DOM nodes are objects with an
    identity, kept here as a number carried by every node; the document
    is the forest of the trees that currently have no parent: the tree
    of [body] first, then the subtrees the removals have detached.
    [parentNode], [firstChild], [removeChild] and [insertBefore] are
    those of the DOM standard, read and written through node handles.

    Strings are byte strings, a character outside ASCII being its
    UTF-8 bytes. *)

From Stdlib Require Import String Ascii List Arith Bool Lia Permutation.
From AAC_tactics Require Import AAC.
From AAC_tactics Require Instances.
Import Instances.Lists.
Import ListNotations.
Set Warnings "-register-all".
Local Open Scope string_scope.
Local Open Scope list_scope.

(** ** Strings *)

Definition lowerChar (c : ascii) : ascii :=
  let n := nat_of_ascii c in
  if ((65 <=? n) && (n <=? 90))%nat then ascii_of_nat (n + 32) else c.

(** The three bytes of U+212A KELVIN SIGN in UTF-8. *)
Definition isKelvinSign (c1 c2 c3 : ascii) : bool :=
  Ascii.eqb c1 (ascii_of_nat 226) && Ascii.eqb c2 (ascii_of_nat 132)
  && Ascii.eqb c3 (ascii_of_nat 170).

(** [String.prototype.toLowerCase] as the code uses it: on a node name,
    to compare the lowered name with the ASCII literals of a [switch] or
    of [===]; the lowered name is never returned nor written anywhere.
    The letters A to Z go to a to z and U+212A KELVIN SIGN goes to [k].
    They are the only characters whose lower-case form consists of ASCII
    characters (that of U+0130 is [i] followed by U+0307), so the
    lowered name equals an ASCII literal here when, and only when, it
    does in JavaScript.  The other characters outside ASCII are left as
    they are. *)
Fixpoint toLowerCase (s : string) : string :=
  match s with
  | EmptyString => EmptyString
  | String c s' =>
      match s' with
      | String c2 (String c3 s3) =>
          if isKelvinSign c c2 c3 then String "k" (toLowerCase s3)
          else String (lowerChar c) (toLowerCase s')
      | _ => String (lowerChar c) (toLowerCase s')
      end
  end.

Definition startsWith (p s : string) : bool := String.prefix p s.

(** [s.slice(n)]: the string without its first [n] characters. *)
Fixpoint slice (n : nat) (s : string) : string :=
  match n, s with
  | S k, String _ s' => slice k s'
  | _, _ => s
  end.

(** A [switch] whose cases all return [true]. *)
Definition oneOf (s : string) (cases : list string) : bool :=
  existsb (String.eqb s) cases.

(** ** DOM nodes *)

Definition attr : Type := string * string.

Inductive node : Type :=
| Element (id : nat) (name : string) (attrs : list attr) (children : list node)
| Text (id : nat) (data : string)
| Comment (id : nat) (data : string).

Definition nid (n : node) : nat :=
  match n with
  | Element i _ _ _ => i
  | Text i _ => i
  | Comment i _ => i
  end.

Definition nodeName (n : node) : string :=
  match n with
  | Element _ nm _ _ => nm
  | Text _ _ => "#text"
  | Comment _ _ => "#comment"
  end.

(** [node.attributes]; it is [undefined] on text and comment nodes, which
    lodash's [filter] reads as the empty collection. *)
Definition attributes (n : node) : list attr :=
  match n with
  | Element _ _ a _ => a
  | _ => []
  end.

Definition childNodes (n : node) : list node :=
  match n with
  | Element _ _ _ cs => cs
  | _ => []
  end.

(** Markup: what a serializer reads from a tree and what a parser builds
    a tree from, the names, attributes and data of the nodes without
    their identity. *)
Inductive html : Type :=
| HElement (name : string) (attrs : list attr) (children : list html)
| HText (data : string)
| HComment (data : string).

Fixpoint markup (n : node) : html :=
  match n with
  | Element _ nm a cs => HElement nm a (map markup cs)
  | Text _ d => HText d
  | Comment _ d => HComment d
  end.

(** Attribute lists: names are looked up, removed and set as
    [getAttribute], [removeAttribute] and [setAttribute] do on the
    attribute list of one element ([setAttribute] appends a new name). *)
Fixpoint getAttr (name : string) (a : list attr) : option string :=
  match a with
  | [] => None
  | (n, v) :: a' => if String.eqb n name then Some v else getAttr name a'
  end.

Fixpoint removeAttr (name : string) (a : list attr) : list attr :=
  match a with
  | [] => []
  | (n, v) :: a' => if String.eqb n name then a' else (n, v) :: removeAttr name a'
  end.

Fixpoint setAttr (name value : string) (a : list attr) : list attr :=
  match a with
  | [] => [(name, value)]
  | (n, v) :: a' =>
      if String.eqb n name then (n, value) :: a' else (n, v) :: setAttr name value a'
  end.

(** How many attributes of a list have the name [name]. *)
Definition attrCount (name : string) (a : list attr) : nat :=
  length (filter (fun at_ => String.eqb (fst at_) name) a).

(** ** The tag and attribute policy *)

Definition allowedTags : list string :=
  ["#text"; "a"; "article"; "b"; "br"; "blockquote"; "cite"; "code"; "dd";
   "del"; "div"; "dt"; "em"; "h1"; "h2"; "h3"; "h4"; "h5"; "h6"; "hr"; "i";
   "img"; "ins"; "li"; "ol"; "p"; "pre"; "s"; "span"; "strong"; "sub"; "sup";
   "table"; "tbody"; "td"; "th"; "thead"; "tr"; "tt"; "ul"].

Definition forbiddenTags : list string :=
  ["head"; "html"; "iframe"; "link"; "meta"; "object"; "script"; "style"].

Definition isAllowedTag (n : node) : bool :=
  let tagName := toLowerCase (nodeName n) in
  if String.eqb "input" tagName then
    match getAttr "type" (attributes n) with
    | Some t => String.eqb "checkbox" t
    | None => false
    end
  else oneOf tagName allowedTags.

Definition isAllowedAttr (tagName attrName : string) : bool :=
  if String.eqb tagName "a" then oneOf attrName ["alt"; "href"; "rel"; "title"]
  else if String.eqb tagName "img" then oneOf attrName ["alt"; "src"; "title"]
  else if String.eqb tagName "input" then oneOf attrName ["checked"; "type"]
  else false.

Definition isForbidden (n : node) : bool :=
  oneOf (toLowerCase (nodeName n)) forbiddenTags.

(** ** The document: a forest read and written through node handles *)

Definition forest : Type := list node.

Definition firstSome {A B : Type} (f : A -> option B) : list A -> option B :=
  fix go (l : list A) : option B :=
    match l with
    | [] => None
    | x :: l' => match f x with Some y => Some y | None => go l' end
    end.

(** The node a handle stands for. *)
Fixpoint getNode (i : nat) (n : node) : option node :=
  if Nat.eqb (nid n) i then Some n
  else match n with
       | Element _ _ _ cs => firstSome (getNode i) cs
       | _ => None
       end.

Definition getNodeL (i : nat) (F : forest) : option node := firstSome (getNode i) F.

(** [node.parentNode] inside one tree: the element that has [i] among
    its children. *)
Fixpoint parentIn (i : nat) (n : node) : option nat :=
  match n with
  | Element j _ _ cs =>
      if existsb (fun c => Nat.eqb (nid c) i) cs then Some j
      else firstSome (parentIn i) cs
  | _ => None
  end.

(** [node.parentNode]: [None] is [null], the answer for the root of a
    tree of the forest. *)
Definition parentNode (i : nat) (F : forest) : option nat := firstSome (parentIn i) F.

Definition firstChild (i : nat) (F : forest) : option nat :=
  match getNodeL i F with
  | Some n => match childNodes n with c :: _ => Some (nid c) | [] => None end
  | None => None
  end.

(** Every node of a tree, in document order, and the handles of the same. *)
Fixpoint subtrees (n : node) : list node :=
  n :: match n with
       | Element _ _ _ cs => flat_map subtrees cs
       | _ => []
       end.

Definition subtreesL (l : list node) : list node := flat_map subtrees l.

Definition ids (n : node) : list nat := map nid (subtrees n).
Definition idsL (l : list node) : list nat := map nid (subtreesL l).

(** What [TreeWalker.nextNode] yields from the root [n]: every node
    below [n], in document order, [n] itself left out. *)
Definition walkOrder (n : node) : list nat := idsL (childNodes n).

(** Rewriting of child lists: every child [c], once its own children are
    rewritten, is replaced by [f c]. *)
Fixpoint edit (f : node -> list node) (n : node) : node :=
  match n with
  | Element i nm a cs => Element i nm a (flat_map (fun c => f (edit f c)) cs)
  | _ => n
  end.

Definition editL (f : node -> list node) (l : list node) : list node :=
  flat_map (fun c => f (edit f c)) l.

Definition dropAt (i : nat) (n : node) : list node :=
  if Nat.eqb (nid n) i then [] else [n].

Definition insertAt (ref : nat) (new : node) (n : node) : list node :=
  if Nat.eqb (nid n) ref then [new; n] else [n].

(** Rewriting of the attribute list of the element [i]. *)
Fixpoint updateAttributes (i : nat) (h : list attr -> list attr) (n : node) : node :=
  match n with
  | Element j nm a cs =>
      Element j nm (if Nat.eqb j i then h a else a) (map (updateAttributes i h) cs)
  | _ => n
  end.

Definition getAttribute (i : nat) (name : string) (F : forest) : option string :=
  match getNodeL i F with
  | Some n => getAttr name (attributes n)
  | None => None
  end.

Definition removeAttribute (i : nat) (name : string) (F : forest) : forest :=
  map (updateAttributes i (removeAttr name)) F.

Definition setAttribute (i : nat) (name value : string) (F : forest) : forest :=
  map (updateAttributes i (setAttr name value)) F.

(** ** Exceptions and the state of the document *)

Inductive exn : Type := TypeError | NotFoundError | HierarchyRequestError.

Inductive outcome (A : Type) : Type :=
| Normal (a : A)
| Throw (e : exn)
| OutOfFuel.
Arguments Normal {A} a.
Arguments Throw {A} e.
Arguments OutOfFuel {A}.

Definition M (A : Type) : Type := forest -> outcome A * forest.

Definition ret {A : Type} (a : A) : M A := fun F => (Normal a, F).

Definition bind {A B : Type} (m : M A) (k : A -> M B) : M B :=
  fun F =>
    match m F with
    | (Normal a, F') => k a F'
    | (Throw e, F') => (Throw e, F')
    | (OutOfFuel, F') => (OutOfFuel, F')
    end.

Definition throw {A : Type} (e : exn) : M A := fun F => (Throw e, F).

(** [try { m } catch (e) { }]: what [m] wrote before it threw stays written. *)
Definition tryCatch (m : M unit) : M unit :=
  fun F =>
    match m F with
    | (Throw _, F') => (Normal tt, F')
    | r => r
    end.

Definition read {A : Type} (f : forest -> A) : M A := fun F => (Normal (f F), F).

Notation "x <- m ;; k" := (bind m (fun x => k))
  (at level 61, m at next level, right associativity).
Notation "m ;;; k" := (bind m (fun _ => k))
  (at level 61, right associativity).

Fixpoint forEach {A : Type} (l : list A) (f : A -> M unit) : M unit :=
  match l with
  | [] => ret tt
  | x :: l' => f x ;;; forEach l' f
  end.

(** [parent.removeChild(child)]: the child leaves its parent and becomes
    the root of a tree of its own. *)
Definition removeChild (parent child : nat) : M unit :=
  fun F =>
    match parentNode child F, getNodeL child F with
    | Some p, Some sub =>
        if Nat.eqb p parent
        then (Normal tt, editL (dropAt child) F ++ [sub])
        else (Throw NotFoundError, F)
    | _, _ => (Throw NotFoundError, F)
    end.

(** [parent.insertBefore(new, ref)]: after the checks of the DOM
    standard, [new] leaves the place it has and enters the children of
    [parent] just before [ref]. *)
Definition insertBefore (parent new ref : nat) : M unit :=
  fun F =>
    match getNodeL new F with
    | None => (Throw TypeError, F)
    | Some sub =>
        if existsb (Nat.eqb parent) (ids sub) then (Throw HierarchyRequestError, F)
        else match parentNode ref F with
             | Some p =>
                 if negb (Nat.eqb p parent) then (Throw NotFoundError, F)
                 else if Nat.eqb new ref then (Normal tt, F)
                 else (Normal tt, editL (insertAt ref sub) (editL (dropAt new) F))
             | None => (Throw NotFoundError, F)
             end
    end.

(** A method called on [null]. *)
Definition onObject {A : Type} (o : option nat) (k : nat -> M A) : M A :=
  match o with
  | Some p => k p
  | None => throw TypeError
  end.

(** ** Sample documents

    The theorems below hold for every pair of validators; to run the
    sanitizer on a document one pair is needed, and these two stand in
    for [validUrl.isWebUri] and [isemail.validate]. *)

Definition sampleWebUri (s : string) : bool :=
  startsWith "http://" s || startsWith "https://" s.

Definition sampleEmail (s : string) : bool :=
  String.eqb s "user@example.com".

(** [<div><object><b>evil()</b></object>safe</div>] *)
Definition docObject : node :=
  Element 0 "BODY" []
    [Element 1 "DIV" []
       [Element 2 "OBJECT" [] [Element 3 "B" [] [Text 4 "evil()"]];
        Text 5 "safe"]].

(** [<div><object><marquee>x</marquee></object><marquee>y</marquee></div>] *)
Definition docQueues : node :=
  Element 0 "BODY" []
    [Element 1 "DIV" []
       [Element 2 "OBJECT" [] [Element 3 "MARQUEE" [] [Text 4 "x"]];
        Element 5 "MARQUEE" [] [Text 6 "y"]]].

(** [<p>one<marquee>two<b>three</b></marquee>four</p>] *)
Definition docMarquee : node :=
  Element 0 "BODY" []
    [Element 1 "P" []
       [Text 2 "one";
        Element 3 "MARQUEE" [] [Text 4 "two"; Element 5 "B" [] [Text 6 "three"]];
        Text 7 "four"]].

(** [<a href="https://example.com" onclick="evil()" target="top" rel="me">text</a>] *)
Definition docLink : node :=
  Element 0 "BODY" []
    [Element 1 "A"
       [("href", "https://example.com"); ("onclick", "evil()");
        ("target", "top"); ("rel", "me")]
       [Text 2 "text"]].

(** [<a href="https://example.com">text</a>] *)
Definition docPlainLink : node :=
  Element 0 "BODY" [] [Element 1 "A" [("href", "https://example.com")] [Text 2 "text"]].

(** [<input type="checkbox" checked class="big">] *)
Definition docCheckbox : node :=
  Element 0 "BODY" []
    [Element 1 "INPUT" [("type", "checkbox"); ("checked", ""); ("class", "big")] []].

(** [<p class="x" style="y" title="z" href="https://example.com">t</p>] *)
Definition docParagraph : node :=
  Element 0 "BODY" []
    [Element 1 "P" [("class", "x"); ("style", "y"); ("title", "z");
                    ("href", "https://example.com")]
       [Text 2 "t"]].

(** A serializer and a parser to run the sanitizer from string to
    string on the sample documents: they stand in for [innerHTML] and
    [parseFromString].  The serializer prints tags, attributes and text
    as [innerHTML] does for elements that are not void and for text and
    values that need no escaping. *)
Definition quote : string := String (ascii_of_nat 34) EmptyString.

Fixpoint sampleAttributes (a : list attr) : string :=
  match a with
  | [] => ""
  | (n, v) :: a' => " " ++ n ++ "=" ++ quote ++ v ++ quote ++ sampleAttributes a'
  end.

Fixpoint sampleMarkup (h : html) : string :=
  match h with
  | HElement nm a cs =>
      "<" ++ toLowerCase nm ++ sampleAttributes a ++ ">"
      ++ String.concat "" (map sampleMarkup cs)
      ++ "</" ++ toLowerCase nm ++ ">"
  | HText d => d
  | HComment d => "<!--" ++ d ++ "-->"
  end.

Definition sampleInnerHTML (l : list html) : string :=
  String.concat "" (map sampleMarkup l).

(** [<a href="https://example.com">text</a>], what the sanitizer
    returns for it, and what it returns for that. *)
Definition docLinkOnce : node :=
  Element 0 "BODY" []
    [Element 1 "A" [("href", "https://example.com"); ("target", "_blank");
                    ("rel", "external noopener noreferrer")]
       [Text 2 "text"]].

Definition docLinkTwice : node :=
  Element 0 "BODY" []
    [Element 1 "A" [("href", "https://example.com");
                    ("rel", "external noopener noreferrer"); ("target", "_blank")]
       [Text 2 "text"]].

(** The string [<a href="https://example.com">text</a>]. *)
Definition sampleLink : string :=
  sampleInnerHTML (map markup (childNodes docPlainLink)).

(** [<p><marquee><div>x</div></marquee></p>]: [marquee] keeps the
    [div] from closing the paragraph. *)
Definition docNested : node :=
  Element 0 "BODY" []
    [Element 1 "P" [] [Element 2 "MARQUEE" [] [Element 3 "DIV" [] [Text 4 "x"]]]].

(** [<p><div>x</div></p>] as the parser reads it: the [div] closes the
    paragraph, and the end tag of the paragraph opens an empty one. *)
Definition docReparsed : node :=
  Element 0 "BODY" []
    [Element 1 "P" [] []; Element 2 "DIV" [] [Text 3 "x"]; Element 4 "P" [] []].

(** The parser on the strings of the sample runs: the document the
    browser builds for each; the empty [body] for any other string. *)
Definition samplePages : list (string * node) :=
  [(sampleLink, docPlainLink);
   (sampleInnerHTML (map markup (childNodes docLinkOnce)), docLinkOnce);
   (sampleInnerHTML (map markup (childNodes docLinkTwice)), docLinkTwice);
   ("<p><marquee><div>x</div></marquee></p>", docNested);
   ("<p><div>x</div></p>", docReparsed)].

Definition sampleParse (content : string) : node :=
  match find (fun page => String.eqb content (fst page)) samplePages with
  | Some page => snd page
  | None => Element 0 "BODY" [] []
  end.

(** ** The sanitizer *)

Section Sanitizer.

(** [validUrl.isWebUri] and [isemail.validate], of the packages
    [valid-url] and [isemail]. *)
Variable isWebUri : string -> bool.
Variable isemail_validate : string -> bool.

(** The callback of [filter(node.attributes, ...)]: [true] for an
    attribute to remove. *)
Definition isUnwanted (tagName : string) (at_ : attr) : bool :=
  let '(name, value) := at_ in
  if isAllowedAttr tagName name then false
  else if (String.eqb "href" name || String.eqb "src" name) && isWebUri value then false
  else if String.eqb "href" name && startsWith "mailto:" value
          && isemail_validate (slice 7 value) then false
  else true.

(** [filter(node.attributes, ...).forEach(({ name }) => node.removeAttribute(name))]:
    the callback runs over the attributes the node has when [filter] is
    called, the removals then go through the live node. *)
Definition stripAttributes (i : nat) (tagName : string) (n : node) (F : forest) : forest :=
  fold_left (fun d at_ => removeAttribute i (fst at_) d)
            (filter (isUnwanted tagName) (attributes n)) F.

(** The link normalization that follows the stripping. *)
Definition normalizeLink (i : nat) (tagName : string) (F : forest) : forest :=
  let hrefAttribute :=
    if String.eqb "a" tagName then getAttribute i "href" F else None in
  match hrefAttribute with
  | Some href =>
      if String.eqb "a" tagName && negb (startsWith "mailto:" href)
      then setAttribute i "rel" "external noopener noreferrer"
             (setAttribute i "target" "_blank" F)
      else F
  | None => F
  end.

Record walkState : Type := WalkState {
  doc : forest;
  removeList : list nat;
  forbiddenList : list nat
}.

(** One turn of [while (walker.nextNode())], at the node [i]. *)
Definition visit (s : walkState) (i : nat) : walkState :=
  match getNodeL i (doc s) with
  | None => s
  | Some n =>
      if isForbidden n then
        WalkState (doc s) (removeList s) (forbiddenList s ++ [i])
      else if negb (isAllowedTag n) then
        WalkState (doc s) (removeList s ++ [i]) (forbiddenList s)
      else
        let tagName := toLowerCase (nodeName n) in
        WalkState (normalizeLink i tagName (stripAttributes i tagName n (doc s)))
                  (removeList s) (forbiddenList s)
  end.

Definition walk (body : node) : walkState :=
  fold_left visit (walkOrder body) (WalkState [body] [] []).

(** [forbiddenList.forEach(node => { try { node.parentNode.removeChild(node) } catch (e) {} })] *)
Definition eliminate (i : nat) : M unit :=
  tryCatch (parent <- read (parentNode i) ;;
            onObject parent (fun p => removeChild p i)).

(** [while ((child = node.firstChild)) { parent.insertBefore(child, node) }] *)
Fixpoint moveChildren (fuel : nat) (parent : option nat) (i : nat) : M unit :=
  match fuel with
  | 0 => fun F => (OutOfFuel, F)
  | S k =>
      child <- read (firstChild i) ;;
      match child with
      | None => ret tt
      | Some c =>
          onObject parent (fun p => insertBefore p c i) ;;;
          moveChildren k parent i
      end
  end.

(** The callback of [removeList.forEach]; the loop gets one turn for
    every node of the document and one more. *)
Definition unwrap (i : nat) : M unit :=
  parent <- read (parentNode i) ;;
  fuel <- read (fun F => S (length (idsL F))) ;;
  tryCatch (moveChildren fuel parent i ;;;
            onObject parent (fun p => removeChild p i)).

(** [doc.body.innerHTML] prints the children of [body]. *)
Definition bodyChildren (body : node) : M (list node) :=
  fun F =>
    match getNodeL (nid body) F with
    | Some b => (Normal (childNodes b), F)
    | None => (Throw TypeError, F)
    end.

Definition sanitizeHtml (body : node) : outcome (list node) :=
  let s := walk body in
  fst ((forEach (forbiddenList s) eliminate ;;;
        forEach (removeList s) unwrap ;;;
        bodyChildren body) (doc s)).

(** ** The sanitizer from string to string

    [new DOMParser().parseFromString(content, 'text/html')] and
    [doc.body.innerHTML] are the browser's, and parameters here.
    [parseFromString] stands for the first, followed by [.body]: the
    [body] of the document built from a string, of nodes made by that
    call.  [innerHTML] stands for the second: the string printed for
    the children of [body], which the serializer reads from their
    markup. *)
Definition sanitizeHtmlString
    (parseFromString : string -> node) (innerHTML : list html -> string)
    (content : string) : outcome string :=
  match sanitizeHtml (parseFromString content) with
  | Normal out => Normal (innerHTML (map markup out))
  | Throw e => Throw e
  | OutOfFuel => OutOfFuel
  end.

(** ** The removal directives of the specification

    Every node gets one directive; [expected] is the tree the directives
    describe: an eliminated node goes with its subtree, an unwrapped
    node leaves its children in its place, a kept node stays with the
    attributes the attribute policy and the link normalizer leave. *)

Inductive directive : Type := Keep | Unwrap | Eliminate.

Definition classify (n : node) : directive :=
  if isForbidden n then Eliminate
  else if isAllowedTag n then Keep
  else Unwrap.

Definition strippedAttributes (tagName : string) (a : list attr) : list attr :=
  fold_left (fun l at_ => removeAttr (fst at_) l) (filter (isUnwanted tagName) a) a.

Definition forcesLinkAttributes (tagName : string) (a : list attr) : bool :=
  match (if String.eqb "a" tagName then getAttr "href" a else None) with
  | Some href => String.eqb "a" tagName && negb (startsWith "mailto:" href)
  | None => false
  end.

Definition normalizedAttributes (tagName : string) (a : list attr) : list attr :=
  if forcesLinkAttributes tagName a
  then setAttr "rel" "external noopener noreferrer" (setAttr "target" "_blank" a)
  else a.

Definition keptAttributes (nm : string) (a : list attr) : list attr :=
  normalizedAttributes (toLowerCase nm) (strippedAttributes (toLowerCase nm) a).

Fixpoint expected (n : node) : list node :=
  match n with
  | Element i nm a cs =>
      match classify n with
      | Eliminate => []
      | Unwrap => flat_map expected cs
      | Keep => [Element i nm (keptAttributes nm a) (flat_map expected cs)]
      end
  | _ =>
      match classify n with
      | Keep => [n]
      | _ => []
      end
  end.

Definition expectedL (l : list node) : list node := flat_map expected l.

(** The document once the walk is over: the kept elements have their
    final attributes, no node has moved. *)
Fixpoint walked (n : node) : node :=
  match n with
  | Element i nm a cs =>
      Element i nm (match classify n with Keep => keptAttributes nm a | _ => a end)
              (map walked cs)
  | _ => n
  end.

Definition walkedBody (body : node) : node :=
  match body with
  | Element i nm a cs => Element i nm a (map walked cs)
  | _ => body
  end.

Definition isUnwrapped (n : node) : bool := negb (isForbidden n) && negb (isAllowedTag n).

(** The two queues the walk leaves, from the nodes it has visited. *)
Definition forbiddenIds (N : list node) : list nat := map nid (filter isForbidden N).
Definition unwrapIds (N : list node) : list nat := map nid (filter isUnwrapped N).

(** A tree without its attributes: what is left is which nodes there
    are and where each stands. *)
Fixpoint shape (n : node) : node :=
  match n with
  | Element i nm _ cs => Element i nm [] (map shape cs)
  | _ => n
  end.

(** An element that has lost its children. *)
Definition emptied (n : node) : node :=
  match n with
  | Element i nm a _ => Element i nm a []
  | _ => n
  end.

(** A node at the end of its own visit. *)
Definition visited (n : node) : node :=
  match n with
  | Element i nm a cs =>
      Element i nm (match classify n with Keep => keptAttributes nm a | _ => a end) cs
  | _ => n
  end.


(** ** Places in a document

    A place is given by the frames around it, innermost first: the
    siblings on both sides, or the element whose child list it is. *)

Inductive frame : Type :=
| Sib (pre post : list node)
| Wrap (id : nat) (name : string) (attrs : list attr).

Definition fill (fr : frame) (l : list node) : list node :=
  match fr with
  | Sib pre post => pre ++ l ++ post
  | Wrap i nm a => [Element i nm a l]
  end.

Definition plug (z : list frame) (l : list node) : list node :=
  fold_left (fun l fr => fill fr l) z l.

Definition frameIds (fr : frame) : list nat :=
  match fr with
  | Sib pre post => idsL pre ++ idsL post
  | Wrap i _ _ => [i]
  end.

Definition ctxIds (z : list frame) : list nat := flat_map frameIds z.

Fixpoint holeParent (z : list frame) : option nat :=
  match z with
  | [] => None
  | Sib _ _ :: z' => holeParent z'
  | Wrap i _ _ :: _ => Some i
  end.

Definition inb (i : nat) (l : list nat) : bool := existsb (Nat.eqb i) l.

(** The parent of [i] in [plug z l], from what is known of [i] in [l]:
    [top] when [i] is one of the nodes of [l], [cur] its parent inside [l]. *)
Fixpoint parentThrough (z : list frame) (top : bool) (cur : option nat) : option nat :=
  match z with
  | [] => cur
  | Sib _ _ :: z' => parentThrough z' top cur
  | Wrap j _ _ :: z' => parentThrough z' false (if top then Some j else cur)
  end.

(** [f] leaves alone every node whose handle is not in [K]. *)
Definition keyed (f : node -> list node) (K : list nat) : Prop :=
  forall y, ~ In (nid y) K -> f y = [y].

Definition dropIn (l : list nat) (n : node) : list node :=
  if inb (nid n) l then [] else [n].

Definition spliceIn (l : list nat) (n : node) : list node :=
  if inb (nid n) l then childNodes n else [n].



(** A well-formed document: every node is one object, and an element
    has one attribute of a name. *)
Definition uniqueAttributes (n : node) : Prop :=
  Forall (fun x => NoDup (map fst (attributes x))) (subtrees n).

Definition wellFormed (body : node) : Prop :=
  NoDup (ids body) /\ uniqueAttributes body.

(** ** Further readings of the code *)

(** The text a list of nodes holds, in document order. *)
Fixpoint textOf (n : node) : list string :=
  match n with
  | Text _ d => [d]
  | Element _ _ _ cs => flat_map textOf cs
  | Comment _ _ => []
  end.

(** The text of a document that is not below a forbidden element. *)
Fixpoint visibleText (n : node) : list string :=
  match n with
  | Text _ d => [d]
  | Element _ _ _ cs => if isForbidden n then [] else flat_map visibleText cs
  | Comment _ _ => []
  end.

(** The value the attribute filter leaves under a name, on an element
    with one attribute of a name. *)
Definition filteredAttr (tagName : string) (a : list attr) (name : string) : option string :=
  match getAttr name a with
  | Some value => if isUnwanted tagName (name, value) then None else Some value
  | None => None
  end.

(** The node a node of the result comes from. *)
Definition keptFrom (x y : node) : Prop :=
  classify x = Keep /\
  match x with
  | Element i nm a _ => exists cs', y = Element i nm (keptAttributes nm a) cs'
  | _ => y = x
  end.

(** The two callbacks without their [try] and [catch]. *)
Definition eliminateUnguarded (i : nat) : M unit :=
  parent <- read (parentNode i) ;;
  onObject parent (fun p => removeChild p i).

Definition unwrapUnguarded (i : nat) : M unit :=
  parent <- read (parentNode i) ;;
  fuel <- read (fun F => S (length (idsL F))) ;;
  moveChildren fuel parent i ;;;
  onObject parent (fun p => removeChild p i).

(** The same tree with every tag name in lower case. *)
Fixpoint lowerTags (n : node) : node :=
  match n with
  | Element i nm a cs => Element i (toLowerCase nm) a (map lowerTags cs)
  | _ => n
  end.

(** [subsequence l' l]: [l'] is [l] with some of its items left out,
    the others in the order they have in [l]. *)
Inductive subsequence : list nat -> list nat -> Prop :=
| subsequence_nil : subsequence [] []
| subsequence_skip x l' l : subsequence l' l -> subsequence l' (x :: l)
| subsequence_take x l' l : subsequence l' l -> subsequence (x :: l') (x :: l).

(** A place below no forbidden element: no frame around it is one. *)
Definition notBelowForbidden (z : list frame) : bool :=
  forallb (fun fr => match fr with
                     | Wrap i nm a => negb (isForbidden (Element i nm a []))
                     | Sib _ _ => true
                     end) z.

(** * Proofs *)

(** ** Induction on nodes *)

Lemma node_induction (P : node -> Prop) :
  (forall i nm a cs, Forall P cs -> P (Element i nm a cs)) ->
  (forall i d, P (Text i d)) ->
  (forall i d, P (Comment i d)) ->
  forall n, P n.
Proof.
  intros HE HT HC.
  fix IH 1.
  intros [i nm a cs | i d | i d].
  - apply HE. induction cs as [|c cs IHcs]; constructor; [apply IH | exact IHcs].
  - apply HT.
  - apply HC.
Qed.

(** ** Lists *)

Lemma cons_app {A : Type} (x : A) (l : list A) : x :: l = [x] ++ l.
Proof. reflexivity. Qed.

(** Permutations of concatenations, modulo associativity and commutativity. *)
Ltac perm :=
  repeat match goal with
         | |- context [?x :: ?l] =>
             lazymatch l with [] => fail | _ => rewrite (cons_app x l) end
         end;
  aac_reflexivity.

Ltac nodup_from H := eapply Permutation_NoDup; [|exact H]; perm.

Lemma firstSome_app {A B : Type} (f : A -> option B) (l1 l2 : list A) :
  firstSome f (l1 ++ l2) =
  match firstSome f l1 with Some y => Some y | None => firstSome f l2 end.
Proof.
  induction l1 as [|x l1 IH]; simpl; [reflexivity|].
  destruct (f x); [reflexivity | exact IH].
Qed.

Lemma firstSome_none {A B : Type} (f : A -> option B) (l : list A) :
  (forall x, In x l -> f x = None) -> firstSome f l = None.
Proof.
  induction l as [|x l IH]; simpl; intros H; [reflexivity|].
  rewrite (H x (or_introl eq_refl)). apply IH. intros y Hy. apply H. now right.
Qed.

Lemma firstSome_map {A B C : Type} (g : A -> B) (f : B -> option C) (l : list A) :
  firstSome f (map g l) = firstSome (fun x => f (g x)) l.
Proof.
  induction l as [|x l IH]; simpl; [reflexivity|].
  destruct (f (g x)); [reflexivity | exact IH].
Qed.

Lemma firstSome_ext_in {A B : Type} (f g : A -> option B) (l : list A) :
  (forall x, In x l -> f x = g x) -> firstSome f l = firstSome g l.
Proof.
  induction l as [|x l IH]; simpl; intros H; [reflexivity|].
  rewrite (H x (or_introl eq_refl)). destruct (g x); [reflexivity|].
  apply IH. intros y Hy. apply H. now right.
Qed.

Lemma inb_In (i : nat) (l : list nat) : inb i l = true <-> In i l.
Proof.
  unfold inb. rewrite existsb_exists. split.
  - intros [x [Hx He]]. apply Nat.eqb_eq in He. now subst.
  - intros H. exists i. split; [exact H | apply Nat.eqb_refl].
Qed.

Lemma inb_false (i : nat) (l : list nat) : inb i l = false <-> ~ In i l.
Proof.
  rewrite <- inb_In. destruct (inb i l); split; congruence.
Qed.

(** ** Handles of a tree *)

Lemma ids_Element i nm a cs : ids (Element i nm a cs) = i :: idsL cs.
Proof. reflexivity. Qed.

Lemma idsL_cons c l : idsL (c :: l) = ids c ++ idsL l.
Proof. unfold idsL, ids, subtreesL. simpl. now rewrite map_app. Qed.

Lemma idsL_app l1 l2 : idsL (l1 ++ l2) = idsL l1 ++ idsL l2.
Proof. unfold idsL, subtreesL. now rewrite flat_map_app, map_app. Qed.

Lemma idsL_nil : idsL [] = [].
Proof. reflexivity. Qed.

Lemma ids_childNodes n : ids n = nid n :: idsL (childNodes n).
Proof. destruct n; reflexivity. Qed.

Lemma nid_in_ids n : In (nid n) (ids n).
Proof. rewrite ids_childNodes. now left. Qed.

Lemma roots_in_idsL l n : In n l -> In (nid n) (idsL l).
Proof.
  induction l as [|c l IH]; simpl; [tauto|].
  rewrite idsL_cons, in_app_iff. intros [->|H]; [left; apply nid_in_ids | right; auto].
Qed.

Lemma existsb_nid i l : existsb (fun c => Nat.eqb (nid c) i) l = true <-> In i (map nid l).
Proof.
  rewrite existsb_exists, in_map_iff. split.
  - intros [x [Hx He]]. apply Nat.eqb_eq in He. eauto.
  - intros [x [He Hx]]. exists x. split; [exact Hx | now apply Nat.eqb_eq].
Qed.

Lemma top_in_idsL i l : In i (map nid l) -> In i (idsL l).
Proof.
  rewrite in_map_iff. intros [x [<- Hx]]. now apply roots_in_idsL.
Qed.

Lemma getNode_none i n : ~ In i (ids n) -> getNode i n = None.
Proof.
  induction n as [j nm a cs IH | j d | j d] using node_induction;
    rewrite ?ids_Element; simpl; intros H.
  - destruct (Nat.eqb_spec j i) as [->|_]; [tauto|].
    apply firstSome_none. intros x Hx.
    rewrite Forall_forall in IH. apply IH; [exact Hx|].
    intros Hin. apply H. right.
    clear - Hx Hin. induction cs as [|c cs IHcs]; [destruct Hx|].
    rewrite idsL_cons, in_app_iff. destruct Hx as [->|Hx]; [now left | right; auto].
  - destruct (Nat.eqb_spec j i) as [->|_]; [unfold ids in H; simpl in H; tauto | reflexivity].
  - destruct (Nat.eqb_spec j i) as [->|_]; [unfold ids in H; simpl in H; tauto | reflexivity].
Qed.

Lemma getNodeL_none i l : ~ In i (idsL l) -> getNodeL i l = None.
Proof.
  intros H. apply firstSome_none. intros x Hx. apply getNode_none.
  intros Hin. apply H. clear - Hx Hin.
  induction l as [|c l IH]; [destruct Hx|].
  rewrite idsL_cons, in_app_iff. destruct Hx as [->|Hx]; [now left | right; auto].
Qed.

Lemma getNode_self n : getNode (nid n) n = Some n.
Proof. destruct n; simpl; now rewrite Nat.eqb_refl. Qed.

Lemma getNodeL_app i l1 l2 :
  ~ In i (idsL l1) -> getNodeL i (l1 ++ l2) = getNodeL i l2.
Proof.
  intros H. unfold getNodeL. rewrite firstSome_app.
  change (firstSome (getNode i) l1) with (getNodeL i l1).
  now rewrite getNodeL_none.
Qed.

Lemma getNodeL_head n l : getNodeL (nid n) (n :: l) = Some n.
Proof. unfold getNodeL. simpl. now rewrite getNode_self. Qed.

Lemma parentIn_none i n : ~ In i (idsL (childNodes n)) -> parentIn i n = None.
Proof.
  induction n as [j nm a cs IH | j d | j d] using node_induction; simpl; intros H;
    [|reflexivity|reflexivity].
  destruct (existsb _ cs) eqn:E.
  - apply existsb_nid in E. elim H. now apply top_in_idsL.
  - apply firstSome_none. intros x Hx.
    rewrite Forall_forall in IH. apply IH; [exact Hx|].
    intros Hin. apply H. clear - Hx Hin.
    induction cs as [|c cs IHcs]; [destruct Hx|].
    rewrite idsL_cons, in_app_iff. destruct Hx as [->|Hx].
    + left. rewrite ids_childNodes. now right.
    + right; auto.
Qed.

Lemma parentNode_none i l : ~ In i (idsL l) -> parentNode i l = None.
Proof.
  intros H. apply firstSome_none. intros x Hx. apply parentIn_none.
  intros Hin. apply H. clear - Hx Hin.
  induction l as [|c l IH]; [destruct Hx|].
  rewrite idsL_cons, in_app_iff. destruct Hx as [->|Hx].
  - left. rewrite ids_childNodes. now right.
  - right; auto.
Qed.

Lemma parentNode_app i l1 l2 :
  parentNode i (l1 ++ l2) =
  match parentNode i l1 with Some p => Some p | None => parentNode i l2 end.
Proof. apply firstSome_app. Qed.

(** ** Rewriting child lists *)

Lemma nid_edit f n : nid (edit f n) = nid n.
Proof. destruct n; reflexivity. Qed.

Lemma editL_app f l1 l2 : editL f (l1 ++ l2) = editL f l1 ++ editL f l2.
Proof. apply flat_map_app. Qed.

Lemma editL_cons f c l : editL f (c :: l) = f (edit f c) ++ editL f l.
Proof. reflexivity. Qed.

Lemma edit_Element f i nm a cs : edit f (Element i nm a cs) = Element i nm a (editL f cs).
Proof. reflexivity. Qed.

Lemma childNodes_edit f n : childNodes (edit f n) = editL f (childNodes n).
Proof. destruct n; reflexivity. Qed.

Lemma editL_keyed_id f K l :
  keyed f K -> (forall i, In i (idsL l) -> ~ In i K) -> editL f l = l.
Proof.
  intros Hk. revert l.
  enough (H : forall n, (forall i, In i (idsL (childNodes n)) -> ~ In i K) -> edit f n = n).
  { induction l as [|c l IH]; intros Hl; [reflexivity|].
    rewrite editL_cons, H, IH, Hk; [reflexivity| | |].
    - apply Hl. rewrite idsL_cons, in_app_iff. left. apply nid_in_ids.
    - intros i Hi. apply Hl. rewrite idsL_cons, in_app_iff. now right.
    - intros i Hi. apply Hl. rewrite idsL_cons, in_app_iff. left.
      rewrite ids_childNodes. now right. }
  induction n as [j nm a cs IH | j d | j d] using node_induction; intros Hn;
    [|reflexivity|reflexivity].
  rewrite edit_Element. f_equal. simpl in Hn.
  induction cs as [|c cs IHcs]; [reflexivity|].
  inversion IH as [|? ? Hc Hcs]; subst.
  rewrite editL_cons, Hc, IHcs, Hk; [reflexivity| | | |].
  - apply Hn. rewrite idsL_cons, in_app_iff. left. apply nid_in_ids.
  - exact Hcs.
  - intros i Hi. apply Hn. rewrite idsL_cons, in_app_iff. now right.
  - intros i Hi. apply Hn. rewrite idsL_cons, in_app_iff. left.
    rewrite ids_childNodes. now right.
Qed.

Lemma edit_keyed_id f K n :
  keyed f K -> (forall i, In i (idsL (childNodes n)) -> ~ In i K) -> edit f n = n.
Proof.
  intros Hk Hn. destruct n as [j nm a cs | |]; [|reflexivity|reflexivity].
  rewrite edit_Element. f_equal. now apply (editL_keyed_id f K).
Qed.

Lemma keyed_dropAt i : keyed (dropAt i) [i].
Proof.
  intros y Hy. unfold dropAt. destruct (Nat.eqb_spec (nid y) i) as [E|E]; [|reflexivity].
  elim Hy. now left.
Qed.

Lemma keyed_insertAt i new : keyed (insertAt i new) [i].
Proof.
  intros y Hy. unfold insertAt. destruct (Nat.eqb_spec (nid y) i) as [E|E]; [|reflexivity].
  elim Hy. now left.
Qed.

Lemma keyed_dropIn l : keyed (dropIn l) l.
Proof.
  intros y Hy. unfold dropIn. apply inb_false in Hy. now rewrite Hy.
Qed.

Lemma keyed_spliceIn l : keyed (spliceIn l) l.
Proof.
  intros y Hy. unfold spliceIn. apply inb_false in Hy. now rewrite Hy.
Qed.

(** ** Places *)

Lemma plug_cons fr z l : plug (fr :: z) l = plug z (fill fr l).
Proof. reflexivity. Qed.

Lemma plug_app z1 z2 l : plug (z1 ++ z2) l = plug z2 (plug z1 l).
Proof. apply fold_left_app. Qed.

Lemma ctxIds_cons fr z : ctxIds (fr :: z) = frameIds fr ++ ctxIds z.
Proof. reflexivity. Qed.

Lemma idsL_fill fr l : Permutation (idsL (fill fr l)) (frameIds fr ++ idsL l).
Proof.
  destruct fr as [pre post | j nm a]; simpl.
  - rewrite !idsL_app. rewrite <- app_assoc.
    apply Permutation_app_head. apply Permutation_app_comm.
  - rewrite idsL_cons, ids_Element, idsL_nil, app_nil_r. reflexivity.
Qed.

Lemma idsL_plug z l : Permutation (idsL (plug z l)) (ctxIds z ++ idsL l).
Proof.
  revert l. induction z as [|fr z IH]; intros l; [reflexivity|].
  rewrite plug_cons, IH, ctxIds_cons, idsL_fill.
  rewrite !app_assoc. apply Permutation_app_tail. apply Permutation_app_comm.
Qed.

Lemma getNodeL_plug i z l :
  ~ In i (ctxIds z) -> getNodeL i (plug z l) = getNodeL i l.
Proof.
  revert l. induction z as [|fr z IH]; intros l H; [reflexivity|].
  rewrite ctxIds_cons, in_app_iff in H.
  rewrite plug_cons, IH by tauto.
  destruct fr as [pre post | j nm a]; simpl in *.
  - rewrite in_app_iff in H. rewrite getNodeL_app by tauto.
    unfold getNodeL. rewrite firstSome_app.
    destruct (firstSome (getNode i) l); [reflexivity|].
    apply getNodeL_none. tauto.
  - unfold getNodeL. simpl. destruct (Nat.eqb_spec j i) as [->|_]; [tauto|].
    now destruct (firstSome (getNode i) l).
Qed.

Lemma parentThrough_false z cur : parentThrough z false cur = cur.
Proof. induction z as [|[pre post|j nm a] z IH]; simpl; auto. Qed.

Lemma parentThrough_top z : parentThrough z true None = holeParent z.
Proof.
  induction z as [|[pre post|j nm a] z IH]; simpl; auto using parentThrough_false.
Qed.

Lemma parentNode_plug_gen i z l :
  ~ In i (ctxIds z) ->
  parentNode i (plug z l) = parentThrough z (inb i (map nid l)) (parentNode i l).
Proof.
  revert l. induction z as [|fr z IH]; intros l H; [reflexivity|].
  rewrite ctxIds_cons, in_app_iff in H.
  rewrite plug_cons, IH by tauto.
  destruct fr as [pre post | j nm a]; simpl in *.
  - rewrite in_app_iff in H. f_equal.
    + rewrite !map_app. unfold inb. rewrite !existsb_app.
      assert (Hp : forall q, ~ In i (idsL q) -> existsb (Nat.eqb i) (map nid q) = false).
      { intros q Hq. apply inb_false. intros Hin. apply Hq. now apply top_in_idsL. }
      rewrite (Hp pre), (Hp post) by tauto. now rewrite orb_false_r.
    + rewrite !parentNode_app, (parentNode_none i pre), (parentNode_none i post) by tauto.
      now destruct (parentNode i l).
  - assert (Hj : Nat.eqb i j = false) by (apply Nat.eqb_neq; intros ->; tauto).
    unfold inb at 1. simpl. rewrite Hj. simpl. f_equal.
    unfold parentNode at 1. simpl.
    fold (inb i (map nid l)). fold (parentNode i l).
    destruct (existsb (fun c => Nat.eqb (nid c) i) l) eqn:E.
    + apply existsb_nid, inb_In in E. now rewrite E.
    + assert (E' : inb i (map nid l) = false).
      { apply inb_false. intros Hin. apply existsb_nid in Hin. congruence. }
      rewrite E'. now destruct (parentNode i l).
Qed.

Lemma parentNode_plug i z l :
  ~ In i (ctxIds z) -> In i (map nid l) -> parentNode i l = None ->
  parentNode i (plug z l) = holeParent z.
Proof.
  intros H Ht Hn. rewrite parentNode_plug_gen, Hn by exact H.
  apply inb_In in Ht. rewrite Ht. apply parentThrough_top.
Qed.

Lemma holeParent_in z p : holeParent z = Some p -> In p (ctxIds z).
Proof.
  induction z as [|[pre post|j nm a] z IH]; simpl; intros H; [discriminate| |].
  - rewrite in_app_iff. right. auto.
  - injection H as ->. now left.
Qed.

Lemma editL_plug f K z l :
  keyed f K -> (forall i, In i (ctxIds z) -> ~ In i K) ->
  editL f (plug z l) = plug z (editL f l).
Proof.
  intros Hk. revert l. induction z as [|fr z IH]; intros l H; [reflexivity|].
  rewrite !plug_cons, IH.
  2:{ intros i Hi. apply H. rewrite ctxIds_cons, in_app_iff. now right. }
  f_equal. destruct fr as [pre post | j nm a]; cbn [fill].
  - rewrite !editL_app.
    rewrite (editL_keyed_id f K pre), (editL_keyed_id f K post); auto.
    + intros i Hi. apply H. rewrite ctxIds_cons, in_app_iff. left. simpl.
      rewrite in_app_iff. now right.
    + intros i Hi. apply H. rewrite ctxIds_cons, in_app_iff. left. simpl.
      rewrite in_app_iff. now left.
  - rewrite editL_cons, edit_Element. change (editL f []) with (@nil node).
    rewrite app_nil_r. apply Hk. simpl. apply H. rewrite ctxIds_cons. now left.
Qed.

Lemma locate_in l :
  Forall (fun n => forall i, In i (idsL (childNodes n)) ->
                   exists z x, childNodes n = plug z [x] /\ nid x = i) l ->
  forall i, In i (idsL l) -> exists z x, l = plug z [x] /\ nid x = i.
Proof.
  induction 1 as [|c l Hc Hl IH]; intros i Hi; [destruct Hi|].
  rewrite idsL_cons, in_app_iff in Hi. destruct Hi as [Hi|Hi].
  - rewrite ids_childNodes in Hi. destruct Hi as [Hi|Hi].
    + exists [Sib [] l], c. now split.
    + destruct (Hc i Hi) as [z [x [Hz Hx]]].
      destruct c as [j nm a cs | |]; [|destruct Hi|destruct Hi].
      simpl in Hz. exists (z ++ [Wrap j nm a; Sib [] l]), x. split; [|exact Hx].
      rewrite plug_app, <- Hz. reflexivity.
  - destruct (IH i Hi) as [z [x [Hz Hx]]].
    exists (z ++ [Sib [c] []]), x. split; [|exact Hx].
    rewrite plug_app, <- Hz. simpl. now rewrite app_nil_r.
Qed.

Lemma locate_below n i :
  In i (idsL (childNodes n)) -> exists z x, childNodes n = plug z [x] /\ nid x = i.
Proof.
  revert i. induction n as [j nm a cs IH | j d | j d] using node_induction;
    intros i Hi; [|destruct Hi|destruct Hi].
  simpl in *. now apply locate_in.
Qed.

Lemma locate l i : In i (idsL l) -> exists z x, l = plug z [x] /\ nid x = i.
Proof.
  apply locate_in. apply Forall_forall. intros n _ j. apply locate_below.
Qed.

Lemma plug_roots z l r :
  In r (plug z l) -> In (nid r) (ctxIds z) \/ In r l.
Proof.
  revert l. induction z as [|fr z IH]; intros l Hr; [now right|].
  rewrite plug_cons in Hr. rewrite ctxIds_cons, in_app_iff.
  destruct (IH _ Hr) as [H|H]; [tauto|].
  destruct fr as [pre post | j nm a]; simpl in *.
  - rewrite !in_app_iff in *. destruct H as [H|[H|H]]; auto using roots_in_idsL.
  - destruct H as [<-|[]]. simpl. tauto.
Qed.

Lemma plug_roots_wrapped z l p r :
  holeParent z = Some p -> In r (plug z l) -> In (nid r) (ctxIds z).
Proof.
  revert l. induction z as [|fr z IH]; intros l Hp Hr; [discriminate|].
  rewrite plug_cons in Hr. rewrite ctxIds_cons, in_app_iff.
  destruct fr as [pre post | j nm a]; simpl in *.
  - right. eapply IH; eauto.
  - destruct (plug_roots _ _ _ Hr) as [H|[<-|[]]]; simpl; tauto.
Qed.

Lemma NoDup_app_inv {A : Type} (l1 l2 : list A) :
  NoDup (l1 ++ l2) -> NoDup l1 /\ NoDup l2 /\ (forall a, In a l1 -> ~ In a l2).
Proof.
  intros H. split; [|split].
  - eapply NoDup_app_remove_r; eauto.
  - eapply NoDup_app_remove_l; eauto.
  - induction l1 as [|x l1 IH]; intros a Ha; [destruct Ha|].
    simpl in H. apply NoDup_cons_iff in H. destruct H as [Hx Hn].
    destruct Ha as [->|Ha]; [|now apply IH].
    intros Hin. apply Hx. apply in_or_app. now right.
Qed.

(** ** Attribute updates *)

Lemma nid_updateAttributes i h n : nid (updateAttributes i h n) = nid n.
Proof. destruct n; reflexivity. Qed.

Lemma updateAttributes_id i h n : ~ In i (ids n) -> updateAttributes i h n = n.
Proof.
  induction n as [j nm a cs IH | j d | j d] using node_induction; intros H;
    [|reflexivity|reflexivity].
  rewrite ids_Element in H. simpl in *.
  destruct (Nat.eqb_spec j i) as [->|_]; [tauto|]. f_equal.
  induction cs as [|c cs IHcs]; [reflexivity|].
  inversion IH as [|? ? Hc Hcs]; subst. rewrite idsL_cons, in_app_iff in H.
  simpl. rewrite Hc, IHcs; auto; tauto.
Qed.

Lemma updateAttributesL_id i h l :
  ~ In i (idsL l) -> map (updateAttributes i h) l = l.
Proof.
  induction l as [|c l IH]; intros H; [reflexivity|].
  rewrite idsL_cons, in_app_iff in H. simpl.
  rewrite updateAttributes_id, IH; auto.
Qed.

Lemma updateAttributes_plug i h z l :
  ~ In i (ctxIds z) ->
  map (updateAttributes i h) (plug z l) = plug z (map (updateAttributes i h) l).
Proof.
  revert l. induction z as [|fr z IH]; intros l H; [reflexivity|].
  rewrite ctxIds_cons, in_app_iff in H. rewrite !plug_cons, IH by tauto. f_equal.
  destruct fr as [pre post | j nm a]; simpl in *.
  - rewrite in_app_iff in H. rewrite !map_app.
    rewrite (updateAttributesL_id i h pre), (updateAttributesL_id i h post); tauto.
  - destruct (Nat.eqb_spec j i) as [->|_]; [tauto | reflexivity].
Qed.

Lemma updateAttributes_compose i h1 h2 n :
  updateAttributes i h2 (updateAttributes i h1 n) =
  updateAttributes i (fun a => h2 (h1 a)) n.
Proof.
  induction n as [j nm a cs IH | j d | j d] using node_induction;
    [|reflexivity|reflexivity].
  simpl. destruct (Nat.eqb j i); f_equal; rewrite map_map; apply map_ext_in;
    intros c Hc; rewrite Forall_forall in IH; now apply IH.
Qed.

Lemma updateAttributes_same i n : updateAttributes i (fun a => a) n = n.
Proof.
  induction n as [j nm a cs IH | j d | j d] using node_induction;
    [|reflexivity|reflexivity].
  simpl. destruct (Nat.eqb j i); f_equal;
    (rewrite <- (map_id cs) at 2; apply map_ext_in; intros c Hc;
     rewrite Forall_forall in IH; now apply IH).
Qed.

Lemma ids_updateAttributes i h n : ids (updateAttributes i h n) = ids n.
Proof.
  induction n as [j nm a cs IH | j d | j d] using node_induction;
    [|reflexivity|reflexivity].
  simpl. rewrite !ids_Element. f_equal.
  induction cs as [|c cs IHcs]; [reflexivity|].
  inversion IH as [|? ? Hc Hcs]; subst. simpl. rewrite !idsL_cons, Hc, IHcs; auto.
Qed.

(** ** The walk *)

Lemma classify_Text i d : classify (Text i d) = Keep.
Proof. reflexivity. Qed.

Lemma classify_Comment i d : classify (Comment i d) = Unwrap.
Proof. reflexivity. Qed.

Lemma classify_cases n :
  (classify n = Eliminate /\ isForbidden n = true /\ isUnwrapped n = false) \/
  (classify n = Unwrap /\ isForbidden n = false /\ isAllowedTag n = false
   /\ isUnwrapped n = true) \/
  (classify n = Keep /\ isForbidden n = false /\ isAllowedTag n = true
   /\ isUnwrapped n = false).
Proof.
  unfold classify, isUnwrapped.
  destruct (isForbidden n), (isAllowedTag n); simpl; tauto.
Qed.

Lemma stripAttributes_map i tagName n F :
  stripAttributes i tagName n F =
  map (updateAttributes i
         (fun a => fold_left (fun l at_ => removeAttr (fst at_) l)
                             (filter (isUnwanted tagName) (attributes n)) a)) F.
Proof.
  unfold stripAttributes.
  generalize (filter (isUnwanted tagName) (attributes n)) as ds.
  intros ds. revert F. induction ds as [|d ds IH]; intros F; simpl.
  - rewrite <- (map_id F) at 1. apply map_ext. intros c.
    now rewrite updateAttributes_same.
  - rewrite IH. unfold removeAttribute. rewrite map_map. apply map_ext. intros c.
    apply updateAttributes_compose.
Qed.

Lemma updateAttributes_at i h z nm a cs :
  ~ In i (ctxIds z) -> ~ In i (idsL cs) ->
  map (updateAttributes i h) (plug z [Element i nm a cs]) =
  plug z [Element i nm (h a) cs].
Proof.
  intros Hz Hc. rewrite updateAttributes_plug by exact Hz. simpl.
  now rewrite Nat.eqb_refl, updateAttributesL_id.
Qed.

Lemma getNodeL_at z x : ~ In (nid x) (ctxIds z) -> getNodeL (nid x) (plug z [x]) = Some x.
Proof. intros H. rewrite getNodeL_plug by exact H. apply getNodeL_head. Qed.

Lemma filter_one {A : Type} (p : A -> bool) (x : A) :
  filter p [x] = if p x then [x] else [].
Proof. reflexivity. Qed.

Lemma visit_at z x rl fl :
  ~ In (nid x) (ctxIds z) -> ~ In (nid x) (idsL (childNodes x)) ->
  visit (WalkState (plug z [x]) rl fl) (nid x) =
  WalkState (plug z [visited x]) (rl ++ unwrapIds [x]) (fl ++ forbiddenIds [x]).
Proof.
  intros Hz Hc. unfold visit. cbn [doc removeList forbiddenList].
  rewrite getNodeL_at by exact Hz.
  unfold unwrapIds, forbiddenIds. rewrite !filter_one.
  destruct (classify_cases x) as [[Hk [Hf Hu]]|[[Hk [Hf [Ha Hu]]]|[Hk [Hf [Ha Hu]]]]];
    rewrite Hf, Hu; try rewrite Ha; cbn [negb map]; rewrite ?app_nil_r.
  - f_equal. destruct x as [i nm a cs | |]; [|reflexivity|reflexivity].
    unfold visited. now rewrite Hk.
  - f_equal. destruct x as [i nm a cs | |]; [|reflexivity|reflexivity].
    unfold visited. now rewrite Hk.
  - f_equal. destruct x as [i nm a cs | i d | i d].
    + unfold visited. rewrite Hk. cbn [nid nodeName childNodes] in *.
      rewrite stripAttributes_map, updateAttributes_at by assumption.
      cbn [attributes]. fold (strippedAttributes (toLowerCase nm) a).
      unfold normalizeLink, getAttribute.
      pose proof (getNodeL_at z (Element i nm (strippedAttributes (toLowerCase nm) a) cs) Hz)
        as Hg.
      cbn [nid] in Hg. rewrite Hg.
      cbn [attributes]. unfold keptAttributes, normalizedAttributes, forcesLinkAttributes.
      destruct (if String.eqb "a" (toLowerCase nm)
                then getAttr "href" (strippedAttributes (toLowerCase nm) a)
                else None) as [href|]; [|reflexivity].
      destruct (String.eqb "a" (toLowerCase nm) && negb (startsWith "mailto:" href));
        [|reflexivity].
      unfold setAttribute. rewrite !updateAttributes_at by assumption. reflexivity.
    + reflexivity.
    + discriminate Hk.
Qed.

Lemma ids_walked n : ids (walked n) = ids n.
Proof.
  induction n as [j nm a cs IH | j d | j d] using node_induction;
    [|reflexivity|reflexivity].
  simpl. rewrite !ids_Element. f_equal.
  induction cs as [|c cs IHcs]; [reflexivity|].
  inversion IH as [|? ? Hc Hcs]; subst. simpl. rewrite !idsL_cons, Hc, IHcs; auto.
Qed.

Lemma idsL_walked l : idsL (map walked l) = idsL l.
Proof.
  induction l as [|c l IH]; [reflexivity|].
  simpl. now rewrite !idsL_cons, ids_walked, IH.
Qed.

Lemma unwrapIds_app N1 N2 : unwrapIds (N1 ++ N2) = unwrapIds N1 ++ unwrapIds N2.
Proof. unfold unwrapIds. now rewrite filter_app, map_app. Qed.

Lemma forbiddenIds_app N1 N2 : forbiddenIds (N1 ++ N2) = forbiddenIds N1 ++ forbiddenIds N2.
Proof. unfold forbiddenIds. now rewrite filter_app, map_app. Qed.

Lemma walk_children cs :
  Forall (fun t => forall z rl fl,
            NoDup (ctxIds z ++ ids t) ->
            fold_left visit (ids t) (WalkState (plug z [t]) rl fl) =
            WalkState (plug z [walked t]) (rl ++ unwrapIds (subtrees t))
                      (fl ++ forbiddenIds (subtrees t))) cs ->
  forall z done rl fl,
    NoDup (ctxIds z ++ idsL done ++ idsL cs) ->
    fold_left visit (idsL cs) (WalkState (plug z (done ++ cs)) rl fl) =
    WalkState (plug z (done ++ map walked cs)) (rl ++ unwrapIds (subtreesL cs))
              (fl ++ forbiddenIds (subtreesL cs)).
Proof.
  induction 1 as [|c cs Hc Hcs IH]; intros z done rl fl Hnd.
  - simpl. unfold unwrapIds, forbiddenIds. simpl. now rewrite !app_nil_r.
  - rewrite idsL_cons, fold_left_app.
    change (plug z (done ++ c :: cs)) with (plug (Sib done cs :: z) [c]).
    rewrite Hc.
    + change (plug (Sib done cs :: z) [walked c]) with (plug z (done ++ [walked c] ++ cs)).
      rewrite app_assoc, IH.
      * f_equal.
        -- simpl. now rewrite <- app_assoc.
        -- unfold subtreesL. simpl. now rewrite unwrapIds_app, app_assoc.
        -- unfold subtreesL. simpl. now rewrite forbiddenIds_app, app_assoc.
      * rewrite idsL_app, idsL_cons, idsL_nil, app_nil_r, ids_walked.
        rewrite idsL_cons in Hnd. now rewrite <- app_assoc.
    + rewrite ctxIds_cons. simpl. rewrite idsL_cons in Hnd. nodup_from Hnd.
Qed.

Lemma walk_node t :
  forall z rl fl,
    NoDup (ctxIds z ++ ids t) ->
    fold_left visit (ids t) (WalkState (plug z [t]) rl fl) =
    WalkState (plug z [walked t]) (rl ++ unwrapIds (subtrees t))
              (fl ++ forbiddenIds (subtrees t)).
Proof.
  induction t as [i nm a cs IH | i d | i d] using node_induction; intros z rl fl Hnd.
  - rewrite ids_Element in *. cbn [fold_left].
    destruct (NoDup_app_inv _ _ Hnd) as [_ [Hi Hd]].
    apply NoDup_cons_iff in Hi. destruct Hi as [Hi Hcs].
    change i with (nid (Element i nm a cs)) at 2.
    rewrite visit_at.
    2:{ intros Hin. apply (Hd _ Hin). now left. }
    2:{ exact Hi. }
    cbn [visited].
    set (a' := match classify (Element i nm a cs) with
               | Keep => keptAttributes nm a | _ => a end).
    change (plug z [Element i nm a' cs]) with (plug (Wrap i nm a' :: z) ([] ++ cs)).
    rewrite (walk_children cs IH).
    + f_equal.
      * change (subtrees (Element i nm a cs)) with ([Element i nm a cs] ++ subtreesL cs).
        now rewrite unwrapIds_app, app_assoc.
      * change (subtrees (Element i nm a cs)) with ([Element i nm a cs] ++ subtreesL cs).
        now rewrite forbiddenIds_app, app_assoc.
    + rewrite ctxIds_cons, idsL_nil. simpl. nodup_from Hnd.
  - destruct (NoDup_app_inv _ _ Hnd) as [_ [_ Hd]].
    change (ids (Text i d)) with [nid (Text i d)]. cbn [fold_left].
    rewrite visit_at; [reflexivity| |simpl; tauto].
    intros Hin. apply (Hd _ Hin). now left.
  - destruct (NoDup_app_inv _ _ Hnd) as [_ [_ Hd]].
    change (ids (Comment i d)) with [nid (Comment i d)]. cbn [fold_left].
    rewrite visit_at; [reflexivity| |simpl; tauto].
    intros Hin. apply (Hd _ Hin). now left.
Qed.

Lemma walk_spec body :
  NoDup (ids body) ->
  walk body =
  WalkState [walkedBody body] (unwrapIds (subtreesL (childNodes body)))
            (forbiddenIds (subtreesL (childNodes body))).
Proof.
  intros Hnd. unfold walk, walkOrder.
  destruct body as [i nm a cs | i d | i d]; [|reflexivity|reflexivity].
  cbn [childNodes walkedBody]. rewrite ids_Element in Hnd.
  change [Element i nm a cs] with (plug [Wrap i nm a] ([] ++ cs)).
  rewrite walk_children.
  - reflexivity.
  - apply Forall_forall. intros t _. apply walk_node.
  - simpl. exact Hnd.
Qed.

(** ** One queued removal *)

Lemma firstSome_some {A B : Type} (f : A -> option B) (l : list A) x :
  In x l -> f x <> None -> firstSome f l <> None.
Proof.
  induction l as [|y l IH]; simpl; intros Hx Hf; [destruct Hx|].
  destruct (f y) eqn:E; [discriminate|].
  destruct Hx as [->|Hx]; [congruence | now apply IH].
Qed.

Lemma below_cases i l :
  In i (idsL l) -> In i (map nid l) \/ exists c, In c l /\ In i (idsL (childNodes c)).
Proof.
  induction l as [|c l IH]; [intros []|].
  rewrite idsL_cons, in_app_iff, ids_childNodes. simpl.
  intros [[H|H]|H]; [tauto | right; exists c; tauto |].
  destruct (IH H) as [H'|[c' [H1 H2]]]; [tauto | right; exists c'; tauto].
Qed.

Lemma parentIn_some i n : In i (idsL (childNodes n)) -> parentIn i n <> None.
Proof.
  induction n as [j nm a cs IH | j d | j d] using node_induction; simpl; intros H;
    [|destruct H|destruct H].
  destruct (existsb _ cs) eqn:E; [discriminate|].
  destruct (below_cases _ _ H) as [Ht|[c [Hc Hi]]].
  - apply existsb_nid in Ht. congruence.
  - rewrite Forall_forall in IH. apply (firstSome_some _ _ c Hc). now apply IH.
Qed.

Lemma parentNode_none_head i b rest :
  parentNode i (b :: rest) = None -> ~ In i (idsL (childNodes b)).
Proof.
  unfold parentNode. simpl. intros H Hin.
  apply (parentIn_some i b) in Hin. destruct (parentIn i b); congruence.
Qed.

Lemma parentNode_single i x :
  ~ In i (idsL (childNodes x)) -> parentNode i [x] = None.
Proof. intros H. unfold parentNode. simpl. now rewrite parentIn_none. Qed.

Lemma located F i p :
  NoDup (idsL F) -> parentNode i F = Some p ->
  exists z x, F = plug z [x] /\ nid x = i /\ holeParent z = Some p
              /\ NoDup (ctxIds z ++ ids x).
Proof.
  intros Hnd Hp.
  assert (Hin : In i (idsL F)).
  { destruct (inb i (idsL F)) eqn:E; [now apply inb_In|].
    apply inb_false in E. rewrite parentNode_none in Hp by exact E. discriminate. }
  destruct (locate F i Hin) as [z [x [-> Hx]]].
  assert (Hnd' : NoDup (ctxIds z ++ ids x)).
  { apply (Permutation_NoDup (idsL_plug z [x])) in Hnd.
    now rewrite idsL_cons, idsL_nil, app_nil_r in Hnd. }
  exists z, x. repeat split; auto.
  destruct (NoDup_app_inv _ _ Hnd') as [_ [Hx' Hd]].
  rewrite ids_childNodes in Hx'. apply NoDup_cons_iff in Hx'.
  rewrite parentNode_plug in Hp; auto.
  - intros Hc. apply (Hd _ Hc). rewrite <- Hx. apply nid_in_ids.
  - simpl. now left.
  - apply parentNode_single. rewrite <- Hx. tauto.
Qed.

Lemma dropAt_self i x : nid x = i -> dropAt i x = [].
Proof. intros <-. unfold dropAt. now rewrite Nat.eqb_refl. Qed.

Lemma dropAt_other i x : nid x <> i -> dropAt i x = [x].
Proof. intros H. unfold dropAt. apply Nat.eqb_neq in H. now rewrite H. Qed.

Lemma at_place z x :
  NoDup (ctxIds z ++ ids x) ->
  ~ In (nid x) (ctxIds z) /\ ~ In (nid x) (idsL (childNodes x)) /\
  (forall i, In i (idsL (childNodes x)) -> ~ In i (ctxIds z)).
Proof.
  intros H. destruct (NoDup_app_inv _ _ H) as [_ [Hx Hd]].
  rewrite ids_childNodes in Hx, Hd. apply NoDup_cons_iff in Hx.
  repeat split; try tauto.
  - intros Hc. apply (Hd _ Hc). now left.
  - intros i Hi Hc. apply (Hd _ Hc). now right.
Qed.

Lemma editL_dropAt_at z x :
  NoDup (ctxIds z ++ ids x) ->
  editL (dropAt (nid x)) (plug z [x]) = plug z [].
Proof.
  intros H. destruct (at_place z x H) as [Hz [Hc Hd]].
  rewrite (editL_plug _ [nid x]); [|apply keyed_dropAt|].
  - f_equal. rewrite editL_cons. rewrite dropAt_self; [reflexivity | apply nid_edit].
  - intros i Hi [<-|[]]. tauto.
Qed.

Lemma removeChild_at z x p :
  holeParent z = Some p -> NoDup (ctxIds z ++ ids x) ->
  removeChild p (nid x) (plug z [x]) = (Normal tt, plug z [] ++ [x]).
Proof.
  intros Hp H. destruct (at_place z x H) as [Hz [Hc Hd]].
  unfold removeChild. rewrite parentNode_plug, Hp, getNodeL_at, Nat.eqb_refl; auto.
  - now rewrite editL_dropAt_at.
  - simpl. now left.
  - now apply parentNode_single.
Qed.

Lemma insertBefore_at z p i nm a c cs :
  holeParent z = Some p ->
  NoDup (ctxIds z ++ ids (Element i nm a (c :: cs))) ->
  insertBefore p (nid c) i (plug z [Element i nm a (c :: cs)]) =
  (Normal tt, plug z [c; Element i nm a cs]).
Proof.
  intros Hp H. destruct (at_place z _ H) as [Hz [Hc Hd]]. cbn [nid childNodes] in *.
  destruct (NoDup_app_inv _ _ H) as [_ [Hx _]].
  rewrite ids_Element, idsL_cons in Hx. apply NoDup_cons_iff in Hx. destruct Hx as [_ Hx].
  destruct (NoDup_app_inv _ _ Hx) as [Hcn [_ Hcd]].
  rewrite idsL_cons, in_app_iff in Hc.
  assert (Hci : nid c <> i) by (intros E; apply Hc; left; rewrite <- E; apply nid_in_ids).
  unfold insertBefore.
  rewrite getNodeL_plug.
  2:{ apply Hd. rewrite idsL_cons, in_app_iff. left. apply nid_in_ids. }
  unfold getNodeL at 1. cbn [firstSome getNode nid].
  apply Nat.eqb_neq in Hci as Hci'. rewrite Nat.eqb_sym in Hci'. rewrite Hci'.
  rewrite getNode_self.
  assert (Hpc : existsb (Nat.eqb p) (ids c) = false).
  { apply inb_false. intros Hin. apply (Hd p).
    - rewrite idsL_cons, in_app_iff. now left.
    - now apply holeParent_in. }
  rewrite Hpc, (parentNode_plug i z [Element i nm a (c :: cs)]), Hp, Nat.eqb_refl; auto.
  2:{ simpl. now left. }
  2:{ apply parentNode_single. cbn [childNodes].
      rewrite idsL_cons, in_app_iff. exact Hc. }
  cbn [negb]. rewrite Nat.eqb_sym in Hci'. rewrite Hci'. f_equal.
  rewrite (editL_plug _ [nid c]); [|apply keyed_dropAt|].
  2:{ intros j Hj [<-|[]]. revert Hj. apply Hd.
      rewrite idsL_cons, in_app_iff. left. apply nid_in_ids. }
  rewrite editL_cons, edit_Element, editL_cons.
  rewrite (dropAt_self (nid c) (edit (dropAt (nid c)) c)) by apply nid_edit.
  rewrite (editL_keyed_id _ [nid c] cs); [|apply keyed_dropAt|].
  2:{ intros j Hj [<-|[]]. apply (Hcd (nid c)); [apply nid_in_ids | exact Hj]. }
  rewrite dropAt_other by exact (not_eq_sym Hci).
  cbn [app editL flat_map].
  rewrite (editL_plug _ [i]); [|apply keyed_insertAt|].
  2:{ intros j Hj [<-|[]]. tauto. }
  rewrite editL_cons, edit_Element.
  rewrite (editL_keyed_id _ [i] cs); [|apply keyed_insertAt|].
  2:{ intros j Hj [<-|[]]. tauto. }
  unfold insertAt at 1. cbn [nid]. now rewrite Nat.eqb_refl.
Qed.

Lemma firstChild_at z i nm a cs :
  ~ In i (ctxIds z) ->
  firstChild i (plug z [Element i nm a cs]) =
  match cs with c :: _ => Some (nid c) | [] => None end.
Proof.
  intros Hz. unfold firstChild.
  pose proof (getNodeL_at z (Element i nm a cs) Hz) as Hg. cbn [nid] in Hg.
  now rewrite Hg.
Qed.

Lemma moveChildren_at p i nm a cs :
  forall z fuel,
    length cs < fuel ->
    holeParent z = Some p ->
    NoDup (ctxIds z ++ ids (Element i nm a cs)) ->
    moveChildren fuel (Some p) i (plug z [Element i nm a cs]) =
    (Normal tt, plug z (cs ++ [Element i nm a []])).
Proof.
  induction cs as [|c cs IH]; intros z fuel Hfuel Hp Hnd;
    (destruct fuel as [|fuel]; [inversion Hfuel|]);
    destruct (at_place z _ Hnd) as [Hz _]; cbn [nid] in Hz;
    cbn [moveChildren]; unfold bind, read; rewrite firstChild_at by exact Hz.
  - reflexivity.
  - cbn [onObject]. rewrite insertBefore_at by assumption.
    change (plug z [c; Element i nm a cs]) with (plug (Sib [c] [] :: z) [Element i nm a cs]).
    rewrite IH.
    + rewrite plug_cons. cbn [fill]. now rewrite app_nil_r.
    + simpl in Hfuel. lia.
    + exact Hp.
    + rewrite ctxIds_cons. cbn [frameIds]. rewrite idsL_nil, app_nil_r.
      rewrite !ids_Element, !idsL_cons, idsL_nil, app_nil_r in *. nodup_from Hnd.
Qed.

Lemma length_idsL l : length l <= length (idsL l).
Proof.
  induction l as [|c l IH]; [reflexivity|].
  rewrite idsL_cons, length_app, ids_childNodes. simpl. lia.
Qed.

Lemma unwrap_at z x p :
  holeParent z = Some p -> NoDup (ctxIds z ++ ids x) ->
  unwrap (nid x) (plug z [x]) = (Normal tt, plug z (childNodes x) ++ [emptied x]).
Proof.
  intros Hp Hnd. destruct (at_place z x Hnd) as [Hz [Hc Hd]].
  unfold unwrap, bind, read, tryCatch.
  rewrite parentNode_plug, Hp; auto; [|now left|now apply parentNode_single].
  destruct x as [i nm a cs | i d | i d]; cbn [nid childNodes emptied] in *.
  - rewrite moveChildren_at; auto.
    + cbn [onObject].
      change (plug z (cs ++ [Element i nm a []]))
        with (plug (Sib cs [] :: z) [Element i nm a []]).
      pose proof (removeChild_at (Sib cs [] :: z) (Element i nm a []) p) as Hr.
      cbn [nid] in Hr. rewrite Hr; [|exact Hp|].
      * rewrite plug_cons. cbn [fill]. now rewrite !app_nil_r.
      * rewrite ctxIds_cons. cbn [frameIds]. rewrite idsL_nil, app_nil_r.
        rewrite !ids_Element, idsL_nil in *. nodup_from Hnd.
    + pose proof (Permutation_length (idsL_plug z [Element i nm a cs])) as Hl.
      rewrite Hl, length_app, idsL_cons, ids_Element. simpl.
      rewrite length_app. pose proof (length_idsL cs). lia.
  - cbn [moveChildren]. unfold bind, read, firstChild.
    pose proof (getNodeL_at z (Text i d) Hz) as Hg. cbn [nid] in Hg. rewrite Hg.
    cbn [childNodes ret onObject].
    pose proof (removeChild_at z (Text i d) p Hp Hnd) as Hr. cbn [nid] in Hr.
    now rewrite Hr.
  - cbn [moveChildren]. unfold bind, read, firstChild.
    pose proof (getNodeL_at z (Comment i d) Hz) as Hg. cbn [nid] in Hg. rewrite Hg.
    cbn [childNodes ret onObject].
    pose proof (removeChild_at z (Comment i d) p Hp Hnd) as Hr. cbn [nid] in Hr.
    now rewrite Hr.
Qed.

Lemma edit_ext f g n : (forall x, f x = g x) -> edit f n = edit g n.
Proof.
  intros H. induction n as [j nm a cs IH | j d | j d] using node_induction;
    [|reflexivity|reflexivity].
  simpl. f_equal. induction IH as [|c cs Hc Hcs IHcs]; [reflexivity|].
  simpl. now rewrite Hc, H, IHcs.
Qed.

Lemma dropAt_dropIn i x : dropAt i x = dropIn [i] x.
Proof. unfold dropAt, dropIn, inb. simpl. now rewrite orb_false_r. Qed.

Lemma spliceIn_self i x : nid x = i -> spliceIn [i] x = childNodes x.
Proof. intros <-. unfold spliceIn, inb. simpl. now rewrite Nat.eqb_refl. Qed.

Lemma editL_spliceIn_at z x :
  NoDup (ctxIds z ++ ids x) ->
  editL (spliceIn [nid x]) (plug z [x]) = plug z (childNodes x).
Proof.
  intros H. destruct (at_place z x H) as [Hz [Hc Hd]].
  rewrite (editL_plug _ [nid x]); [|apply keyed_spliceIn|].
  - f_equal. rewrite editL_cons. rewrite spliceIn_self by apply nid_edit.
    cbn [editL flat_map]. rewrite app_nil_r, childNodes_edit.
    apply (editL_keyed_id _ [nid x]); [apply keyed_spliceIn|].
    intros i Hi [<-|[]]. tauto.
  - intros i Hi [<-|[]]. tauto.
Qed.

Lemma head_of_plug z l p b rest i :
  holeParent z = Some p -> ~ In i (ctxIds z) -> b :: rest = plug z l -> nid b <> i.
Proof.
  intros Hp Hz E Hb. apply Hz. rewrite <- Hb.
  apply (plug_roots_wrapped z l p b Hp). rewrite <- E. now left.
Qed.

(** A queued elimination: it never throws past its [catch], and the
    tree of [body] loses the node, if it has it. *)
Lemma eliminate_spec i b rest :
  NoDup (idsL (b :: rest)) ->
  exists rest',
    eliminate i (b :: rest) = (Normal tt, edit (dropIn [i]) b :: rest') /\
    Permutation (idsL (edit (dropIn [i]) b :: rest')) (idsL (b :: rest)).
Proof.
  intros Hnd. unfold eliminate, tryCatch, bind, read.
  destruct (parentNode i (b :: rest)) as [p|] eqn:Hp.
  - destruct (located _ _ _ Hnd Hp) as [z [x [E [<- [Hh Hx]]]]].
    destruct (at_place z x Hx) as [Hz _].
    cbn [onObject]. rewrite E, (removeChild_at z x p Hh Hx).
    exists (editL (dropAt (nid x)) rest ++ [x]). split.
    + f_equal. rewrite <- (editL_dropAt_at z x Hx), <- E, editL_cons.
      rewrite dropAt_other.
      * simpl. f_equal. apply edit_ext, dropAt_dropIn.
      * rewrite nid_edit. eapply head_of_plug; eauto.
    + rewrite <- (edit_ext _ _ b (dropAt_dropIn (nid x))).
      assert (Hb : nid (edit (dropAt (nid x)) b) <> nid x).
      { rewrite nid_edit. eapply head_of_plug; eauto. }
      change (edit (dropAt (nid x)) b :: editL (dropAt (nid x)) rest ++ [x])
        with ([edit (dropAt (nid x)) b] ++ editL (dropAt (nid x)) rest ++ [x]).
      rewrite <- (dropAt_other (nid x) _ Hb), app_assoc, <- editL_cons, E.
      rewrite editL_dropAt_at by exact Hx.
      rewrite idsL_app, !idsL_plug, idsL_nil, idsL_cons, idsL_nil. perm.
  - cbn [onObject throw]. exists rest.
    rewrite (edit_keyed_id _ [i] b); [split; reflexivity | apply keyed_dropIn |].
    intros j Hj [<-|[]]. now apply (parentNode_none_head _ _ _ Hp).
Qed.

(** A queued unwrapping: the same, the children of the node taking its
    place in the tree of [body]. *)
Lemma unwrap_spec i b rest :
  NoDup (idsL (b :: rest)) ->
  exists rest',
    unwrap i (b :: rest) = (Normal tt, edit (spliceIn [i]) b :: rest') /\
    Permutation (idsL (edit (spliceIn [i]) b :: rest')) (idsL (b :: rest)).
Proof.
  intros Hnd.
  destruct (parentNode i (b :: rest)) as [p|] eqn:Hp.
  - destruct (located _ _ _ Hnd Hp) as [z [x [E [<- [Hh Hx]]]]].
    destruct (at_place z x Hx) as [Hz _].
    rewrite E, (unwrap_at z x p Hh Hx).
    assert (Hb : nid (edit (spliceIn [nid x]) b) <> nid x).
    { rewrite nid_edit. eapply head_of_plug; eauto. }
    assert (Hk : spliceIn [nid x] (edit (spliceIn [nid x]) b) = [edit (spliceIn [nid x]) b]).
    { apply keyed_spliceIn. intros [H|[]]. congruence. }
    exists (editL (spliceIn [nid x]) rest ++ [emptied x]). split.
    + f_equal. rewrite <- (editL_spliceIn_at z x Hx), <- E, editL_cons, Hk. reflexivity.
    + change (edit (spliceIn [nid x]) b :: editL (spliceIn [nid x]) rest ++ [emptied x])
        with ([edit (spliceIn [nid x]) b] ++ editL (spliceIn [nid x]) rest ++ [emptied x]).
      rewrite <- Hk, app_assoc, <- editL_cons, E.
      rewrite editL_spliceIn_at by exact Hx.
      rewrite idsL_app, !idsL_plug, !idsL_cons, !idsL_nil.
      rewrite (ids_childNodes x), (ids_childNodes (emptied x)).
      replace (nid (emptied x)) with (nid x) by (now destruct x).
      replace (childNodes (emptied x)) with (@nil node) by (now destruct x).
      rewrite idsL_nil. perm.
  - exists rest.
    rewrite (edit_keyed_id _ [i] b); [|apply keyed_spliceIn|].
    2:{ intros j Hj [<-|[]]. now apply (parentNode_none_head _ _ _ Hp). }
    split; [|reflexivity].
    unfold unwrap, bind, read, tryCatch. rewrite Hp.
    cbn [moveChildren]. unfold bind, read.
    destruct (firstChild i (b :: rest)); reflexivity.
Qed.

(** ** The two queues *)

Lemma inb_app i l1 l2 : inb i (l1 ++ l2) = inb i l1 || inb i l2.
Proof. apply existsb_app. Qed.

Lemma editL_flat_map {A : Type} f (h : A -> list node) (l : list A) :
  editL f (flat_map h l) = flat_map (fun c => editL f (h c)) l.
Proof.
  induction l as [|c l IH]; [reflexivity|].
  simpl. now rewrite editL_app, IH.
Qed.

Lemma flat_map_ext_in {A B : Type} (f g : A -> list B) (l : list A) :
  (forall x, In x l -> f x = g x) -> flat_map f l = flat_map g l.
Proof.
  induction l as [|c l IH]; intros H; [reflexivity|].
  simpl. rewrite (H c), IH; auto; [intros; apply H|]; now constructor.
Qed.

Lemma edit_dropIn_compose l1 l2 n :
  edit (dropIn l2) (edit (dropIn l1) n) = edit (dropIn (l1 ++ l2)) n.
Proof.
  induction n as [j nm a cs IH | j d | j d] using node_induction;
    [|reflexivity|reflexivity].
  rewrite !edit_Element. f_equal. unfold editL at 2. rewrite editL_flat_map.
  apply flat_map_ext_in. intros c Hc. rewrite Forall_forall in IH.
  unfold dropIn at 2 4. rewrite !nid_edit, inb_app.
  destruct (inb (nid c) l1); [reflexivity|].
  rewrite editL_cons. cbn [editL flat_map]. rewrite app_nil_r, (IH c Hc).
  unfold dropIn at 1. now rewrite nid_edit.
Qed.

Lemma edit_spliceIn_compose l1 l2 n :
  edit (spliceIn l2) (edit (spliceIn l1) n) = edit (spliceIn (l1 ++ l2)) n.
Proof.
  induction n as [j nm a cs IH | j d | j d] using node_induction;
    [|reflexivity|reflexivity].
  rewrite !edit_Element. f_equal. unfold editL at 2. rewrite editL_flat_map.
  apply flat_map_ext_in. intros c Hc. rewrite Forall_forall in IH.
  unfold spliceIn at 2 4. rewrite !nid_edit, inb_app.
  destruct (inb (nid c) l1); cbn [orb].
  - now rewrite <- !childNodes_edit, (IH c Hc).
  - rewrite editL_cons. cbn [editL flat_map]. rewrite app_nil_r, (IH c Hc).
    unfold spliceIn at 1. now rewrite nid_edit.
Qed.

Lemma edit_dropIn_nil n : edit (dropIn []) n = n.
Proof. apply (edit_keyed_id _ []); [apply keyed_dropIn | auto]. Qed.

Lemma edit_spliceIn_nil n : edit (spliceIn []) n = n.
Proof. apply (edit_keyed_id _ []); [apply keyed_spliceIn | auto]. Qed.

Lemma forEach_eliminate l :
  forall b rest,
    NoDup (idsL (b :: rest)) ->
    exists rest',
      forEach l eliminate (b :: rest) = (Normal tt, edit (dropIn l) b :: rest') /\
      NoDup (idsL (edit (dropIn l) b :: rest')).
Proof.
  induction l as [|i l IH]; intros b rest Hnd.
  - exists rest. rewrite edit_dropIn_nil. now split.
  - destruct (eliminate_spec i b rest Hnd) as [rest1 [E1 P1]].
    destruct (IH (edit (dropIn [i]) b) rest1) as [rest2 [E2 N2]].
    { eapply Permutation_NoDup; [symmetry; exact P1 | exact Hnd]. }
    exists rest2. rewrite edit_dropIn_compose in E2, N2. split; [|exact N2].
    cbn [forEach]. unfold bind. now rewrite E1.
Qed.

Lemma forEach_unwrap l :
  forall b rest,
    NoDup (idsL (b :: rest)) ->
    exists rest',
      forEach l unwrap (b :: rest) = (Normal tt, edit (spliceIn l) b :: rest') /\
      NoDup (idsL (edit (spliceIn l) b :: rest')).
Proof.
  induction l as [|i l IH]; intros b rest Hnd.
  - exists rest. rewrite edit_spliceIn_nil. now split.
  - destruct (unwrap_spec i b rest Hnd) as [rest1 [E1 P1]].
    destruct (IH (edit (spliceIn [i]) b) rest1) as [rest2 [E2 N2]].
    { eapply Permutation_NoDup; [symmetry; exact P1 | exact Hnd]. }
    exists rest2. rewrite edit_spliceIn_compose in E2, N2. split; [|exact N2].
    cbn [forEach]. unfold bind. now rewrite E1.
Qed.

(** ** The result *)

Lemma member_filter (p : node -> bool) N x :
  NoDup (map nid N) -> In x N -> inb (nid x) (map nid (filter p N)) = p x.
Proof.
  induction N as [|h N IH]; intros Hnd Hx; [destruct Hx|].
  simpl in Hnd. apply NoDup_cons_iff in Hnd. destruct Hnd as [Hh Hnd].
  assert (Hsub : forall y, In y (map nid (filter p N)) -> In y (map nid N)).
  { intros y Hy. apply in_map_iff in Hy. destruct Hy as [w [<- Hw]].
    apply filter_In in Hw. apply in_map. tauto. }
  destruct Hx as [->|Hx].
  - simpl. destruct (p x) eqn:E.
    + unfold inb. simpl. now rewrite Nat.eqb_refl.
    + apply inb_false. intros Hin. apply Hh. now apply Hsub.
  - assert (Hne : Nat.eqb (nid x) (nid h) = false).
    { apply Nat.eqb_neq. intros E. apply Hh. rewrite <- E. now apply in_map. }
    simpl. destruct (p h).
    + unfold inb. simpl. rewrite Hne. now apply IH.
    + now apply IH.
Qed.

Lemma result_of_removals N :
  NoDup (map nid N) ->
  forall t,
    (forall x, In x (subtrees t) -> In x N) ->
    editL (spliceIn (unwrapIds N)) (editL (dropIn (forbiddenIds N)) [walked t]) =
    expected t.
Proof.
  intros Hnd.
  induction t as [i nm a cs IH | i d | i d] using node_induction; intros Hin.
  - assert (Hc : editL (spliceIn (unwrapIds N)) (editL (dropIn (forbiddenIds N)) (map walked cs))
                 = flat_map expected cs).
    { assert (Hin' : forall x, In x (subtreesL cs) -> In x N).
      { intros x Hx. apply Hin. now right. }
      clear Hin. induction IH as [|c cs Hc Hcs IHcs]; [reflexivity|].
      cbn [map flat_map].
      change (walked c :: map walked cs) with ([walked c] ++ map walked cs).
      rewrite !editL_app, Hc, IHcs; [reflexivity| |].
      - intros x Hx. apply Hin'. unfold subtreesL. simpl. apply in_or_app. now right.
      - intros x Hx. apply Hin'. unfold subtreesL. simpl. apply in_or_app. now left. }
    assert (Hn : In (Element i nm a cs) N) by (apply Hin; now left).
    pose proof (member_filter isForbidden N _ Hnd Hn) as Hf.
    pose proof (member_filter isUnwrapped N _ Hnd Hn) as Hu.
    fold (forbiddenIds N) in Hf. fold (unwrapIds N) in Hu. cbn [nid] in Hf, Hu.
    rewrite editL_cons. cbn [walked expected]. rewrite edit_Element.
    unfold dropIn at 1. cbn [nid]. rewrite Hf.
    destruct (classify_cases (Element i nm a cs))
      as [[Hk [Hf' Hu']]|[[Hk [Hf' [Ha Hu']]]|[Hk [Hf' [Ha Hu']]]]];
      rewrite Hk, Hf'; [reflexivity| |].
    + cbn [editL flat_map app]. rewrite app_nil_r, edit_Element.
      unfold spliceIn at 1. cbn [nid childNodes]. rewrite Hu, Hu'. exact Hc.
    + cbn [editL flat_map app]. rewrite app_nil_r, edit_Element.
      unfold spliceIn at 1. cbn [nid childNodes]. rewrite Hu, Hu'. now rewrite Hc.
  - assert (Hn : In (Text i d) N) by (apply Hin; now left).
    pose proof (member_filter isForbidden N _ Hnd Hn) as Hf.
    pose proof (member_filter isUnwrapped N _ Hnd Hn) as Hu.
    fold (forbiddenIds N) in Hf. fold (unwrapIds N) in Hu. cbn [nid] in Hf, Hu.
    rewrite editL_cons. cbn [walked edit]. unfold dropIn at 1. cbn [nid]. rewrite Hf.
    change (isForbidden (Text i d)) with false.
    cbn [editL flat_map app edit]. unfold spliceIn at 1. cbn [nid]. rewrite Hu.
    reflexivity.
  - assert (Hn : In (Comment i d) N) by (apply Hin; now left).
    pose proof (member_filter isForbidden N _ Hnd Hn) as Hf.
    pose proof (member_filter isUnwrapped N _ Hnd Hn) as Hu.
    fold (forbiddenIds N) in Hf. fold (unwrapIds N) in Hu. cbn [nid] in Hf, Hu.
    rewrite editL_cons. cbn [walked edit]. unfold dropIn at 1. cbn [nid]. rewrite Hf.
    change (isForbidden (Comment i d)) with false.
    cbn [editL flat_map app edit]. unfold spliceIn at 1. cbn [nid]. rewrite Hu.
    reflexivity.
Qed.

Lemma result_of_removals_list cs :
  NoDup (idsL cs) ->
  editL (spliceIn (unwrapIds (subtreesL cs)))
        (editL (dropIn (forbiddenIds (subtreesL cs))) (map walked cs)) =
  expectedL cs.
Proof.
  intros Hnd.
  enough (H : forall l, (forall x, In x (subtreesL l) -> In x (subtreesL cs)) ->
                        editL (spliceIn (unwrapIds (subtreesL cs)))
                              (editL (dropIn (forbiddenIds (subtreesL cs))) (map walked l))
                        = expectedL l) by (apply H; auto).
  induction l as [|c l IH]; intros Hin; [reflexivity|].
  cbn [map]. change (walked c :: map walked l) with ([walked c] ++ map walked l).
  rewrite !editL_app, IH, result_of_removals; [reflexivity|exact Hnd| |].
  - intros x Hx. apply Hin. unfold subtreesL. simpl. apply in_or_app. now left.
  - intros x Hx. apply Hin. unfold subtreesL. simpl. apply in_or_app. now right.
Qed.

(** The sanitizer returns, and what it returns is the tree the removal
    directives describe. *)
Lemma sanitizeHtml_expected body :
  NoDup (ids body) ->
  sanitizeHtml body = Normal (expectedL (childNodes body)).
Proof.
  intros Hnd. unfold sanitizeHtml. rewrite (walk_spec body Hnd).
  cbn [doc removeList forbiddenList].
  assert (Hw : NoDup (idsL [walkedBody body])).
  { rewrite idsL_cons, idsL_nil, app_nil_r.
    destruct body as [i nm a cs | |]; [|exact Hnd|exact Hnd].
    cbn [walkedBody]. rewrite ids_Element in *. now rewrite idsL_walked. }
  destruct (forEach_eliminate (forbiddenIds (subtreesL (childNodes body))) _ _ Hw)
    as [rest1 [E1 N1]].
  destruct (forEach_unwrap (unwrapIds (subtreesL (childNodes body))) _ _ N1)
    as [rest2 [E2 N2]].
  unfold bind. rewrite E1, E2. unfold bodyChildren.
  set (b2 := edit _ (edit _ _)).
  replace (nid body) with (nid b2)
    by (unfold b2; rewrite !nid_edit; now destruct body).
  rewrite getNodeL_head. cbn [fst]. f_equal.
  unfold b2. rewrite !childNodes_edit.
  destruct body as [i nm a cs | |]; [|reflexivity|reflexivity].
  cbn [walkedBody childNodes]. apply result_of_removals_list.
  rewrite ids_Element in Hnd. now apply NoDup_cons_iff in Hnd.
Qed.

(** ** What the result holds *)

Lemma expectedL_app l1 l2 : expectedL (l1 ++ l2) = expectedL l1 ++ expectedL l2.
Proof. apply flat_map_app. Qed.

Lemma expectedL_cons c l : expectedL (c :: l) = expected c ++ expectedL l.
Proof. reflexivity. Qed.

Lemma expected_Element i nm a cs :
  expected (Element i nm a cs) =
  match classify (Element i nm a cs) with
  | Eliminate => []
  | Unwrap => expectedL cs
  | Keep => [Element i nm (keptAttributes nm a) (expectedL cs)]
  end.
Proof. reflexivity. Qed.

Lemma subtrees_trans m x t : In m (subtrees x) -> In x (subtrees t) -> In m (subtrees t).
Proof.
  induction t as [i nm a cs IH | i d | i d] using node_induction; intros Hm Hx.
  - destruct Hx as [<-|Hx]; [exact Hm|]. right.
    cbn [subtrees] in *. rewrite in_flat_map in *.
    destruct Hx as [c [Hc Hx]]. exists c. split; [exact Hc|].
    rewrite Forall_forall in IH. now apply IH.
  - destruct Hx as [<-|[]]. exact Hm.
  - destruct Hx as [<-|[]]. exact Hm.
Qed.

Lemma in_subtrees_ids m t : In m (subtrees t) -> In (nid m) (ids t).
Proof. apply in_map. Qed.

Lemma in_subtreesL_idsL m l : In m (subtreesL l) -> In (nid m) (idsL l).
Proof. apply in_map. Qed.

Lemma ids_expected_list cs :
  Forall (fun t => forall i, In i (idsL (expected t)) -> In i (ids t)) cs ->
  forall i, In i (idsL (expectedL cs)) -> In i (idsL cs).
Proof.
  induction 1 as [|c cs Hc Hcs IH]; intros i Hi; [destruct Hi|].
  rewrite expectedL_cons, idsL_app, in_app_iff in Hi.
  rewrite idsL_cons, in_app_iff. destruct Hi; [left|right]; auto.
Qed.

(** The result holds no node the document did not hold. *)
Lemma ids_expected t i : In i (idsL (expected t)) -> In i (ids t).
Proof.
  revert i. induction t as [j nm a cs IH | j d | j d] using node_induction; intros i Hi.
  - rewrite expected_Element in Hi. rewrite ids_Element.
    destruct (classify _).
    + rewrite idsL_cons, ids_Element, idsL_nil, app_nil_r in Hi.
      destruct Hi as [Hi|Hi]; [now left | right; now apply ids_expected_list].
    + right. now apply ids_expected_list.
    + destruct Hi.
  - cbn [expected] in Hi. rewrite classify_Text in Hi. exact Hi.
  - cbn [expected] in Hi. rewrite classify_Comment in Hi. destruct Hi.
Qed.

Lemma ids_expectedL l i : In i (idsL (expectedL l)) -> In i (idsL l).
Proof.
  apply ids_expected_list. apply Forall_forall. intros t _. apply ids_expected.
Qed.

Lemma NoDup_expected_list cs :
  Forall (fun t => NoDup (ids t) -> NoDup (idsL (expected t))) cs ->
  NoDup (idsL cs) -> NoDup (idsL (expectedL cs)).
Proof.
  induction 1 as [|c cs Hc Hcs IH]; intros Hnd; [constructor|].
  rewrite idsL_cons in Hnd. destruct (NoDup_app_inv _ _ Hnd) as [H1 [H2 H3]].
  rewrite expectedL_cons, idsL_app. apply NoDup_app; auto.
  intros i Hi Hj. apply (H3 i); [now apply ids_expected | now apply ids_expectedL].
Qed.

Lemma NoDup_expected t : NoDup (ids t) -> NoDup (idsL (expected t)).
Proof.
  induction t as [j nm a cs IH | j d | j d] using node_induction; intros Hnd.
  - rewrite expected_Element. rewrite ids_Element in Hnd.
    apply NoDup_cons_iff in Hnd. destruct Hnd as [Hj Hnd].
    pose proof (NoDup_expected_list cs IH Hnd) as Hcs.
    destruct (classify _); [|exact Hcs|constructor].
    rewrite idsL_cons, ids_Element, idsL_nil, app_nil_r. constructor; [|exact Hcs].
    intros Hin. apply Hj. now apply ids_expectedL.
  - cbn [expected]. rewrite classify_Text. exact Hnd.
  - cbn [expected]. rewrite classify_Comment. constructor.
Qed.

Lemma NoDup_expectedL l : NoDup (idsL l) -> NoDup (idsL (expectedL l)).
Proof.
  apply NoDup_expected_list. apply Forall_forall. intros t _. apply NoDup_expected.
Qed.

Lemma forbidden_absent_list cs :
  Forall (fun t => NoDup (ids t) ->
                   forall x m, In x (subtrees t) -> isForbidden x = true ->
                               In m (subtrees x) -> ~ In (nid m) (idsL (expected t))) cs ->
  NoDup (idsL cs) ->
  forall x m, In x (subtreesL cs) -> isForbidden x = true -> In m (subtrees x) ->
              ~ In (nid m) (idsL (expectedL cs)).
Proof.
  induction 1 as [|c cs Hc Hcs IH]; intros Hnd x m Hx Hf Hm; [destruct Hx|].
  rewrite idsL_cons in Hnd. destruct (NoDup_app_inv _ _ Hnd) as [H1 [H2 H3]].
  rewrite expectedL_cons, idsL_app, in_app_iff.
  unfold subtreesL in Hx. cbn [flat_map] in Hx. apply in_app_or in Hx.
  destruct Hx as [Hx|Hx]; intros [Hi|Hi].
  - exact (Hc H1 x m Hx Hf Hm Hi).
  - apply (H3 (nid m)); [|now apply ids_expectedL].
    apply in_subtrees_ids. now apply (subtrees_trans m x c).
  - apply (H3 (nid m)); [now apply ids_expected|].
    apply in_subtreesL_idsL. unfold subtreesL in *. rewrite in_flat_map in *.
    destruct Hx as [c' [Hc' Hx]]. exists c'. split; [exact Hc'|].
    now apply (subtrees_trans m x c').
  - exact (IH H2 x m Hx Hf Hm Hi).
Qed.

Lemma forbidden_absent t :
  NoDup (ids t) ->
  forall x m, In x (subtrees t) -> isForbidden x = true -> In m (subtrees x) ->
              ~ In (nid m) (idsL (expected t)).
Proof.
  induction t as [j nm a cs IH | j d | j d] using node_induction;
    intros Hnd x m Hx Hf Hm.
  - rewrite expected_Element. destruct Hx as [<-|Hx].
    + unfold classify. rewrite Hf. intros [].
    + rewrite ids_Element in Hnd. apply NoDup_cons_iff in Hnd. destruct Hnd as [Hj Hnd].
      pose proof (forbidden_absent_list cs IH Hnd x m Hx Hf Hm) as Hcs.
      destruct (classify _); [|exact Hcs|intros []].
      rewrite idsL_cons, ids_Element, idsL_nil, app_nil_r. intros [Hi|Hi]; [|tauto].
      apply Hj. rewrite Hi. apply in_subtreesL_idsL.
      unfold subtreesL in *. rewrite in_flat_map in *.
      destruct Hx as [c' [Hc' Hx]]. exists c'. split; [exact Hc'|].
      now apply (subtrees_trans m x c').
  - destruct Hx as [<-|[]]. discriminate Hf.
  - destruct Hx as [<-|[]]. discriminate Hf.
Qed.

Lemma forbidden_absentL l :
  NoDup (idsL l) ->
  forall x m, In x (subtreesL l) -> isForbidden x = true -> In m (subtrees x) ->
              ~ In (nid m) (idsL (expectedL l)).
Proof.
  apply forbidden_absent_list. apply Forall_forall. intros t _. apply forbidden_absent.
Qed.

Lemma expectedL_plug z l l' :
  expectedL l = expectedL l' -> expectedL (plug z l) = expectedL (plug z l').
Proof.
  revert l l'. induction z as [|fr z IH]; intros l l' H; [exact H|].
  rewrite !plug_cons. apply IH. destruct fr as [pre post | j nm a]; cbn [fill].
  - now rewrite !expectedL_app, H.
  - rewrite !expectedL_cons, !expected_Element.
    change (classify (Element j nm a l')) with (classify (Element j nm a l)).
    now rewrite H.
Qed.

Lemma expected_unwrapped x : classify x = Unwrap -> expectedL [x] = expectedL (childNodes x).
Proof.
  intros H. rewrite expectedL_cons. cbn [expectedL flat_map]. rewrite app_nil_r.
  destruct x as [i nm a cs | i d | i d].
  - now rewrite expected_Element, H.
  - rewrite classify_Text in H. discriminate.
  - cbn [expected]. now rewrite H.
Qed.

Lemma NoDup_plug_children b nm a z x :
  NoDup (ids (Element b nm a (plug z [x]))) ->
  NoDup (ids (Element b nm a (plug z (childNodes x)))).
Proof.
  rewrite !ids_Element. intros H.
  assert (H' : NoDup (nid x :: b :: ctxIds z ++ idsL (childNodes x))).
  { eapply Permutation_NoDup; [|exact H].
    rewrite idsL_plug, idsL_cons, idsL_nil, app_nil_r, (ids_childNodes x). perm. }
  apply NoDup_cons_iff in H'. destruct H' as [_ H'].
  eapply Permutation_NoDup; [|exact H']. rewrite idsL_plug. perm.
Qed.

(** A node the walk queues for unwrapping, wherever it stands: the
    result is the one of the document that has the children of the node
    in its place. *)
Lemma unwrap_anywhere b nm a z x :
  classify x = Unwrap ->
  NoDup (ids (Element b nm a (plug z [x]))) ->
  sanitizeHtml (Element b nm a (plug z [x])) =
  sanitizeHtml (Element b nm a (plug z (childNodes x))) /\
  sanitizeHtml (Element b nm a (plug z [x])) =
  Normal (expectedL (plug z (childNodes x))).
Proof.
  intros Hu Hnd.
  rewrite !sanitizeHtml_expected; auto using NoDup_plug_children.
  cbn [childNodes]. rewrite (expectedL_plug z [x] (childNodes x)); auto.
  now apply expected_unwrapped.
Qed.

(** ** Attribute lists *)

Lemma getAttr_removeAttr_other n m l : n <> m -> getAttr n (removeAttr m l) = getAttr n l.
Proof.
  intros H. induction l as [|[k v] l IH]; [reflexivity|]. simpl.
  destruct (String.eqb_spec k m) as [->|Hk]; simpl.
  - destruct (String.eqb_spec m n) as [->|_]; [congruence | reflexivity].
  - now rewrite IH.
Qed.

Lemma getAttr_setAttr_same n v l : getAttr n (setAttr n v l) = Some v.
Proof.
  induction l as [|[k w] l IH]; simpl.
  - now rewrite String.eqb_refl.
  - destruct (String.eqb_spec k n) as [->|Hk]; simpl.
    + now rewrite String.eqb_refl.
    + apply String.eqb_neq in Hk. now rewrite Hk.
Qed.

Lemma getAttr_setAttr_other n m v l : n <> m -> getAttr n (setAttr m v l) = getAttr n l.
Proof.
  intros H. induction l as [|[k w] l IH]; simpl.
  - destruct (String.eqb_spec m n) as [->|_]; [congruence | reflexivity].
  - destruct (String.eqb_spec k m) as [->|Hk]; simpl.
    + destruct (String.eqb_spec m n) as [->|_]; [congruence | reflexivity].
    + now rewrite IH.
Qed.

Lemma getAttr_fold_remove n (ds : list attr) l :
  (forall d, In d ds -> fst d <> n) ->
  getAttr n (fold_left (fun l at_ => removeAttr (fst at_) l) ds l) = getAttr n l.
Proof.
  revert l. induction ds as [|d ds IH]; intros l H; [reflexivity|].
  simpl. rewrite IH by (intros d' Hd'; apply H; now right).
  apply getAttr_removeAttr_other. apply not_eq_sym, H. now left.
Qed.

(** An attribute whose name the filter never removes keeps its value. *)
Lemma getAttr_stripped_wanted tagName n a :
  (forall v, isUnwanted tagName (n, v) = false) ->
  getAttr n (strippedAttributes tagName a) = getAttr n a.
Proof.
  intros H. unfold strippedAttributes. apply getAttr_fold_remove.
  intros [k v] Hd Hk. apply filter_In in Hd. simpl in Hk. subst k.
  destruct Hd as [_ Hd]. rewrite H in Hd. discriminate.
Qed.

Lemma attrCount_cons k v n l :
  attrCount n ((k, v) :: l) = (if String.eqb k n then 1 else 0) + attrCount n l.
Proof. unfold attrCount. simpl. now destruct (String.eqb k n). Qed.

Lemma attrCount_removeAttr n m l :
  attrCount n (removeAttr m l) = attrCount n l - (if String.eqb m n then 1 else 0).
Proof.
  induction l as [|[k v] l IH]; simpl.
  - now destruct (String.eqb m n).
  - destruct (String.eqb_spec k m) as [->|Hk].
    + rewrite attrCount_cons. destruct (String.eqb m n); simpl; lia.
    + rewrite !attrCount_cons, IH.
      destruct (String.eqb_spec m n) as [->|Hm]; [|lia].
      apply String.eqb_neq in Hk. rewrite Hk. lia.
Qed.

Lemma attrCount_fold n (ds : list attr) l :
  attrCount n (fold_left (fun l at_ => removeAttr (fst at_) l) ds l) =
  attrCount n l - attrCount n ds.
Proof.
  revert l. induction ds as [|[k v] ds IH]; intros l; simpl.
  - unfold attrCount at 3. simpl. lia.
  - rewrite IH, attrCount_removeAttr, attrCount_cons. lia.
Qed.

Lemma attrCount_unwanted tagName n a :
  (forall v, isUnwanted tagName (n, v) = true) ->
  attrCount n (filter (isUnwanted tagName) a) = attrCount n a.
Proof.
  intros H. induction a as [|[k v] a IH]; [reflexivity|]. cbn [filter].
  destruct (isUnwanted tagName (k, v)) eqn:E.
  - now rewrite !attrCount_cons, IH.
  - rewrite attrCount_cons, IH.
    destruct (String.eqb_spec k n) as [->|_]; [|reflexivity].
    rewrite H in E. discriminate.
Qed.

Lemma getAttr_none_count n l : attrCount n l = 0 -> getAttr n l = None.
Proof.
  induction l as [|[k v] l IH]; [reflexivity|].
  rewrite attrCount_cons. simpl. destruct (String.eqb k n); [discriminate | exact IH].
Qed.

(** An attribute whose name the filter always removes is gone, however
    many of them the list had. *)
Lemma getAttr_stripped_unwanted tagName n a :
  (forall v, isUnwanted tagName (n, v) = true) ->
  getAttr n (strippedAttributes tagName a) = None.
Proof.
  intros H. apply getAttr_none_count. unfold strippedAttributes.
  rewrite attrCount_fold, attrCount_unwanted by exact H. lia.
Qed.

Lemma fold_remove_cons k v (ds : list attr) l :
  (forall d, In d ds -> fst d <> k) ->
  fold_left (fun l at_ => removeAttr (fst at_) l) ds ((k, v) :: l) =
  (k, v) :: fold_left (fun l at_ => removeAttr (fst at_) l) ds l.
Proof.
  revert l. induction ds as [|d ds IH]; intros l H; [reflexivity|].
  simpl. assert (Hd : String.eqb k (fst d) = false).
  { apply String.eqb_neq. apply not_eq_sym, H. now left. }
  rewrite Hd. apply IH. intros d' Hd'. apply H. now right.
Qed.

(** On an element with one attribute of a name, the removals leave the
    attributes the callback of [filter] did not pick, in their order. *)
Lemma strippedAttributes_filter tagName a :
  NoDup (map fst a) ->
  strippedAttributes tagName a = filter (fun at_ => negb (isUnwanted tagName at_)) a.
Proof.
  unfold strippedAttributes. induction a as [|[k v] a IH]; intros Hnd; [reflexivity|].
  simpl in Hnd. apply NoDup_cons_iff in Hnd. destruct Hnd as [Hk Hnd].
  cbn [filter]. destruct (isUnwanted tagName (k, v)); cbn [negb fold_left fst removeAttr].
  - rewrite String.eqb_refl. now apply IH.
  - rewrite fold_remove_cons, IH; auto.
    intros d Hd E. apply Hk. rewrite <- E. apply in_map.
    apply filter_In in Hd. tauto.
Qed.

(** ** One visit, seen from the node *)

Lemma located_node F i x :
  NoDup (idsL F) -> getNodeL i F = Some x ->
  exists z, F = plug z [x] /\ nid x = i /\ NoDup (ctxIds z ++ ids x).
Proof.
  intros Hnd Hg.
  assert (Hin : In i (idsL F)).
  { destruct (inb i (idsL F)) eqn:E; [now apply inb_In|].
    apply inb_false in E. rewrite getNodeL_none in Hg by exact E. discriminate. }
  destruct (locate F i Hin) as [z [x' [-> Hx]]].
  assert (Hnd' : NoDup (ctxIds z ++ ids x')).
  { apply (Permutation_NoDup (idsL_plug z [x'])) in Hnd.
    now rewrite idsL_cons, idsL_nil, app_nil_r in Hnd. }
  destruct (at_place z x' Hnd') as [Hz _].
  rewrite <- Hx, getNodeL_at in Hg by exact Hz. injection Hg as <-.
  exists z. auto.
Qed.

Lemma visit_found s i x :
  NoDup (idsL (doc s)) -> getNodeL i (doc s) = Some x ->
  visit s i =
  WalkState (map (updateAttributes i (fun _ => attributes (visited x))) (doc s))
            (removeList s ++ unwrapIds [x]) (forbiddenList s ++ forbiddenIds [x]).
Proof.
  destruct s as [F rl fl]. cbn [doc removeList forbiddenList]. intros Hnd Hg.
  destruct (located_node F i x Hnd Hg) as [z [-> [<- Hx]]].
  destruct (at_place z x Hx) as [Hz [Hc _]].
  rewrite visit_at by assumption. f_equal.
  destruct x as [j nm a cs | j d | j d]; cbn [nid childNodes] in *.
  - now rewrite updateAttributes_at.
  - rewrite updateAttributes_plug by exact Hz. reflexivity.
  - rewrite updateAttributes_plug by exact Hz. reflexivity.
Qed.

Lemma getAttribute_updated F i nm a cs a' name :
  NoDup (idsL F) -> getNodeL i F = Some (Element i nm a cs) ->
  getAttribute i name (map (updateAttributes i (fun _ => a')) F) = getAttr name a'.
Proof.
  intros Hnd Hg. destruct (located_node F i _ Hnd Hg) as [z [-> [_ Hx]]].
  destruct (at_place z _ Hx) as [Hz [Hc _]]. cbn [nid childNodes] in *.
  rewrite updateAttributes_at by assumption. unfold getAttribute.
  pose proof (getNodeL_at z (Element i nm a' cs) Hz) as Hg'. cbn [nid] in Hg'.
  now rewrite Hg'.
Qed.

Lemma stripAttributes_found F i nm a cs :
  NoDup (idsL F) -> getNodeL i F = Some (Element i nm a cs) ->
  stripAttributes i (toLowerCase nm) (Element i nm a cs) F =
  map (updateAttributes i (fun _ => strippedAttributes (toLowerCase nm) a)) F.
Proof.
  intros Hnd Hg. destruct (located_node F i _ Hnd Hg) as [z [-> [_ Hx]]].
  destruct (at_place z _ Hx) as [Hz [Hc _]]. cbn [nid childNodes] in *.
  rewrite stripAttributes_map, !updateAttributes_at by assumption. reflexivity.
Qed.

Lemma visit_kept s i nm a cs :
  NoDup (idsL (doc s)) -> getNodeL i (doc s) = Some (Element i nm a cs) ->
  classify (Element i nm a cs) = Keep ->
  visit s i =
  WalkState (map (updateAttributes i (fun _ => keptAttributes nm a)) (doc s))
            (removeList s) (forbiddenList s).
Proof.
  intros Hnd Hg Hk. rewrite (visit_found s i _ Hnd Hg).
  unfold unwrapIds, forbiddenIds. rewrite !filter_one.
  destruct (classify_cases (Element i nm a cs))
    as [[Hk' _]|[[Hk' _]|[_ [Hf [_ Hu]]]]]; try congruence.
  rewrite Hf, Hu. cbn [map visited attributes]. now rewrite Hk, !app_nil_r.
Qed.

Lemma visit_kept_attribute s i nm a cs name :
  NoDup (idsL (doc s)) -> getNodeL i (doc s) = Some (Element i nm a cs) ->
  classify (Element i nm a cs) = Keep ->
  getAttribute i name (doc (visit s i)) = getAttr name (keptAttributes nm a).
Proof.
  intros Hnd Hg Hk. rewrite (visit_kept s i nm a cs Hnd Hg Hk). cbn [doc].
  now apply (getAttribute_updated (doc s) i nm a cs).
Qed.

Lemma filter_step_attribute F i nm a cs name :
  NoDup (idsL F) -> getNodeL i F = Some (Element i nm a cs) ->
  getAttribute i name (stripAttributes i (toLowerCase nm) (Element i nm a cs) F) =
  getAttr name (strippedAttributes (toLowerCase nm) a).
Proof.
  intros Hnd Hg. rewrite stripAttributes_found by assumption.
  now apply (getAttribute_updated F i nm a cs).
Qed.

Lemma classify_anchor i nm a cs :
  toLowerCase nm = "a" -> classify (Element i nm a cs) = Keep.
Proof.
  intros H. unfold classify, isForbidden, isAllowedTag. cbn [nodeName]. now rewrite H.
Qed.

Lemma in_oneOf s l : In s l -> oneOf s l = true.
Proof.
  intros H. unfold oneOf. apply existsb_exists. exists s. split; [exact H|].
  apply String.eqb_refl.
Qed.

Lemma isAllowedAttr_target tagName : isAllowedAttr tagName "target" = false.
Proof.
  unfold isAllowedAttr.
  destruct (String.eqb tagName "a"), (String.eqb tagName "img"),
    (String.eqb tagName "input"); reflexivity.
Qed.

Lemma isUnwanted_target tagName value : isUnwanted tagName ("target", value) = true.
Proof. unfold isUnwanted. now rewrite isAllowedAttr_target. Qed.

Lemma forces_anchor l :
  forcesLinkAttributes "a" l =
  match getAttr "href" l with
  | Some href => negb (startsWith "mailto:" href)
  | None => false
  end.
Proof. reflexivity. Qed.

Lemma forces_not_anchor tagName l :
  tagName <> "a" -> forcesLinkAttributes tagName l = false.
Proof.
  intros H. unfold forcesLinkAttributes.
  destruct (String.eqb_spec "a" tagName) as [E|_]; [congruence | reflexivity].
Qed.

Lemma anchor_href_stripped a : getAttr "href" (strippedAttributes "a" a) = getAttr "href" a.
Proof. apply getAttr_stripped_wanted. reflexivity. Qed.

Lemma stripped_target tagName a : getAttr "target" (strippedAttributes tagName a) = None.
Proof. apply getAttr_stripped_unwanted. apply isUnwanted_target. Qed.

Lemma firstSome_option_map {A B C : Type} (f : A -> option B) (g : B -> C) (l : list A) :
  firstSome (fun x => option_map g (f x)) l = option_map g (firstSome f l).
Proof.
  induction l as [|x l IH]; [reflexivity|]. simpl.
  destruct (f x); [reflexivity | exact IH].
Qed.

Lemma getNode_updateAttributes i h j n :
  getNode j (updateAttributes i h n) = option_map (updateAttributes i h) (getNode j n).
Proof.
  induction n as [k nm a cs IH | k d | k d] using node_induction.
  - cbn [updateAttributes getNode nid]. destruct (Nat.eqb k j); [reflexivity|].
    rewrite firstSome_map, <- firstSome_option_map. apply firstSome_ext_in.
    rewrite Forall_forall in IH. exact IH.
  - cbn. now destruct (Nat.eqb k j).
  - cbn. now destruct (Nat.eqb k j).
Qed.

Lemma getNodeL_updateAttributes i h j F :
  getNodeL j (map (updateAttributes i h) F) =
  option_map (updateAttributes i h) (getNodeL j F).
Proof.
  unfold getNodeL. rewrite firstSome_map, <- firstSome_option_map.
  apply firstSome_ext_in. intros x _. apply getNode_updateAttributes.
Qed.

Lemma existsb_map {A B : Type} (g : A -> B) (p : B -> bool) (l : list A) :
  existsb p (map g l) = existsb (fun x => p (g x)) l.
Proof. induction l as [|x l IH]; [reflexivity|]. simpl. now rewrite IH. Qed.

Lemma parentIn_updateAttributes i h j n :
  parentIn j (updateAttributes i h n) = parentIn j n.
Proof.
  induction n as [k nm a cs IH | k d | k d] using node_induction;
    [|reflexivity|reflexivity].
  cbn [updateAttributes parentIn]. rewrite existsb_map.
  assert (E : existsb (fun x => Nat.eqb (nid (updateAttributes i h x)) j) cs
              = existsb (fun c => Nat.eqb (nid c) j) cs).
  { clear IH. induction cs as [|c cs IHcs]; [reflexivity|].
    simpl. now rewrite nid_updateAttributes, IHcs. }
  rewrite E. clear E.
  destruct (existsb (fun c => Nat.eqb (nid c) j) cs); [reflexivity|].
  rewrite firstSome_map. apply firstSome_ext_in.
  rewrite Forall_forall in IH. exact IH.
Qed.

Lemma parentNode_updateAttributes i h j F :
  parentNode j (map (updateAttributes i h) F) = parentNode j F.
Proof.
  unfold parentNode. rewrite firstSome_map. apply firstSome_ext_in.
  intros x _. apply parentIn_updateAttributes.
Qed.

Lemma idsL_updateAttributes i h F : idsL (map (updateAttributes i h) F) = idsL F.
Proof.
  induction F as [|c F IH]; [reflexivity|].
  cbn [map]. now rewrite !idsL_cons, ids_updateAttributes, IH.
Qed.

Lemma attributes_updateAttributes_other i h y :
  nid y <> i -> attributes (updateAttributes i h y) = attributes y.
Proof.
  destruct y as [k nm a cs | |]; [|reflexivity|reflexivity].
  cbn. intros H. apply Nat.eqb_neq in H. now rewrite H.
Qed.

Lemma getNode_nid j n y : getNode j n = Some y -> nid y = j.
Proof.
  induction n as [k nm a cs IH | k d | k d] using node_induction; cbn [getNode nid].
  - destruct (Nat.eqb_spec k j) as [->|_]; [now intros [= <-]|].
    induction IH as [|c cs Hc Hcs IHcs]; cbn [firstSome]; [discriminate|].
    destruct (getNode j c) eqn:E; [intros [= <-]; now apply Hc | exact IHcs].
  - destruct (Nat.eqb_spec k j) as [->|_]; [now intros [= <-] | discriminate].
  - destruct (Nat.eqb_spec k j) as [->|_]; [now intros [= <-] | discriminate].
Qed.

Lemma getNodeL_nid j F y : getNodeL j F = Some y -> nid y = j.
Proof.
  unfold getNodeL. induction F as [|c F IH]; cbn [firstSome]; [discriminate|].
  destruct (getNode j c) eqn:E; [intros [= <-]; now apply (getNode_nid j c) | exact IH].
Qed.

Lemma isUnwanted_false tagName name value :
  isUnwanted tagName (name, value) = false <->
  isAllowedAttr tagName name = true \/
  ((name = "href" \/ name = "src") /\ isWebUri value = true) \/
  (name = "href" /\ startsWith "mailto:" value = true /\
   isemail_validate (slice 7 value) = true).
Proof.
  unfold isUnwanted.
  destruct (isAllowedAttr tagName name); [tauto|].
  destruct (String.eqb_spec "href" name) as [Hh|Hh];
    destruct (String.eqb_spec "src" name) as [Hs|Hs];
    destruct (isWebUri value); destruct (startsWith "mailto:" value);
    destruct (isemail_validate (slice 7 value)); cbn;
    intuition (try discriminate; try congruence).
Qed.

Lemma shape_walked n : shape (walked n) = shape n.
Proof.
  induction n as [k nm a cs IH | k d | k d] using node_induction;
    [|reflexivity|reflexivity].
  cbn [walked shape]. f_equal. rewrite map_map. apply map_ext_in.
  rewrite Forall_forall in IH. exact IH.
Qed.

Lemma shape_walkedBody body : shape (walkedBody body) = shape body.
Proof.
  destruct body as [k nm a cs | |]; [|reflexivity|reflexivity].
  cbn [walkedBody shape]. f_equal. rewrite map_map. apply map_ext.
  intros c. apply shape_walked.
Qed.

Lemma ids_after_dropIn l t j :
  In j (idsL (childNodes (edit (dropIn l) t))) -> ~ In j l.
Proof.
  revert j. induction t as [k nm a cs IH | k d | k d] using node_induction;
    intros j Hj; [|destruct Hj|destruct Hj].
  rewrite childNodes_edit in Hj. cbn [childNodes] in Hj.
  induction IH as [|c cs Hc Hcs IHcs]; [destruct Hj|].
  rewrite editL_cons, idsL_app, in_app_iff in Hj. destruct Hj as [Hj|Hj]; [|auto].
  unfold dropIn in Hj. rewrite nid_edit in Hj.
  destruct (inb (nid c) l) eqn:E; [destruct Hj|].
  rewrite idsL_cons, idsL_nil, app_nil_r, ids_childNodes, nid_edit in Hj.
  destruct Hj as [<-|Hj]; [now apply inb_false | now apply Hc].
Qed.

(** ** Attribute lists as finite maps *)

Lemma getAttr_In n v l : getAttr n l = Some v -> In (n, v) l.
Proof.
  induction l as [|[k w] l IH]; [discriminate|]. simpl.
  destruct (String.eqb_spec k n) as [->|_]; [intros [= ->]; now left | right; auto].
Qed.

Lemma getAttr_not_in n l : ~ In n (map fst l) -> getAttr n l = None.
Proof.
  induction l as [|[k w] l IH]; [reflexivity|]. simpl. intros H.
  destruct (String.eqb_spec k n) as [->|_]; [tauto | apply IH; tauto].
Qed.

Lemma In_getAttr n v l : NoDup (map fst l) -> In (n, v) l -> getAttr n l = Some v.
Proof.
  induction l as [|[k w] l IH]; [intros _ []|]. simpl. intros Hnd Hin.
  apply NoDup_cons_iff in Hnd. destruct Hnd as [Hk Hnd].
  destruct Hin as [[= -> ->]|Hin]; [now rewrite String.eqb_refl|].
  destruct (String.eqb_spec k n) as [->|_]; [|auto].
  elim Hk. now apply (in_map fst _ (n, v)).
Qed.

Lemma getAttr_filter (p : attr -> bool) l n :
  NoDup (map fst l) ->
  getAttr n (filter p l) =
  match getAttr n l with
  | Some v => if p (n, v) then Some v else None
  | None => None
  end.
Proof.
  induction l as [|[k w] l IH]; [reflexivity|]. simpl. intros Hnd.
  apply NoDup_cons_iff in Hnd. destruct Hnd as [Hk Hnd].
  destruct (String.eqb_spec k n) as [->|Hkn].
  - destruct (p (n, w)) eqn:E; simpl.
    + now rewrite String.eqb_refl.
    + rewrite IH, (getAttr_not_in n l) by assumption. reflexivity.
  - destruct (p (k, w)); simpl; [|now apply IH].
    apply String.eqb_neq in Hkn. rewrite Hkn. now apply IH.
Qed.

Lemma in_names_filter (p : attr -> bool) l k :
  In k (map fst (filter p l)) -> In k (map fst l).
Proof.
  rewrite !in_map_iff. intros [x [E Hx]]. apply filter_In in Hx. exists x. tauto.
Qed.

Lemma NoDup_names_filter (p : attr -> bool) l :
  NoDup (map fst l) -> NoDup (map fst (filter p l)).
Proof.
  induction l as [|[k w] l IH]; [intros; constructor|]. simpl. intros Hnd.
  apply NoDup_cons_iff in Hnd. destruct Hnd as [Hk Hnd].
  destruct (p (k, w)); [|auto]. simpl. constructor; [|auto].
  intros Hin. apply Hk. now apply in_names_filter in Hin.
Qed.

Lemma in_names_setAttr n v l k :
  In k (map fst (setAttr n v l)) -> k = n \/ In k (map fst l).
Proof.
  induction l as [|[j w] l IH]; simpl.
  - intros [<-|[]]. now left.
  - destruct (String.eqb_spec j n) as [->|_]; simpl; [tauto|].
    intros [<-|H]; [tauto|]. destruct (IH H); tauto.
Qed.

Lemma NoDup_names_setAttr n v l :
  NoDup (map fst l) -> NoDup (map fst (setAttr n v l)).
Proof.
  induction l as [|[j w] l IH]; simpl; intros Hnd.
  - constructor; [intros []|constructor].
  - apply NoDup_cons_iff in Hnd. destruct Hnd as [Hj Hnd].
    destruct (String.eqb_spec j n) as [->|Hjn]; simpl; constructor; auto.
    intros Hin. destruct (in_names_setAttr _ _ _ _ Hin); [congruence | tauto].
Qed.

Lemma attrs_permutation l1 l2 :
  NoDup (map fst l1) -> NoDup (map fst l2) ->
  (forall n, getAttr n l1 = getAttr n l2) ->
  Permutation l1 l2.
Proof.
  intros H1 H2 H. apply NoDup_Permutation.
  - now apply NoDup_map_inv in H1.
  - now apply NoDup_map_inv in H2.
  - intros [n v]. split; intros Hin.
    + apply getAttr_In. rewrite <- H. now apply In_getAttr.
    + apply getAttr_In. rewrite H. now apply In_getAttr.
Qed.

Lemma filter_idem {A : Type} (p : A -> bool) (l : list A) :
  filter p (filter p l) = filter p l.
Proof.
  induction l as [|x l IH]; [reflexivity|]. simpl.
  destruct (p x) eqn:E; simpl; [rewrite E; f_equal|]; exact IH.
Qed.

Lemma getAttr_setAttr n m v l :
  getAttr n (setAttr m v l) = if String.eqb m n then Some v else getAttr n l.
Proof.
  destruct (String.eqb_spec m n) as [->|H].
  - apply getAttr_setAttr_same.
  - apply getAttr_setAttr_other. congruence.
Qed.

(** A second pass over the attributes a first pass left changes their
    order at most. *)
Lemma keptAttributes_twice nm a :
  NoDup (map fst a) ->
  NoDup (map fst (keptAttributes nm a)) /\
  Permutation (keptAttributes nm (keptAttributes nm a)) (keptAttributes nm a).
Proof.
  intros Hnd. unfold keptAttributes.
  set (tag := toLowerCase nm).
  set (keep := fun at_ : attr => negb (isUnwanted tag at_)).
  rewrite (strippedAttributes_filter tag a Hnd). fold keep.
  set (L := filter keep a).
  assert (HL : NoDup (map fst L)) by now apply NoDup_names_filter.
  assert (HLk : forall n v, getAttr n L = Some v -> keep (n, v) = true).
  { intros n v Hn. apply getAttr_In in Hn. apply filter_In in Hn. tauto. }
  destruct (forcesLinkAttributes tag L) eqn:Hforce.
  - assert (Htag : tag = "a").
    { unfold forcesLinkAttributes in Hforce.
      destruct (String.eqb_spec "a" tag) as [E|_]; [now rewrite E | discriminate]. }
    set (A := setAttr "rel" "external noopener noreferrer" (setAttr "target" "_blank" L)).
    assert (HK : normalizedAttributes tag L = A)
      by (unfold normalizedAttributes; now rewrite Hforce).
    rewrite HK.
    assert (HA : NoDup (map fst A)) by (unfold A; auto using NoDup_names_setAttr).
    split; [exact HA|].
    rewrite (strippedAttributes_filter tag A HA). fold keep.
    assert (HAl : forall n, getAttr n (filter keep A) =
                            if String.eqb "target" n then None else getAttr n A).
    { intros n. rewrite getAttr_filter by exact HA. unfold A.
      rewrite !getAttr_setAttr.
      destruct (String.eqb_spec "rel" n) as [<-|Hrel].
      - unfold keep. rewrite Htag. reflexivity.
      - destruct (String.eqb_spec "target" n) as [<-|Htar].
        + unfold keep. now rewrite isUnwanted_target.
        + destruct (getAttr n L) as [v|] eqn:E; [|reflexivity].
          now rewrite (HLk n v E). }
    assert (Hf2 : forcesLinkAttributes tag (filter keep A) = true).
    { rewrite Htag in *. rewrite forces_anchor in *. rewrite HAl.
      unfold A. rewrite !getAttr_setAttr. exact Hforce. }
    unfold normalizedAttributes. rewrite Hf2.
    apply attrs_permutation; auto using NoDup_names_setAttr, NoDup_names_filter.
    intros n. rewrite !getAttr_setAttr, HAl. unfold A. rewrite !getAttr_setAttr.
    destruct (String.eqb "rel" n); [reflexivity|].
    now destruct (String.eqb "target" n).
  - assert (HK : normalizedAttributes tag L = L)
      by (unfold normalizedAttributes; now rewrite Hforce).
    rewrite HK. split; [exact HL|].
    rewrite (strippedAttributes_filter tag L HL). fold keep.
    unfold L at 1. rewrite filter_idem. fold L. now rewrite HK.
Qed.

Lemma classify_kept_stable i nm a cs cs' :
  classify (Element i nm a cs) = Keep ->
  classify (Element i nm (keptAttributes nm a) cs') = Keep.
Proof.
  unfold classify, isForbidden, isAllowedTag. cbn [nodeName attributes].
  destruct (oneOf (toLowerCase nm) forbiddenTags); [discriminate|].
  destruct (String.eqb_spec "input" (toLowerCase nm)) as [E|_]; [|auto].
  unfold keptAttributes, normalizedAttributes. rewrite <- E.
  rewrite forces_not_anchor by discriminate.
  rewrite getAttr_stripped_wanted by reflexivity. auto.
Qed.

Lemma uniqueAttributes_child c cs :
  Forall (fun x => NoDup (map fst (attributes x))) (subtreesL cs) ->
  In c cs -> uniqueAttributes c.
Proof.
  unfold uniqueAttributes. rewrite !Forall_forall. intros H Hc x Hx.
  apply H. unfold subtreesL. apply in_flat_map. eauto.
Qed.



(** ** The nodes of the result *)

Lemma subtreesL_app l1 l2 : subtreesL (l1 ++ l2) = subtreesL l1 ++ subtreesL l2.
Proof. apply flat_map_app. Qed.

Lemma result_nodes_list (P : node -> Prop) cs :
  Forall (fun t => forall y, In y (subtreesL (expected t)) -> P y) cs ->
  forall y, In y (subtreesL (expectedL cs)) -> P y.
Proof.
  induction 1 as [|c cs Hc Hcs IH]; intros y Hy; [destruct Hy|].
  rewrite expectedL_cons, subtreesL_app in Hy. apply in_app_or in Hy.
  destruct Hy; auto.
Qed.

(** A node of the result is a text node, or an element with the
    attributes its visit left. *)
Lemma result_nodes t y :
  In y (subtreesL (expected t)) ->
  (exists i nm a cs, y = Element i nm (keptAttributes nm a) cs) \/
  (exists i d, y = Text i d).
Proof.
  revert y. induction t as [i nm a cs IH | i d | i d] using node_induction; intros y Hy.
  - rewrite expected_Element in Hy.
    destruct (classify (Element i nm a cs)).
    + unfold subtreesL in Hy. cbn [flat_map subtrees] in Hy. rewrite app_nil_r in Hy.
      destruct Hy as [<-|Hy]; [left; eauto|].
      now apply (result_nodes_list _ cs IH).
    + now apply (result_nodes_list _ cs IH).
    + destruct Hy.
  - cbn [expected] in Hy. rewrite classify_Text in Hy.
    destruct Hy as [<-|[]]. right. eauto.
  - cbn [expected] in Hy. rewrite classify_Comment in Hy. destruct Hy.
Qed.

Lemma result_nodesL l y :
  In y (subtreesL (expectedL l)) ->
  (exists i nm a cs, y = Element i nm (keptAttributes nm a) cs) \/
  (exists i d, y = Text i d).
Proof.
  revert y.
  apply (result_nodes_list
           (fun y => (exists i nm a cs, y = Element i nm (keptAttributes nm a) cs) \/
                     (exists i d, y = Text i d))).
  apply Forall_forall. intros t _ y'. apply result_nodes.
Qed.

Lemma kept_target nm a :
  getAttr "target" (keptAttributes nm a) = None \/
  (toLowerCase nm = "a" /\
   getAttr "target" (keptAttributes nm a) = Some "_blank" /\
   exists href, getAttr "href" (keptAttributes nm a) = Some href /\
                startsWith "mailto:" href = false).
Proof.
  unfold keptAttributes, normalizedAttributes.
  destruct (forcesLinkAttributes _ _) eqn:Hforce.
  - right.
    assert (Htag : toLowerCase nm = "a").
    { unfold forcesLinkAttributes in Hforce.
      destruct (String.eqb_spec "a" (toLowerCase nm)) as [E|_]; [now rewrite E | discriminate]. }
    rewrite Htag in *. rewrite forces_anchor in Hforce. split; [reflexivity|]. split.
    + rewrite getAttr_setAttr_other by discriminate. apply getAttr_setAttr_same.
    + rewrite !getAttr_setAttr_other by discriminate.
      destruct (getAttr "href" (strippedAttributes "a" a)) as [href|]; [|discriminate].
      exists href. split; [reflexivity|]. now destruct (startsWith "mailto:" href).
  - left. apply stripped_target.
Qed.

(** * Properties of the result *)

Lemma classify_Keep n : classify n = Keep -> isForbidden n = false /\ isAllowedTag n = true.
Proof.
  unfold classify. destruct (isForbidden n), (isAllowedTag n); intros H;
    try discriminate; auto.
Qed.

Lemma result_origin_list cs :
  Forall (fun t => forall y, In y (subtreesL (expected t)) ->
                   exists x, In x (subtrees t) /\ keptFrom x y) cs ->
  forall y, In y (subtreesL (expectedL cs)) ->
            exists x, In x (subtreesL cs) /\ keptFrom x y.
Proof.
  induction 1 as [|c cs Hc Hcs IH]; intros y Hy; [destruct Hy|].
  rewrite expectedL_cons, subtreesL_app in Hy. apply in_app_or in Hy.
  unfold subtreesL at 1. cbn [flat_map]. destruct Hy as [Hy|Hy].
  - destruct (Hc y Hy) as [x [Hx Hk]]. exists x. split; [|exact Hk].
    apply in_or_app. now left.
  - destruct (IH y Hy) as [x [Hx Hk]]. exists x. split; [|exact Hk].
    apply in_or_app. now right.
Qed.

Lemma result_origin t y :
  In y (subtreesL (expected t)) -> exists x, In x (subtrees t) /\ keptFrom x y.
Proof.
  revert y. induction t as [i nm a cs IH | i d | i d] using node_induction; intros y Hy.
  - rewrite expected_Element in Hy.
    destruct (classify (Element i nm a cs)) eqn:Hk.
    + unfold subtreesL in Hy. cbn [flat_map subtrees] in Hy. rewrite app_nil_r in Hy.
      destruct Hy as [<-|Hy].
      * exists (Element i nm a cs). split; [now left|]. split; [exact Hk | eauto].
      * destruct (result_origin_list cs IH y Hy) as [x [Hx Hf]].
        exists x. split; [now right | exact Hf].
    + destruct (result_origin_list cs IH y Hy) as [x [Hx Hf]].
      exists x. split; [now right | exact Hf].
    + destruct Hy.
  - cbn [expected] in Hy. rewrite classify_Text in Hy. destruct Hy as [<-|[]].
    exists (Text i d). split; [now left|]. split; [apply classify_Text | reflexivity].
  - cbn [expected] in Hy. rewrite classify_Comment in Hy. destruct Hy.
Qed.

Lemma result_originL l y :
  In y (subtreesL (expectedL l)) -> exists x, In x (subtreesL l) /\ keptFrom x y.
Proof.
  apply result_origin_list. apply Forall_forall. intros t _ y'. apply result_origin.
Qed.

Lemma keptFrom_facts x y :
  keptFrom x y ->
  nid y = nid x /\ nodeName y = nodeName x /\ classify y = Keep /\
  attributes y =
  match x with Element _ nm a _ => keptAttributes nm a | _ => [] end.
Proof.
  intros [Hk H]. destruct x as [i nm a cs | i d | i d].
  - destruct H as [cs' ->]. cbn. repeat split.
    now apply (classify_kept_stable i nm a cs).
  - subst y. cbn. auto.
  - subst y. cbn. auto.
Qed.

(** X1: every node of the result is a node the walk kept: it is an
    allowed node (a text node, or an element with an allowed tag), it
    is not a forbidden one, it is no comment, and it is the node of the
    document with the same identity and the same name. *)
Theorem result_holds_only_allowed_nodes body out y :
  NoDup (ids body) ->
  sanitizeHtml body = Normal out ->
  In y (subtreesL out) ->
  isForbidden y = false /\
  isAllowedTag y = true /\
  (forall i d, y <> Comment i d) /\
  exists x, In x (subtreesL (childNodes body)) /\
            isForbidden x = false /\ isAllowedTag x = true /\
            nid x = nid y /\ nodeName x = nodeName y.
Proof.
  intros Hnd Hs Hy. rewrite (sanitizeHtml_expected body Hnd) in Hs. injection Hs as <-.
  destruct (result_originL _ _ Hy) as [x [Hx Hk]].
  destruct (keptFrom_facts x y Hk) as [Hi [Hn [Hc _]]].
  destruct (classify_Keep y Hc) as [Hf Ha]. destruct Hk as [Hkx _].
  destruct (classify_Keep x Hkx) as [Hfx Hax].
  split; [exact Hf|]. split; [exact Ha|]. split.
  - intros i d ->. discriminate Ha.
  - exists x. auto.
Qed.

Lemma kept_attribute_names nm a name value :
  getAttr name (keptAttributes nm a) = Some value ->
  isAllowedAttr (toLowerCase nm) name = true \/ name = "href" \/ name = "src" \/
  (toLowerCase nm = "a" /\ name = "target" /\ value = "_blank").
Proof.
  unfold keptAttributes, normalizedAttributes.
  assert (Hs : forall v, getAttr name (strippedAttributes (toLowerCase nm) a) = Some v ->
                         isAllowedAttr (toLowerCase nm) name = true \/
                         name = "href" \/ name = "src").
  { intros v Hv.
    destruct (isAllowedAttr (toLowerCase nm) name) eqn:Ea; [now left|].
    destruct (String.eqb_spec "href" name) as [<-|Hh]; [tauto|].
    destruct (String.eqb_spec "src" name) as [<-|Hsrc]; [tauto|].
    rewrite getAttr_stripped_unwanted in Hv; [discriminate|].
    intros v'. unfold isUnwanted. rewrite Ea.
    apply String.eqb_neq in Hh, Hsrc. now rewrite Hh, Hsrc. }
  destruct (forcesLinkAttributes _ _) eqn:Hforce; [|intros H; destruct (Hs _ H); tauto].
  assert (Htag : toLowerCase nm = "a").
  { unfold forcesLinkAttributes in Hforce.
    destruct (String.eqb_spec "a" (toLowerCase nm)) as [E|_]; [now rewrite E | discriminate]. }
  rewrite !getAttr_setAttr.
  destruct (String.eqb_spec "rel" name) as [<-|_]; [intros _; left; now rewrite Htag|].
  destruct (String.eqb_spec "target" name) as [<-|_].
  - intros [= <-]. tauto.
  - intros H. destruct (Hs _ H); tauto.
Qed.

Lemma allowed_names tagName name :
  isAllowedAttr tagName name = true ->
  In name ["alt"; "href"; "rel"; "title"; "src"; "checked"; "type"].
Proof.
  unfold isAllowedAttr, oneOf.
  destruct (String.eqb tagName "a"); [|destruct (String.eqb tagName "img");
                                        [|destruct (String.eqb tagName "input")]];
    cbn [existsb]; intros H;
    repeat (apply orb_true_iff in H; destruct H as [H|H];
            [apply String.eqb_eq in H; subst; simpl; tauto|]);
    discriminate H.
Qed.

(** X2: an attribute of an element of the result has a name of the
    per-tag list of its tag, or is an [href] or a [src], or is the
    forced [target] of an anchor.  So no element of the result has an
    attribute outside the eight names alt, href, rel, title, src,
    checked, type and target, and none has an [on...] handler. *)
Theorem result_attribute_names body out y name :
  NoDup (ids body) ->
  sanitizeHtml body = Normal out ->
  In y (subtreesL out) ->
  (forall value,
      getAttr name (attributes y) = Some value ->
      isAllowedAttr (toLowerCase (nodeName y)) name = true \/
      name = "href" \/ name = "src" \/
      (toLowerCase (nodeName y) = "a" /\ name = "target" /\ value = "_blank")) /\
  (~ In name ["alt"; "href"; "rel"; "title"; "src"; "checked"; "type"; "target"] ->
   getAttr name (attributes y) = None) /\
  (startsWith "on" name = true -> getAttr name (attributes y) = None).
Proof.
  intros Hnd Hs Hy. rewrite (sanitizeHtml_expected body Hnd) in Hs. injection Hs as <-.
  assert (H1 : forall value,
             getAttr name (attributes y) = Some value ->
             isAllowedAttr (toLowerCase (nodeName y)) name = true \/
             name = "href" \/ name = "src" \/
             (toLowerCase (nodeName y) = "a" /\ name = "target" /\ value = "_blank")).
  { destruct (result_nodesL _ _ Hy) as [[i [nm [a [cs ->]]]]|[i [d ->]]].
    - cbn [attributes nodeName]. apply kept_attribute_names.
    - discriminate. }
  assert (H2 : forall value, getAttr name (attributes y) = Some value ->
                             In name ["alt"; "href"; "rel"; "title"; "src"; "checked";
                                      "type"; "target"]).
  { intros value Hv. destruct (H1 value Hv) as [H|[->|[->|[_ [-> _]]]]];
      [|simpl; tauto|simpl; tauto|simpl; tauto].
    apply allowed_names in H. simpl in *. tauto. }
  split; [exact H1|]. split.
  - intros Hn. destruct (getAttr name (attributes y)) as [v|] eqn:E; [|reflexivity].
    elim Hn. now apply (H2 v).
  - intros Hon. destruct (getAttr name (attributes y)) as [v|] eqn:E; [|reflexivity].
    pose proof (H2 v eq_refl) as Hin. simpl in Hin.
    destruct Hin as [<-|[<-|[<-|[<-|[<-|[<-|[<-|[<-|[]]]]]]]]]; discriminate Hon.
Qed.

Lemma flat_map_flat_map {A B C : Type} (f : A -> list B) (g : B -> list C) (l : list A) :
  flat_map g (flat_map f l) = flat_map (fun x => flat_map g (f x)) l.
Proof.
  induction l as [|x l IH]; [reflexivity|]. simpl. now rewrite flat_map_app, IH.
Qed.

Lemma textOf_expected t : flat_map textOf (expected t) = visibleText t.
Proof.
  induction t as [i nm a cs IH | i d | i d] using node_induction;
    [|reflexivity|reflexivity].
  assert (Hcs : flat_map textOf (expectedL cs) = flat_map visibleText cs).
  { unfold expectedL. rewrite flat_map_flat_map. apply flat_map_ext_in.
    rewrite Forall_forall in IH. exact IH. }
  rewrite expected_Element. cbn [visibleText].
  destruct (classify_cases (Element i nm a cs))
    as [[Hk [Hf _]]|[[Hk [Hf _]]|[Hk [Hf _]]]]; rewrite Hk, Hf.
  - reflexivity.
  - exact Hcs.
  - cbn [flat_map textOf]. now rewrite app_nil_r.
Qed.

(** X3: the text of the result is the text of the document that is not
    below a forbidden element, piece by piece and in document order:
    unwrapping a tag and stripping attributes lose no text. *)
Theorem result_text_is_visible_text body :
  NoDup (ids body) ->
  exists out,
    sanitizeHtml body = Normal out /\
    flat_map textOf out = flat_map visibleText (childNodes body).
Proof.
  intros Hnd. exists (expectedL (childNodes body)).
  split; [now apply sanitizeHtml_expected|].
  unfold expectedL. rewrite flat_map_flat_map. apply flat_map_ext_in.
  intros x _. apply textOf_expected.
Qed.

Lemma NoDup_body_part b nm a l :
  forall l', (forall i, In i (idsL l') -> In i (idsL l)) -> NoDup (idsL l') ->
             NoDup (ids (Element b nm a l)) -> NoDup (ids (Element b nm a l')).
Proof.
  intros l' Hin Hl'. rewrite !ids_Element. intros H.
  apply NoDup_cons_iff in H. destruct H as [Hb _]. constructor; auto.
Qed.

(** X4: the sanitizer works on siblings one by one and on a kept element
    around its children: the result for two lists of siblings side by
    side is the two results side by side; a kept element comes back
    around the result of its children; a forbidden one leaves nothing. *)
Theorem sanitize_is_compositional b bn ba l1 l2 :
  NoDup (ids (Element b bn ba (l1 ++ l2))) ->
  (exists o1 o2,
      sanitizeHtml (Element b bn ba l1) = Normal o1 /\
      sanitizeHtml (Element b bn ba l2) = Normal o2 /\
      sanitizeHtml (Element b bn ba (l1 ++ l2)) = Normal (o1 ++ o2)) /\
  (forall i nm a cs,
      l1 = [Element i nm a cs] ->
      (isForbidden (Element i nm a cs) = true ->
       sanitizeHtml (Element b bn ba l1) = Normal []) /\
      (isForbidden (Element i nm a cs) = false ->
       isAllowedTag (Element i nm a cs) = true ->
       exists a' o,
         sanitizeHtml (Element b bn ba cs) = Normal o /\
         sanitizeHtml (Element b bn ba l1) = Normal [Element i nm a' o])).
Proof.
  intros Hnd.
  assert (H12 : NoDup (idsL (l1 ++ l2))).
  { rewrite ids_Element in Hnd. now apply NoDup_cons_iff in Hnd. }
  rewrite idsL_app in H12. destruct (NoDup_app_inv _ _ H12) as [H1 [H2 _]].
  assert (Hn1 : NoDup (ids (Element b bn ba l1))).
  { apply (NoDup_body_part b bn ba (l1 ++ l2)); auto.
    intros i Hi. rewrite idsL_app. apply in_or_app. now left. }
  assert (Hn2 : NoDup (ids (Element b bn ba l2))).
  { apply (NoDup_body_part b bn ba (l1 ++ l2)); auto.
    intros i Hi. rewrite idsL_app. apply in_or_app. now right. }
  split.
  - exists (expectedL l1), (expectedL l2).
    rewrite !sanitizeHtml_expected by assumption. cbn [childNodes].
    now rewrite expectedL_app.
  - intros i nm a cs E. subst l1. rewrite sanitizeHtml_expected by assumption.
    cbn [childNodes]. rewrite expectedL_cons, expected_Element.
    cbn [expectedL flat_map]. rewrite app_nil_r. split.
    + intros Hf. unfold classify. now rewrite Hf.
    + intros Hf Ha. unfold classify. rewrite Hf, Ha.
      exists (keptAttributes nm a), (expectedL cs). split; [|reflexivity].
      rewrite sanitizeHtml_expected; [reflexivity|].
      apply (NoDup_body_part b bn ba [Element i nm a cs]); auto.
      * intros j Hj. rewrite idsL_cons, idsL_nil, app_nil_r, ids_Element. now right.
      * rewrite idsL_cons, idsL_nil, app_nil_r, ids_Element in H1.
        now apply NoDup_cons_iff in H1.
Qed.

Lemma strippedAttributes_nothing tagName a :
  (forall at_, In at_ a -> isUnwanted tagName at_ = false) ->
  strippedAttributes tagName a = a.
Proof.
  intros H. unfold strippedAttributes.
  replace (filter (isUnwanted tagName) a) with (@nil attr); [reflexivity|].
  symmetry. induction a as [|x a IH]; [reflexivity|]. simpl.
  rewrite (H x) by now left. apply IH. intros y Hy. apply H. now right.
Qed.

Lemma expected_clean_list cs :
  Forall (fun t => (forall x, In x (subtrees t) ->
                      classify x = Keep /\
                      (forall at_, In at_ (attributes x) ->
                                   isUnwanted (toLowerCase (nodeName x)) at_ = false) /\
                      forcesLinkAttributes (toLowerCase (nodeName x)) (attributes x) = false) ->
                   expected t = [t]) cs ->
  (forall x, In x (subtreesL cs) ->
             classify x = Keep /\
             (forall at_, In at_ (attributes x) ->
                          isUnwanted (toLowerCase (nodeName x)) at_ = false) /\
             forcesLinkAttributes (toLowerCase (nodeName x)) (attributes x) = false) ->
  expectedL cs = cs.
Proof.
  induction 1 as [|c cs Hc Hcs IH]; intros H; [reflexivity|].
  rewrite expectedL_cons, Hc, IH; [reflexivity| |].
  - intros x Hx. apply H. unfold subtreesL. cbn [flat_map]. apply in_or_app. now right.
  - intros x Hx. apply H. unfold subtreesL. cbn [flat_map]. apply in_or_app. now left.
Qed.

Lemma expected_clean t :
  (forall x, In x (subtrees t) ->
             classify x = Keep /\
             (forall at_, In at_ (attributes x) ->
                          isUnwanted (toLowerCase (nodeName x)) at_ = false) /\
             forcesLinkAttributes (toLowerCase (nodeName x)) (attributes x) = false) ->
  expected t = [t].
Proof.
  induction t as [i nm a cs IH | i d | i d] using node_induction; intros H.
  - destruct (H (Element i nm a cs) (or_introl eq_refl)) as [Hk [Hu Hf]].
    cbn [attributes nodeName] in Hu, Hf.
    rewrite expected_Element, Hk. unfold keptAttributes, normalizedAttributes.
    rewrite (strippedAttributes_nothing _ a Hu), Hf.
    rewrite (expected_clean_list cs IH); [reflexivity|].
    intros x Hx. apply H. now right.
  - cbn [expected]. now rewrite classify_Text.
  - destruct (H (Comment i d) (or_introl eq_refl)) as [Hk _].
    rewrite classify_Comment in Hk. discriminate.
Qed.

(** X5: a document the policy has nothing against comes back as it is:
    when every node below [body] is allowed and not forbidden, no
    attribute is one the filter removes, and no anchor has an [href]
    that calls for the forced [target] and [rel], the result is the
    list of children [body] had. *)
Theorem clean_document_unchanged body :
  NoDup (ids body) ->
  (forall x, In x (subtreesL (childNodes body)) ->
             isForbidden x = false /\ isAllowedTag x = true /\
             (forall at_, In at_ (attributes x) ->
                          isUnwanted (toLowerCase (nodeName x)) at_ = false) /\
             forcesLinkAttributes (toLowerCase (nodeName x)) (attributes x) = false) ->
  sanitizeHtml body = Normal (childNodes body).
Proof.
  intros Hnd H. rewrite (sanitizeHtml_expected body Hnd). f_equal.
  apply expected_clean_list.
  - apply Forall_forall. intros t _. apply expected_clean.
  - intros x Hx. destruct (H x Hx) as [Hf [Ha [Hu Hl]]].
    split; [|auto]. unfold classify. now rewrite Hf, Ha.
Qed.

(** X6: the removals move nodes, they never copy or make one: no node
    is twice in the result, and every node of the result was below
    [body] in the document. *)
Theorem result_nodes_distinct_and_old body :
  NoDup (ids body) ->
  exists out,
    sanitizeHtml body = Normal out /\
    NoDup (idsL out) /\
    (forall i, In i (idsL out) -> In i (walkOrder body)) /\
    ~ In (nid body) (idsL out).
Proof.
  intros Hnd. exists (expectedL (childNodes body)).
  split; [now apply sanitizeHtml_expected|].
  rewrite ids_childNodes in Hnd. apply NoDup_cons_iff in Hnd. destruct Hnd as [Hb Hnd].
  split; [now apply NoDup_expectedL|]. split.
  - intros i Hi. now apply ids_expectedL.
  - intros Hin. apply Hb. now apply ids_expectedL.
Qed.

Lemma forces_of_filtered tagName a :
  NoDup (map fst a) ->
  forcesLinkAttributes tagName
    (filter (fun at_ => negb (isUnwanted tagName at_)) a) =
  String.eqb "a" tagName &&
  match getAttr "href" a with
  | Some href => negb (startsWith "mailto:" href)
  | None => false
  end.
Proof.
  intros Hnd. unfold forcesLinkAttributes.
  destruct (String.eqb_spec "a" tagName) as [<-|_]; [|reflexivity].
  rewrite getAttr_filter by exact Hnd.
  destruct (getAttr "href" a) as [href|]; reflexivity.
Qed.

(** X7: on a kept element with one attribute of a name, the visit acts
    on the attributes as on a table: under a name stays the value the
    element had if the filter does not remove it, nothing otherwise;
    and when the element is an anchor whose [href] is a string that
    does not start with [mailto:], [rel] and [target] hold the forced
    values instead. *)
Theorem visit_attribute_table s i nm a cs name :
  NoDup (idsL (doc s)) ->
  getNodeL i (doc s) = Some (Element i nm a cs) ->
  isForbidden (Element i nm a cs) = false ->
  isAllowedTag (Element i nm a cs) = true ->
  NoDup (map fst a) ->
  getAttribute i name (doc (visit s i)) =
  if String.eqb "a" (toLowerCase nm) &&
     match getAttr "href" a with
     | Some href => negb (startsWith "mailto:" href)
     | None => false
     end
  then if String.eqb "rel" name then Some "external noopener noreferrer"
       else if String.eqb "target" name then Some "_blank"
       else filteredAttr (toLowerCase nm) a name
  else filteredAttr (toLowerCase nm) a name.
Proof.
  intros Hnd Hg Hf Ha Hu.
  assert (Hk : classify (Element i nm a cs) = Keep)
    by (unfold classify; now rewrite Hf, Ha).
  rewrite (visit_kept_attribute s i nm a cs name Hnd Hg Hk).
  unfold keptAttributes, normalizedAttributes.
  rewrite (strippedAttributes_filter _ a Hu), (forces_of_filtered _ a Hu).
  assert (Hl : forall n, getAttr n (filter (fun at_ => negb (isUnwanted (toLowerCase nm) at_)) a)
                       = filteredAttr (toLowerCase nm) a n).
  { intros n. rewrite getAttr_filter by exact Hu. unfold filteredAttr.
    destruct (getAttr n a) as [v|]; [|reflexivity].
    now destruct (isUnwanted (toLowerCase nm) (n, v)). }
  destruct (String.eqb "a" (toLowerCase nm) && _); [|apply Hl].
  rewrite !getAttr_setAttr, Hl. reflexivity.
Qed.

Lemma shape_updateAttributes i h n : shape (updateAttributes i h n) = shape n.
Proof.
  induction n as [k nm a cs IH | k d | k d] using node_induction;
    [|reflexivity|reflexivity].
  cbn [updateAttributes shape]. f_equal. rewrite map_map. apply map_ext_in.
  rewrite Forall_forall in IH. exact IH.
Qed.

(** X8: a visit writes to the visited node and to one queue, nothing
    else: it adds, removes and moves no node, it leaves the attributes
    of every other node alone, and on a forbidden or unknown node it
    leaves the whole document alone and appends the node to its queue. *)
Theorem visit_frame s i :
  NoDup (idsL (doc s)) ->
  idsL (doc (visit s i)) = idsL (doc s) /\
  map shape (doc (visit s i)) = map shape (doc s) /\
  (forall j, parentNode j (doc (visit s i)) = parentNode j (doc s)) /\
  (forall j name, j <> i ->
                  getAttribute j name (doc (visit s i)) = getAttribute j name (doc s)) /\
  (forall x, getNodeL i (doc s) = Some x ->
             (isForbidden x = true ->
              visit s i = WalkState (doc s) (removeList s) (forbiddenList s ++ [i])) /\
             (isForbidden x = false -> isAllowedTag x = false ->
              visit s i = WalkState (doc s) (removeList s ++ [i]) (forbiddenList s)) /\
             (isForbidden x = false -> isAllowedTag x = true ->
              removeList (visit s i) = removeList s /\
              forbiddenList (visit s i) = forbiddenList s)).
Proof.
  intros Hnd.
  assert (Hq : forall x, getNodeL i (doc s) = Some x ->
             (isForbidden x = true ->
              visit s i = WalkState (doc s) (removeList s) (forbiddenList s ++ [i])) /\
             (isForbidden x = false -> isAllowedTag x = false ->
              visit s i = WalkState (doc s) (removeList s ++ [i]) (forbiddenList s)) /\
             (isForbidden x = false -> isAllowedTag x = true ->
              removeList (visit s i) = removeList s /\
              forbiddenList (visit s i) = forbiddenList s)).
  { intros x Hg. unfold visit. rewrite Hg. repeat split.
    - intros ->. reflexivity.
    - intros -> ->. reflexivity.
    - now rewrite H, H0.
    - now rewrite H, H0. }
  assert (Hfr : idsL (doc (visit s i)) = idsL (doc s) /\
                map shape (doc (visit s i)) = map shape (doc s) /\
                (forall j, parentNode j (doc (visit s i)) = parentNode j (doc s)) /\
                (forall j name, j <> i ->
                   getAttribute j name (doc (visit s i)) = getAttribute j name (doc s))).
  { clear Hq. destruct (getNodeL i (doc s)) as [x|] eqn:Hg.
    - rewrite (visit_found s i x Hnd Hg). cbn [doc].
      split; [apply idsL_updateAttributes|]. split; [|split].
      + rewrite map_map. apply map_ext. intros c. apply shape_updateAttributes.
      + intros j. apply parentNode_updateAttributes.
      + intros j name Hj. unfold getAttribute. rewrite getNodeL_updateAttributes.
        destruct (getNodeL j (doc s)) as [y|] eqn:E; [|reflexivity]. cbn [option_map].
        rewrite attributes_updateAttributes_other; [reflexivity|].
        now rewrite (getNodeL_nid j (doc s) y E).
    - assert (Hv : visit s i = s) by (unfold visit; now rewrite Hg).
      rewrite Hv. auto. }
  destruct Hfr as [H1 [H2 [H3 H4]]]. auto.
Qed.

Lemma NoDup_ids_filter (p : node -> bool) N :
  NoDup (map nid N) -> NoDup (map nid (filter p N)).
Proof.
  induction N as [|h N IH]; [intros; constructor|]. simpl. intros Hnd.
  apply NoDup_cons_iff in Hnd. destruct Hnd as [Hh Hnd].
  destruct (p h); [|auto]. simpl. constructor; [|auto].
  intros Hin. apply Hh. apply in_map_iff in Hin. destruct Hin as [w [E Hw]].
  apply filter_In in Hw. rewrite <- E. apply in_map. tauto.
Qed.

Lemma queues_disjoint N i :
  NoDup (map nid N) -> In i (forbiddenIds N) -> ~ In i (unwrapIds N).
Proof.
  intros Hnd Hf Hu. unfold forbiddenIds, unwrapIds in *.
  apply in_map_iff in Hf. destruct Hf as [x [<- Hx]]. apply filter_In in Hx.
  destruct Hx as [Hx Hfx].
  apply inb_In in Hu. rewrite (member_filter isUnwrapped N x Hnd Hx) in Hu.
  unfold isUnwrapped in Hu. rewrite Hfx in Hu. discriminate.
Qed.

(** X9: the walk visits every node below [body] once, in document
    order: [forbiddenList] ends as the forbidden nodes in that order,
    [removeList] as the nodes that are neither forbidden nor allowed,
    no node is in both or twice in one, and the document has then the
    shape it had. *)
Theorem walk_queues body :
  NoDup (ids body) ->
  forbiddenList (walk body) =
  map nid (filter isForbidden (subtreesL (childNodes body))) /\
  removeList (walk body) =
  map nid (filter (fun n => negb (isForbidden n) && negb (isAllowedTag n))
                  (subtreesL (childNodes body))) /\
  NoDup (forbiddenList (walk body) ++ removeList (walk body)) /\
  idsL (doc (walk body)) = ids body.
Proof.
  intros Hnd. rewrite (walk_spec body Hnd). cbn [forbiddenList removeList doc].
  assert (Hc : NoDup (map nid (subtreesL (childNodes body)))).
  { rewrite ids_childNodes in Hnd. now apply NoDup_cons_iff in Hnd. }
  split; [reflexivity|]. split; [reflexivity|]. split.
  - apply NoDup_app.
    + now apply NoDup_ids_filter.
    + now apply NoDup_ids_filter.
    + intros i. now apply queues_disjoint.
  - rewrite idsL_cons, idsL_nil, app_nil_r.
    destruct body as [i nm a cs | |]; [|reflexivity|reflexivity].
    cbn [walkedBody]. now rewrite !ids_Element, idsL_walked.
Qed.

(** ** The removals never throw *)

Lemma roots_plug_same z l l' :
  map nid l = map nid l' -> map nid (plug z l) = map nid (plug z l').
Proof.
  revert l l'. induction z as [|fr z IH]; intros l l' H; [exact H|].
  rewrite !plug_cons. apply IH. destruct fr as [pre post | j nm a]; cbn [fill].
  - now rewrite !map_app, H.
  - reflexivity.
Qed.

Lemma roots_plug_wrapped z p l l' :
  holeParent z = Some p -> map nid (plug z l) = map nid (plug z l').
Proof.
  revert l l'. induction z as [|fr z IH]; intros l l' H; [discriminate|].
  rewrite !plug_cons. destruct fr as [pre post | j nm a]; cbn [fill holeParent] in *.
  - now apply IH.
  - now apply roots_plug_same.
Qed.

Lemma parentNode_of_inner i F :
  In i (idsL F) -> ~ In i (map nid F) -> parentNode i F <> None.
Proof.
  intros Hin Hr. destruct (below_cases i F Hin) as [H|[c [Hc Hi]]]; [tauto|].
  unfold parentNode. apply (firstSome_some _ _ c Hc). now apply parentIn_some.
Qed.

Lemma eliminate_at z x p :
  holeParent z = Some p -> NoDup (ctxIds z ++ ids x) ->
  eliminateUnguarded (nid x) (plug z [x]) = (Normal tt, plug z [] ++ [x]) /\
  eliminate (nid x) (plug z [x]) = (Normal tt, plug z [] ++ [x]).
Proof.
  intros Hp Hnd. destruct (at_place z x Hnd) as [Hz [Hc _]].
  unfold eliminate, eliminateUnguarded, tryCatch, bind, read.
  rewrite parentNode_plug, Hp; auto; [|now left|now apply parentNode_single].
  cbn [onObject]. now rewrite (removeChild_at z x p Hp Hnd).
Qed.

Lemma unwrapUnguarded_at z x p :
  holeParent z = Some p -> NoDup (ctxIds z ++ ids x) ->
  unwrapUnguarded (nid x) (plug z [x]) = (Normal tt, plug z (childNodes x) ++ [emptied x]).
Proof.
  intros Hp Hnd. destruct (at_place z x Hnd) as [Hz [Hc Hd]].
  unfold unwrapUnguarded, bind, read.
  rewrite parentNode_plug, Hp; auto; [|now left|now apply parentNode_single].
  destruct x as [i nm a cs | i d | i d]; cbn [nid childNodes emptied] in *.
  - rewrite moveChildren_at; auto.
    + cbn [onObject].
      change (plug z (cs ++ [Element i nm a []]))
        with (plug (Sib cs [] :: z) [Element i nm a []]).
      pose proof (removeChild_at (Sib cs [] :: z) (Element i nm a []) p) as Hr.
      cbn [nid] in Hr. rewrite Hr; [|exact Hp|].
      * rewrite plug_cons. cbn [fill]. now rewrite !app_nil_r.
      * rewrite ctxIds_cons. cbn [frameIds]. rewrite idsL_nil, app_nil_r.
        rewrite !ids_Element, idsL_nil in *. nodup_from Hnd.
    + pose proof (Permutation_length (idsL_plug z [Element i nm a cs])) as Hl.
      rewrite Hl, length_app, idsL_cons, ids_Element. simpl.
      rewrite length_app. pose proof (length_idsL cs). lia.
  - cbn [moveChildren]. unfold bind, read, firstChild.
    pose proof (getNodeL_at z (Text i d) Hz) as Hg. cbn [nid] in Hg. rewrite Hg.
    cbn [childNodes ret onObject].
    pose proof (removeChild_at z (Text i d) p Hp Hnd) as Hr. cbn [nid] in Hr.
    now rewrite Hr.
  - cbn [moveChildren]. unfold bind, read, firstChild.
    pose proof (getNodeL_at z (Comment i d) Hz) as Hg. cbn [nid] in Hg. rewrite Hg.
    cbn [childNodes ret onObject].
    pose proof (removeChild_at z (Comment i d) p Hp Hnd) as Hr. cbn [nid] in Hr.
    now rewrite Hr.
Qed.

(** A loop over a queue of nodes that are in the document, are not
    [body] and have not been detached: at each turn the node has a
    parent, so the callback ends normally with or without its [catch]. *)
Lemma queue_without_catch (f g : nat -> M unit) (b0 : nat) :
  (forall z x p,
      holeParent z = Some p -> NoDup (ctxIds z ++ ids x) ->
      exists l' e,
        f (nid x) (plug z [x]) = (Normal tt, plug z l' ++ [e]) /\
        g (nid x) (plug z [x]) = (Normal tt, plug z l' ++ [e]) /\
        nid e = nid x /\
        Permutation (idsL l' ++ ids e) (ids x)) ->
  forall l F D,
    NoDup (idsL F) ->
    (forall r, In r (map nid F) -> r = b0 \/ In r D) ->
    NoDup l ->
    (forall i, In i l -> i <> b0 /\ ~ In i D /\ In i (idsL F)) ->
    exists F',
      forEach l f F = (Normal tt, F') /\
      forEach l g F = (Normal tt, F') /\
      NoDup (idsL F') /\
      (forall r, In r (map nid F') -> r = b0 \/ In r (D ++ l)) /\
      (forall i, In i (idsL F) -> In i (idsL F')).
Proof.
  intros Hstep. induction l as [|i l IH]; intros F D Hnd Hroots Hl Hq.
  - exists F. rewrite app_nil_r. auto.
  - apply NoDup_cons_iff in Hl. destruct Hl as [Hil Hl].
    destruct (Hq i (or_introl eq_refl)) as [Hb [HD Hin]].
    assert (Hr : ~ In i (map nid F)) by (intros H; destruct (Hroots i H); tauto).
    destruct (parentNode i F) as [p|] eqn:Hp;
      [|elim (parentNode_of_inner i F Hin Hr Hp)].
    destruct (located F i p Hnd Hp) as [z [x [-> [<- [Hh Hx]]]]].
    destruct (Hstep z x p Hh Hx) as [l' [e [Ef [Eg [He Hperm]]]]].
    assert (Hids : Permutation (idsL (plug z l' ++ [e])) (idsL (plug z [x]))).
    { rewrite idsL_app, !idsL_plug, !idsL_cons, !idsL_nil, !app_nil_r.
      rewrite <- Hperm. perm. }
    destruct (IH (plug z l' ++ [e]) (D ++ [nid x])) as [F' [E1 [E2 [N' [R' I']]]]].
    + eapply Permutation_NoDup; [symmetry; exact Hids | exact Hnd].
    + intros r Hrin. rewrite map_app in Hrin. apply in_app_or in Hrin.
      rewrite in_app_iff. destruct Hrin as [Hrin|[<-|[]]].
      * rewrite (roots_plug_wrapped z p l' [x] Hh) in Hrin.
        destruct (Hroots r Hrin); tauto.
      * right. right. left. now symmetry.
    + exact Hl.
    + intros j Hj. destruct (Hq j (or_intror Hj)) as [Hjb [HjD Hjin]].
      split; [exact Hjb|]. split.
      * rewrite in_app_iff. intros [H|[H|[]]]; [tauto|]. apply Hil. now rewrite H.
      * apply (Permutation_in _ (Permutation_sym Hids)). exact Hjin.
    + exists F'. cbn [forEach]. unfold bind. rewrite Ef, Eg.
      split; [exact E1|]. split; [exact E2|]. split; [exact N'|]. split.
      * intros r Hrin. rewrite <- app_assoc in R'. now apply R'.
      * intros j Hj. apply I'. apply (Permutation_in _ (Permutation_sym Hids)). exact Hj.
Qed.

(** X10: on a document whose nodes are distinct objects no queued
    removal throws: at its turn every queued node still has a parent
    (in the document or in a detached subtree), so the two loops end
    the same, in the same document, with the [try] and [catch] of their
    callbacks taken away. *)
Theorem catch_blocks_never_run body :
  NoDup (ids body) ->
  exists F1 F2,
    forEach (forbiddenList (walk body)) eliminateUnguarded (doc (walk body))
    = (Normal tt, F1) /\
    forEach (forbiddenList (walk body)) eliminate (doc (walk body)) = (Normal tt, F1) /\
    forEach (removeList (walk body)) unwrapUnguarded F1 = (Normal tt, F2) /\
    forEach (removeList (walk body)) unwrap F1 = (Normal tt, F2).
Proof.
  intros Hnd. rewrite (walk_spec body Hnd). cbn [doc removeList forbiddenList].
  set (N := subtreesL (childNodes body)).
  assert (HN : NoDup (map nid N)).
  { unfold N. rewrite ids_childNodes in Hnd. now apply NoDup_cons_iff in Hnd. }
  assert (Hb : ~ In (nid body) (map nid N)).
  { unfold N. rewrite ids_childNodes in Hnd. now apply NoDup_cons_iff in Hnd. }
  assert (Hw : idsL [walkedBody body] = nid body :: map nid N).
  { rewrite idsL_cons, idsL_nil, app_nil_r. unfold N.
    destruct body as [i nm a cs | |]; [|reflexivity|reflexivity].
    cbn [walkedBody childNodes nid]. now rewrite ids_Element, idsL_walked. }
  assert (Hsub : forall (q : node -> bool) i, In i (map nid (filter q N)) -> In i (map nid N)).
  { intros q i Hi. apply in_map_iff in Hi. destruct Hi as [w [<- Hw']].
    apply filter_In in Hw'. apply in_map. tauto. }
  destruct (queue_without_catch eliminateUnguarded eliminate (nid body))
    with (l := forbiddenIds N) (F := [walkedBody body]) (D := @nil nat)
    as [F1 [E1 [E1' [N1 [R1 I1]]]]].
  - intros z x p Hh Hx. exists [], x.
    destruct (eliminate_at z x p Hh Hx) as [Ha Hb']. repeat split; auto.
  - rewrite Hw. now constructor.
  - intros r [<-|[]]. left. now destruct body.
  - now apply NoDup_ids_filter.
  - intros i Hi. apply Hsub in Hi as Hi'. split; [|split; [tauto|]].
    + intros ->. tauto.
    + rewrite Hw. now right.
  - destruct (queue_without_catch unwrapUnguarded unwrap (nid body))
      with (l := unwrapIds N) (F := F1) (D := [] ++ forbiddenIds N)
      as [F2 [E2 [E2' _]]].
    + intros z x p Hh Hx. exists (childNodes x), (emptied x).
      rewrite (unwrapUnguarded_at z x p Hh Hx), (unwrap_at z x p Hh Hx).
      repeat split; [now destruct x|].
      rewrite (ids_childNodes x), (ids_childNodes (emptied x)).
      replace (nid (emptied x)) with (nid x) by (now destruct x).
      replace (childNodes (emptied x)) with (@nil node) by (now destruct x).
      rewrite idsL_nil. perm.
    + exact N1.
    + exact R1.
    + now apply NoDup_ids_filter.
    + intros i Hi. apply Hsub in Hi as Hi'. split; [|split].
      * intros ->. tauto.
      * cbn [app]. intros Hf. exact (queues_disjoint N i HN Hf Hi).
      * apply I1. rewrite Hw. now right.
    + exists F1, F2. auto.
Qed.

(** ** Markup of the result *)

(** The markup of the result depends on the markup of the document
    alone, not on which objects its nodes are. *)
Lemma markup_expected_list cs :
  Forall (fun t => forall t', markup t = markup t' ->
                   map markup (expected t) = map markup (expected t')) cs ->
  forall cs', map markup cs = map markup cs' ->
              map markup (expectedL cs) = map markup (expectedL cs').
Proof.
  induction 1 as [|c cs Hc Hcs IH]; intros cs' E.
  - destruct cs'; [reflexivity | discriminate].
  - destruct cs' as [|c' cs']; [discriminate|]. cbn [map] in E. injection E as E1 E2.
    now rewrite !expectedL_cons, !map_app, (Hc c' E1), (IH cs' E2).
Qed.

Lemma markup_expected t :
  forall t', markup t = markup t' -> map markup (expected t) = map markup (expected t').
Proof.
  induction t as [i nm a cs IH | i d | i d] using node_induction;
    intros [i' nm' a' cs' | i' d' | i' d'] E; try discriminate.
  - cbn [markup] in E. injection E as <- <- E.
    pose proof (markup_expected_list cs IH cs' E) as Hl.
    rewrite !expected_Element.
    change (classify (Element i' nm a cs')) with (classify (Element i nm a cs)).
    destruct (classify (Element i nm a cs)).
    + cbn [map markup]. now rewrite Hl.
    + exact Hl.
    + reflexivity.
  - cbn [markup] in E. injection E as <-. cbn [expected].
    now rewrite !classify_Text.
  - cbn [markup] in E. injection E as <-. cbn [expected].
    now rewrite !classify_Comment.
Qed.

Lemma markup_expectedL l l' :
  map markup l = map markup l' -> map markup (expectedL l) = map markup (expectedL l').
Proof.
  apply markup_expected_list. apply Forall_forall. intros t _. apply markup_expected.
Qed.




(** The second call, on a string that parses to the markup of [out]. *)
Lemma sanitizeHtmlString_of_markup parseFromString innerHTML s out :
  NoDup (ids (parseFromString s)) ->
  map markup (childNodes (parseFromString s)) = map markup out ->
  exists out', sanitizeHtml (parseFromString s) = Normal out' /\
               sanitizeHtmlString parseFromString innerHTML s
               = Normal (innerHTML (map markup out')) /\
               map markup out' = map markup (expectedL out).
Proof.
  intros Hnd E. exists (expectedL (childNodes (parseFromString s))).
  split; [now apply sanitizeHtml_expected|]. split.
  - unfold sanitizeHtmlString. now rewrite (sanitizeHtml_expected _ Hnd).
  - now apply markup_expectedL.
Qed.

Lemma uniqueAttributes_children body :
  uniqueAttributes body ->
  Forall (fun x => NoDup (map fst (attributes x))) (subtreesL (childNodes body)).
Proof.
  unfold uniqueAttributes. rewrite !Forall_forall. intros Hu x Hx. apply Hu.
  destruct body as [i nm a cs | |]; [now right | destruct Hx | destruct Hx].
Qed.

(** ** From the second call on *)

Lemma filter_all {A : Type} (p : A -> bool) (l : list A) :
  (forall x, In x l -> p x = true) -> filter p l = l.
Proof.
  induction l as [|x l IH]; intros H; [reflexivity|]. simpl.
  rewrite (H x) by now left. f_equal. apply IH. intros y Hy. apply H. now right.
Qed.

Lemma setAttr_absent n v l : ~ In n (map fst l) -> setAttr n v l = l ++ [(n, v)].
Proof.
  induction l as [|[k w] l IH]; [reflexivity|]. simpl. intros H.
  destruct (String.eqb_spec k n) as [->|_]; [tauto|]. f_equal. apply IH. tauto.
Qed.

Lemma setAttr_unchanged n v l : getAttr n l = Some v -> setAttr n v l = l.
Proof.
  induction l as [|[k w] l IH]; [discriminate|]. simpl.
  destruct (String.eqb_spec k n) as [->|_]; [now intros [= ->]|].
  intros H. now rewrite (IH H).
Qed.

Lemma setAttr_app_in n v l l' :
  In n (map fst l) -> setAttr n v (l ++ l') = setAttr n v l ++ l'.
Proof.
  induction l as [|[k w] l IH]; [intros []|]. simpl.
  destruct (String.eqb_spec k n) as [->|Hk]; [reflexivity|].
  intros [H|H]; [congruence|]. now rewrite (IH H).
Qed.

Lemma in_setAttr n v l x : In x (setAttr n v l) -> x = (n, v) \/ In x l.
Proof.
  induction l as [|[k w] l IH]; simpl.
  - intros [<-|[]]. now left.
  - destruct (String.eqb_spec k n) as [->|_]; simpl.
    + intros [<-|H]; tauto.
    + intros [<-|H]; [tauto|]. destruct (IH H); tauto.
Qed.

Lemma getAttr_app n l l' :
  getAttr n (l ++ l') = match getAttr n l with Some v => Some v | None => getAttr n l' end.
Proof.
  induction l as [|[k w] l IH]; [reflexivity|]. simpl.
  destruct (String.eqb k n); [reflexivity | exact IH].
Qed.

Lemma getAttr_in_names n v l : getAttr n l = Some v -> In n (map fst l).
Proof. intros H. apply getAttr_In in H. now apply (in_map fst l (n, v)). Qed.

Lemma kept_anchor_stable nm M :
  toLowerCase nm = "a" ->
  NoDup (map fst M) ->
  (forall at_, In at_ M -> isUnwanted "a" at_ = false) ->
  getAttr "rel" M = Some "external noopener noreferrer" ->
  forcesLinkAttributes "a" M = true ->
  ~ In "target" (map fst M) ->
  keptAttributes nm (M ++ [("target", "_blank")]) = M ++ [("target", "_blank")].
Proof.
  intros Htag Hnd Hk Hrel Hf Ht. unfold keptAttributes. rewrite Htag.
  assert (Hnd' : NoDup (map fst (M ++ [("target", "_blank")]))).
  { rewrite <- (setAttr_absent "target" "_blank" M Ht). now apply NoDup_names_setAttr. }
  rewrite (strippedAttributes_filter "a" _ Hnd'), filter_app.
  rewrite filter_all by (intros x Hx; now rewrite (Hk x Hx)).
  cbn [filter]. rewrite isUnwanted_target. cbn [negb]. rewrite app_nil_r.
  unfold normalizedAttributes. rewrite Hf, (setAttr_absent "target" "_blank" M Ht).
  apply setAttr_unchanged. now rewrite getAttr_app, Hrel.
Qed.

Lemma kept_anchor_twice nm a :
  toLowerCase nm = "a" ->
  NoDup (map fst a) ->
  forcesLinkAttributes "a" (strippedAttributes "a" a) = true ->
  exists M,
    keptAttributes nm (keptAttributes nm a) = M ++ [("target", "_blank")] /\
    NoDup (map fst M) /\
    (forall at_, In at_ M -> isUnwanted "a" at_ = false) /\
    getAttr "rel" M = Some "external noopener noreferrer" /\
    forcesLinkAttributes "a" M = true /\
    ~ In "target" (map fst M).
Proof.
  intros Htag Hnd Hforce.
  set (R := "external noopener noreferrer").
  set (L := strippedAttributes "a" a) in *.
  assert (HL : L = filter (fun at_ => negb (isUnwanted "a" at_)) a)
    by (apply strippedAttributes_filter; exact Hnd).
  assert (HLn : NoDup (map fst L)) by (rewrite HL; now apply NoDup_names_filter).
  assert (HLk : forall at_, In at_ L -> isUnwanted "a" at_ = false).
  { intros x Hx. rewrite HL in Hx. apply filter_In in Hx.
    destruct Hx as [_ Hx]. now destruct (isUnwanted "a" x). }
  assert (HLt : ~ In "target" (map fst L)).
  { intros Hin. apply in_map_iff in Hin. destruct Hin as [[k v] [E Hx]].
    simpl in E. subst k. apply HLk in Hx. rewrite isUnwanted_target in Hx. discriminate. }
  set (M := setAttr "rel" R L).
  assert (HMn : NoDup (map fst M)) by (now apply NoDup_names_setAttr).
  assert (HMk : forall at_, In at_ M -> isUnwanted "a" at_ = false).
  { intros x Hx. destruct (in_setAttr _ _ _ _ Hx) as [->|Hx']; [reflexivity | auto]. }
  assert (HMr : getAttr "rel" M = Some R) by apply getAttr_setAttr_same.
  assert (HMf : forcesLinkAttributes "a" M = true).
  { rewrite forces_anchor in *. unfold M.
    now rewrite getAttr_setAttr_other by discriminate. }
  assert (HMt : ~ In "target" (map fst M)).
  { intros Hin. destruct (in_names_setAttr _ _ _ _ Hin); [discriminate | tauto]. }
  exists M. split; [|auto 10].
  assert (HA : keptAttributes nm a = setAttr "rel" R (L ++ [("target", "_blank")])).
  { unfold keptAttributes, normalizedAttributes. rewrite Htag. fold L.
    rewrite Hforce. now rewrite (setAttr_absent "target" "_blank" L HLt). }
  destruct (getAttr "rel" L) as [r|] eqn:Er.
  - rewrite HA, setAttr_app_in by (now apply (getAttr_in_names "rel" r)).
    fold M. now apply kept_anchor_stable.
  - assert (Hrn : ~ In "rel" (map fst L)).
    { intros Hin. apply in_map_iff in Hin. destruct Hin as [[k v] [E Hx]].
      simpl in E. subst k. apply (In_getAttr _ _ _ HLn) in Hx. congruence. }
    assert (HM : M = L ++ [("rel", R)]) by (now apply setAttr_absent).
    assert (HA' : keptAttributes nm a = L ++ [("target", "_blank"); ("rel", R)]).
    { rewrite HA, setAttr_absent.
      - now rewrite <- app_assoc.
      - rewrite map_app, in_app_iff. simpl.
        intros [Hin|[Hin|[]]]; [tauto | discriminate]. }
    assert (HAn : NoDup (map fst (keptAttributes nm a)))
      by (now apply keptAttributes_twice).
    unfold keptAttributes at 1. rewrite Htag.
    rewrite (strippedAttributes_filter "a" _ HAn), HA', filter_app.
    rewrite filter_all by (intros x Hx; now rewrite (HLk x Hx)).
    cbn [filter]. rewrite isUnwanted_target. cbn [negb].
    change (negb (isUnwanted "a" ("rel", R))) with true. cbv iota.
    transitivity (normalizedAttributes "a" M); [now rewrite HM|].
    unfold normalizedAttributes. rewrite HMf.
    rewrite (setAttr_absent "target" "_blank" M HMt).
    apply setAttr_unchanged. now rewrite getAttr_app, HMr.
Qed.

(** A third pass over the attributes changes nothing. *)
Lemma keptAttributes_thrice nm a :
  NoDup (map fst a) ->
  keptAttributes nm (keptAttributes nm (keptAttributes nm a)) =
  keptAttributes nm (keptAttributes nm a).
Proof.
  intros Hnd.
  destruct (forcesLinkAttributes (toLowerCase nm) (strippedAttributes (toLowerCase nm) a))
    eqn:Hforce.
  - assert (Htag : toLowerCase nm = "a").
    { unfold forcesLinkAttributes in Hforce.
      destruct (String.eqb_spec "a" (toLowerCase nm)) as [E|_]; [now rewrite E | discriminate]. }
    rewrite Htag in Hforce.
    destruct (kept_anchor_twice nm a Htag Hnd Hforce) as [M [E [H1 [H2 [H3 [H4 H5]]]]]].
    rewrite E. now apply kept_anchor_stable.
  - assert (HK : keptAttributes nm a = strippedAttributes (toLowerCase nm) a).
    { unfold keptAttributes, normalizedAttributes. now rewrite Hforce. }
    assert (HK2 : keptAttributes nm (keptAttributes nm a) = keptAttributes nm a).
    { rewrite HK at 2. rewrite HK. unfold keptAttributes at 1.
      rewrite (strippedAttributes_filter _ a Hnd) at 1.
      rewrite strippedAttributes_filter by (now apply NoDup_names_filter).
      rewrite filter_idem. rewrite <- (strippedAttributes_filter _ a Hnd).
      unfold normalizedAttributes. now rewrite Hforce. }
    now rewrite !HK2.
Qed.

Lemma expected_thrice_list cs :
  Forall (fun t => uniqueAttributes t ->
                   expectedL (expectedL (expected t)) = expectedL (expected t)) cs ->
  Forall (fun x => NoDup (map fst (attributes x))) (subtreesL cs) ->
  expectedL (expectedL (expectedL cs)) = expectedL (expectedL cs).
Proof.
  intros IH Hu. induction IH as [|c cs Hc Hcs IHcs]; [reflexivity|].
  rewrite expectedL_cons, !expectedL_app, Hc, IHcs; [reflexivity| |].
  - unfold subtreesL in *. cbn [flat_map] in Hu. now apply Forall_app in Hu.
  - apply (uniqueAttributes_child c (c :: cs) Hu). now left.
Qed.

Lemma expected_thrice t :
  uniqueAttributes t ->
  expectedL (expectedL (expected t)) = expectedL (expected t).
Proof.
  induction t as [i nm a cs IH | i d | i d] using node_induction; intros Hu.
  - unfold uniqueAttributes in Hu. cbn [subtrees] in Hu.
    apply Forall_cons_iff in Hu. destruct Hu as [Ha Hcs]. cbn [attributes] in Ha.
    pose proof (expected_thrice_list cs IH Hcs) as Hl.
    rewrite expected_Element. destruct (classify (Element i nm a cs)) eqn:Hk.
    + pose proof (classify_kept_stable i nm a cs (expectedL cs) Hk) as Hk2.
      pose proof (classify_kept_stable i nm _ _ (expectedL (expectedL cs)) Hk2) as Hk3.
      assert (E2 : expectedL [Element i nm (keptAttributes nm a) (expectedL cs)] =
                   [Element i nm (keptAttributes nm (keptAttributes nm a))
                            (expectedL (expectedL cs))]).
      { rewrite expectedL_cons, expected_Element, Hk2. apply app_nil_r. }
      rewrite E2, expectedL_cons, expected_Element, Hk3.
      cbn [expectedL flat_map app].
      fold (expectedL (expectedL (expectedL cs))).
      now rewrite Hl, (keptAttributes_thrice nm a Ha).
    + exact Hl.
    + reflexivity.
  - cbn [expected]. rewrite classify_Text. reflexivity.
  - cbn [expected]. rewrite classify_Comment. reflexivity.
Qed.

(** X11: from the second call on the sanitizer returns its argument:
    for a well-formed document, when the string a call returns parses
    back to the markup it was printed from (which the first two calls
    need), the third call returns the string the second returned. *)
Theorem sanitize_thrice_is_twice parseFromString innerHTML content :
  wellFormed (parseFromString content) ->
  exists out1,
    sanitizeHtml (parseFromString content) = Normal out1 /\
    sanitizeHtmlString parseFromString innerHTML content
    = Normal (innerHTML (map markup out1)) /\
    (NoDup (ids (parseFromString (innerHTML (map markup out1)))) ->
     map markup (childNodes (parseFromString (innerHTML (map markup out1))))
     = map markup out1 ->
     exists out2,
       sanitizeHtml (parseFromString (innerHTML (map markup out1))) = Normal out2 /\
       sanitizeHtmlString parseFromString innerHTML (innerHTML (map markup out1))
       = Normal (innerHTML (map markup out2)) /\
       (NoDup (ids (parseFromString (innerHTML (map markup out2)))) ->
        map markup (childNodes (parseFromString (innerHTML (map markup out2))))
        = map markup out2 ->
        sanitizeHtmlString parseFromString innerHTML (innerHTML (map markup out2))
        = Normal (innerHTML (map markup out2)))).
Proof.
  intros [Hnd Hu]. set (c1 := childNodes (parseFromString content)).
  pose proof (sanitizeHtml_expected _ Hnd) as H1. fold c1 in H1.
  exists (expectedL c1). split; [exact H1|]. split.
  { unfold sanitizeHtmlString. now rewrite H1. }
  intros N2 R2.
  destruct (sanitizeHtmlString_of_markup _ innerHTML _ _ N2 R2) as [out2 [T2 [H2 M2]]].
  exists out2. split; [exact T2|]. split; [exact H2|]. intros N3 R3.
  destruct (sanitizeHtmlString_of_markup _ innerHTML _ _ N3 R3) as [out3 [_ [H3 M3]]].
  rewrite H3. f_equal. f_equal. rewrite M3.
  rewrite (markup_expectedL out2 (expectedL (expectedL c1)) M2), M2.
  f_equal. apply expected_thrice_list.
  - apply Forall_forall. intros t _. apply expected_thrice.
  - now apply uniqueAttributes_children.
Qed.

(** ** Tag names, whatever their case *)

Lemma lowerChar_twice c : lowerChar (lowerChar c) = lowerChar c.
Proof. destruct c as [[] [] [] [] [] [] [] []]; reflexivity. Qed.

Lemma lowerChar_kelvin c :
  Ascii.eqb (lowerChar c) (ascii_of_nat 226) = Ascii.eqb c (ascii_of_nat 226) /\
  Ascii.eqb (lowerChar c) (ascii_of_nat 132) = Ascii.eqb c (ascii_of_nat 132) /\
  Ascii.eqb (lowerChar c) (ascii_of_nat 170) = Ascii.eqb c (ascii_of_nat 170).
Proof. destruct c as [[] [] [] [] [] [] [] []]; repeat split; reflexivity. Qed.

Lemma isKelvinSign_lowered c c2 c3 :
  isKelvinSign (lowerChar c) (lowerChar c2) (lowerChar c3) = isKelvinSign c c2 c3.
Proof.
  unfold isKelvinSign.
  destruct (lowerChar_kelvin c) as [-> _].
  destruct (lowerChar_kelvin c2) as [_ [-> _]].
  destruct (lowerChar_kelvin c3) as [_ [_ ->]]. reflexivity.
Qed.

Lemma isKelvinSign_second_k c c3 : isKelvinSign c "k" c3 = false.
Proof. unfold isKelvinSign. cbn. now rewrite andb_false_r. Qed.

Lemma isKelvinSign_third_k c c2 : isKelvinSign c c2 "k" = false.
Proof. unfold isKelvinSign. cbn. now rewrite andb_false_r. Qed.

Lemma toLowerCase_cons c s :
  toLowerCase (String c s) =
  match s with
  | String c2 (String c3 s3) =>
      if isKelvinSign c c2 c3 then String "k" (toLowerCase s3)
      else String (lowerChar c) (toLowerCase s)
  | _ => String (lowerChar c) (toLowerCase s)
  end.
Proof. reflexivity. Qed.

(** No lowered string has the bytes of the Kelvin sign after a lowered
    byte, unless the string had them there. *)
Lemma toLowerCase_head c s :
  match s with
  | String c2 (String c3 _) => isKelvinSign c c2 c3 = false
  | _ => True
  end ->
  match toLowerCase s with
  | String d2 (String d3 _) => isKelvinSign (lowerChar c) d2 d3 = false
  | _ => True
  end.
Proof.
  destruct s as [|c2 [|c3 s3]]; try exact (fun _ => I). intros K.
  rewrite toLowerCase_cons.
  destruct s3 as [|c4 s4].
  - cbn [toLowerCase]. now rewrite isKelvinSign_lowered.
  - destruct (isKelvinSign c2 c3 c4).
    + destruct (toLowerCase s4); [exact I | apply isKelvinSign_second_k].
    + rewrite toLowerCase_cons. destruct s4 as [|c5 s5].
      * now rewrite isKelvinSign_lowered.
      * destruct (isKelvinSign c3 c4 c5).
        -- apply isKelvinSign_third_k.
        -- now rewrite isKelvinSign_lowered.
Qed.

Lemma toLowerCase_step c s :
  match s with
  | String c2 (String c3 _) => isKelvinSign c c2 c3 = false
  | _ => True
  end ->
  toLowerCase (String c s) = String (lowerChar c) (toLowerCase s).
Proof.
  intros K. rewrite toLowerCase_cons. destruct s as [|c2 [|c3 s3]]; try reflexivity.
  now rewrite K.
Qed.

Lemma toLowerCase_twice_upto n :
  forall s, (String.length s <= n)%nat -> toLowerCase (toLowerCase s) = toLowerCase s.
Proof.
  induction n as [|n IH]; intros s Hs.
  - destruct s; [reflexivity | simpl in Hs; lia].
  - destruct s as [|c s]; [reflexivity|]. cbn [String.length] in Hs.
    assert (K : (exists c2 c3 s3, s = String c2 (String c3 s3) /\ isKelvinSign c c2 c3 = true)
                \/ match s with
                   | String c2 (String c3 _) => isKelvinSign c c2 c3 = false
                   | _ => True
                   end).
    { destruct s as [|c2 [|c3 s3]]; auto.
      destruct (isKelvinSign c c2 c3) eqn:E; [left; eauto | now right]. }
    destruct K as [[c2 [c3 [s3 [-> K]]]]|K].
    + rewrite toLowerCase_cons, K. cbn [String.length] in Hs.
      rewrite toLowerCase_step.
      * rewrite (IH s3) by lia. reflexivity.
      * destruct (toLowerCase s3) as [|d2 [|d3 t]]; auto.
    + rewrite (toLowerCase_step c s K).
      rewrite (toLowerCase_step _ _ (toLowerCase_head c s K)).
      rewrite lowerChar_twice, (IH s) by lia. reflexivity.
Qed.

Lemma toLowerCase_twice s : toLowerCase (toLowerCase s) = toLowerCase s.
Proof. apply (toLowerCase_twice_upto (String.length s)). lia. Qed.

Lemma nid_lowerTags n : nid (lowerTags n) = nid n.
Proof. now destruct n. Qed.

Lemma classify_lowerTags i nm a cs cs' :
  classify (Element i (toLowerCase nm) a cs') = classify (Element i nm a cs).
Proof.
  unfold classify, isForbidden, isAllowedTag. cbn [nodeName attributes].
  now rewrite toLowerCase_twice.
Qed.

Lemma keptAttributes_lowerTags nm a :
  keptAttributes (toLowerCase nm) a = keptAttributes nm a.
Proof. unfold keptAttributes. now rewrite toLowerCase_twice. Qed.

Lemma ids_lowerTags n : ids (lowerTags n) = ids n.
Proof.
  induction n as [i nm a cs IH | i d | i d] using node_induction; try reflexivity.
  cbn [lowerTags]. rewrite !ids_Element. f_equal.
  induction IH as [|c cs Hc Hcs IHcs]; [reflexivity|].
  cbn [map]. now rewrite !idsL_cons, Hc, IHcs.
Qed.

Lemma expected_lowerTags_list cs :
  Forall (fun t => expected (lowerTags t) = map lowerTags (expected t)) cs ->
  expectedL (map lowerTags cs) = map lowerTags (expectedL cs).
Proof.
  induction 1 as [|c cs Hc Hcs IH]; [reflexivity|].
  cbn [map]. now rewrite !expectedL_cons, map_app, Hc, IH.
Qed.

Lemma expected_lowerTags t : expected (lowerTags t) = map lowerTags (expected t).
Proof.
  induction t as [i nm a cs IH | i d | i d] using node_induction.
  - pose proof (expected_lowerTags_list cs IH) as Hl.
    cbn [lowerTags]. rewrite !expected_Element.
    rewrite (classify_lowerTags i nm a cs (map lowerTags cs)).
    destruct (classify (Element i nm a cs)).
    + cbn [map lowerTags]. now rewrite keptAttributes_lowerTags, Hl.
    + exact Hl.
    + reflexivity.
  - cbn [lowerTags expected]. rewrite classify_Text. reflexivity.
  - cbn [lowerTags expected]. rewrite classify_Comment. reflexivity.
Qed.

(** X12: tag names count through their lower-case form only: with every
    tag name of the document put in lower case the sanitizer returns the
    same tree, the tag names in lower case apart. *)
Theorem tag_case_is_immaterial body :
  NoDup (ids body) ->
  exists out,
    sanitizeHtml body = Normal out /\
    sanitizeHtml (lowerTags body) = Normal (map lowerTags out).
Proof.
  intros Hnd. exists (expectedL (childNodes body)).
  split; [now apply sanitizeHtml_expected|].
  rewrite sanitizeHtml_expected by (now rewrite ids_lowerTags).
  f_equal. destruct body as [i nm a cs | i d | i d]; try reflexivity.
  cbn [lowerTags childNodes]. apply expected_lowerTags_list.
  apply Forall_forall. intros t _. apply expected_lowerTags.
Qed.

(** ** The order of the nodes *)

Lemma subsequence_none l : subsequence [] l.
Proof. induction l; now constructor. Qed.

Lemma subsequence_app l1' l1 l2' l2 :
  subsequence l1' l1 -> subsequence l2' l2 -> subsequence (l1' ++ l2') (l1 ++ l2).
Proof. induction 1; intros H2; simpl; auto; now constructor; auto. Qed.

Lemma subsequence_expected_list cs :
  Forall (fun t => subsequence (idsL (expected t)) (ids t)) cs ->
  subsequence (idsL (expectedL cs)) (idsL cs).
Proof.
  induction 1 as [|c cs Hc Hcs IH]; [constructor|].
  rewrite expectedL_cons, idsL_app, idsL_cons. now apply subsequence_app.
Qed.

Lemma subsequence_expected t : subsequence (idsL (expected t)) (ids t).
Proof.
  induction t as [i nm a cs IH | i d | i d] using node_induction.
  - pose proof (subsequence_expected_list cs IH) as Hl.
    rewrite expected_Element, ids_Element. destruct (classify _).
    + rewrite idsL_cons, ids_Element, idsL_nil, app_nil_r.
      now apply subsequence_take.
    + now apply subsequence_skip.
    + apply subsequence_none.
  - cbn [expected]. rewrite classify_Text. apply subsequence_take, subsequence_nil.
  - cbn [expected]. rewrite classify_Comment. apply subsequence_none.
Qed.

(** X13: the nodes of the result stand in the order they had in the
    document: read in document order, the result is what the tree walker
    yielded with some nodes left out, never a reordering. *)
Theorem result_keeps_document_order body :
  NoDup (ids body) ->
  exists out,
    sanitizeHtml body = Normal out /\
    subsequence (idsL out) (walkOrder body).
Proof.
  intros Hnd. exists (expectedL (childNodes body)).
  split; [now apply sanitizeHtml_expected|].
  apply subsequence_expected_list, Forall_forall. intros t _. apply subsequence_expected.
Qed.

(** ** The two tag tests *)

(** X14: no tag is forbidden and allowed at once, whatever its case and
    its attributes; so the walk keeps a node exactly when [isAllowedTag]
    accepts it, and the order of its two tests is immaterial. *)
Theorem forbidden_and_allowed_exclusive n :
  isForbidden n && isAllowedTag n = false /\
  (classify n = Keep <-> isAllowedTag n = true).
Proof.
  assert (H : isForbidden n && isAllowedTag n = false).
  { unfold isForbidden, isAllowedTag. set (t := toLowerCase (nodeName n)).
    destruct (oneOf t forbiddenTags) eqn:E; [|reflexivity].
    unfold oneOf in E. apply existsb_exists in E. destruct E as [x [Hin He]].
    apply String.eqb_eq in He. subst x. cbn [andb]. clearbody t.
    unfold forbiddenTags in Hin. cbn [In] in Hin.
    repeat (destruct Hin as [<-|Hin]; [reflexivity|]). destruct Hin. }
  split; [exact H|]. unfold classify.
  destruct (isForbidden n), (isAllowedTag n); split; intros E;
    try discriminate; reflexivity.
Qed.

(** ** Where a node of the result comes from *)

Lemma same_node (l : list node) x x' :
  NoDup (map nid l) -> In x l -> In x' l -> nid x = nid x' -> x = x'.
Proof.
  induction l as [|c l IH]; intros Hnd Hx Hx' E; [destruct Hx|].
  cbn [map] in Hnd. apply NoDup_cons_iff in Hnd. destruct Hnd as [Hc Hnd].
  destruct Hx as [->|Hx], Hx' as [->|Hx']; auto.
  - exfalso. apply Hc. rewrite E. now apply in_map.
  - exfalso. apply Hc. rewrite <- E. now apply in_map.
Qed.

Lemma NoDup_subtree_list cs :
  Forall (fun t => forall x, NoDup (ids t) -> In x (subtrees t) -> NoDup (ids x)) cs ->
  forall x, NoDup (idsL cs) -> In x (subtreesL cs) -> NoDup (ids x).
Proof.
  induction 1 as [|c cs Hc Hcs IH]; intros x Hnd Hx; [destruct Hx|].
  rewrite idsL_cons in Hnd. destruct (NoDup_app_inv _ _ Hnd) as [H1 [H2 _]].
  unfold subtreesL in Hx. cbn [flat_map] in Hx. apply in_app_or in Hx.
  destruct Hx as [Hx|Hx]; [now apply (Hc x) | now apply IH].
Qed.

Lemma NoDup_subtree t x : NoDup (ids t) -> In x (subtrees t) -> NoDup (ids x).
Proof.
  revert x. induction t as [i nm a cs IH | i d | i d] using node_induction;
    intros x Hnd Hx.
  - destruct Hx as [<-|Hx]; [exact Hnd|].
    rewrite ids_Element in Hnd. apply NoDup_cons_iff in Hnd.
    now apply (NoDup_subtree_list cs IH x).
  - destruct Hx as [<-|[]]. exact Hnd.
  - destruct Hx as [<-|[]]. exact Hnd.
Qed.

(** What a kept node becomes. *)
Lemma result_source_list cs :
  Forall (fun t => forall y, In y (subtreesL (expected t)) ->
                   exists x, In x (subtrees t) /\ classify x = Keep /\
                             nid y = nid x /\ nodeName y = nodeName x /\
                             attributes y = match x with
                                            | Element _ nm a _ => keptAttributes nm a
                                            | _ => []
                                            end /\
                             childNodes y = expectedL (childNodes x)) cs ->
  forall y, In y (subtreesL (expectedL cs)) ->
            exists x, In x (subtreesL cs) /\ classify x = Keep /\
                      nid y = nid x /\ nodeName y = nodeName x /\
                      attributes y = match x with
                                     | Element _ nm a _ => keptAttributes nm a
                                     | _ => []
                                     end /\
                      childNodes y = expectedL (childNodes x).
Proof.
  induction 1 as [|c cs Hc Hcs IH]; intros y Hy; [destruct Hy|].
  rewrite expectedL_cons, subtreesL_app in Hy. apply in_app_or in Hy.
  unfold subtreesL at 1. cbn [flat_map]. destruct Hy as [Hy|Hy].
  - destruct (Hc y Hy) as [x [Hx Hk]]. exists x. split; [|exact Hk].
    apply in_or_app. now left.
  - destruct (IH y Hy) as [x [Hx Hk]]. exists x. split; [|exact Hk].
    apply in_or_app. now right.
Qed.

Lemma result_source t y :
  In y (subtreesL (expected t)) ->
  exists x, In x (subtrees t) /\ classify x = Keep /\
            nid y = nid x /\ nodeName y = nodeName x /\
            attributes y = match x with
                           | Element _ nm a _ => keptAttributes nm a
                           | _ => []
                           end /\
            childNodes y = expectedL (childNodes x).
Proof.
  revert y. induction t as [i nm a cs IH | i d | i d] using node_induction; intros y Hy.
  - rewrite expected_Element in Hy.
    destruct (classify (Element i nm a cs)) eqn:Hk.
    + unfold subtreesL in Hy. cbn [flat_map subtrees] in Hy. rewrite app_nil_r in Hy.
      destruct Hy as [<-|Hy].
      * exists (Element i nm a cs). split; [now left|]. split; [exact Hk|].
        cbn. auto.
      * destruct (result_source_list cs IH y Hy) as [x [Hx Hf]].
        exists x. split; [now right | exact Hf].
    + destruct (result_source_list cs IH y Hy) as [x [Hx Hf]].
      exists x. split; [now right | exact Hf].
    + destruct Hy.
  - cbn [expected] in Hy. rewrite classify_Text in Hy. destruct Hy as [<-|[]].
    exists (Text i d). split; [now left|]. split; [apply classify_Text|]. cbn. auto.
  - cbn [expected] in Hy. rewrite classify_Comment in Hy. destruct Hy.
Qed.

(** The node of the result that has the identity of a node [x] of the
    document is [x] with its attributes filtered and normalized, around
    the result for its children. *)
Lemma result_of_node body out x y :
  NoDup (ids body) -> sanitizeHtml body = Normal out ->
  In x (subtreesL (childNodes body)) -> In y (subtreesL out) -> nid y = nid x ->
  classify x = Keep /\ nodeName y = nodeName x /\
  attributes y = match x with
                 | Element _ nm a _ => keptAttributes nm a
                 | _ => []
                 end /\
  sanitizeHtml x = Normal (childNodes y).
Proof.
  intros Hnd Hs Hx Hy E.
  rewrite (sanitizeHtml_expected body Hnd) in Hs. injection Hs as <-.
  assert (Hl : NoDup (idsL (childNodes body))).
  { rewrite ids_childNodes in Hnd. now apply NoDup_cons_iff in Hnd. }
  assert (R : forall y, In y (subtreesL (expectedL (childNodes body))) ->
                        exists x, In x (subtreesL (childNodes body)) /\ classify x = Keep /\
                                  nid y = nid x /\ nodeName y = nodeName x /\
                                  attributes y = match x with
                                                 | Element _ nm a _ => keptAttributes nm a
                                                 | _ => []
                                                 end /\
                                  childNodes y = expectedL (childNodes x)).
  { apply result_source_list. apply Forall_forall. intros t _ y'. apply result_source. }
  destruct (R y Hy) as [x' [Hx' [Hk [Hi [Hn [Ha Hc]]]]]].
  assert (Ex : x' = x).
  { apply (same_node (subtreesL (childNodes body))); auto. congruence. }
  subst x'. repeat split; auto.
  rewrite Hc. apply sanitizeHtml_expected.
  assert (Hb : In x (subtrees body)).
  { destruct body as [b bn ba bcs | |]; [now right | destruct Hx | destruct Hx]. }
  now apply (NoDup_subtree body).
Qed.

(** A kept node at a place below no forbidden element is in the result. *)
Lemma present_in_place z :
  forall l k, notBelowForbidden z = true ->
              In k (idsL (expectedL l)) -> In k (idsL (expectedL (plug z l))).
Proof.
  induction z as [|fr z IH]; intros l k Hz Hk; [exact Hk|].
  cbn [notBelowForbidden forallb] in Hz. apply andb_prop in Hz.
  destruct Hz as [Hf Hz]. rewrite plug_cons. apply IH; [exact Hz|].
  destruct fr as [pre post | j nm a]; cbn [fill].
  - rewrite !expectedL_app, !idsL_app, !in_app_iff. auto.
  - rewrite expectedL_cons, expected_Element. unfold classify.
    change (isForbidden (Element j nm a l)) with (isForbidden (Element j nm a [])).
    apply negb_true_iff in Hf. rewrite Hf.
    destruct (isAllowedTag (Element j nm a l)).
    + cbn [expectedL flat_map app]. rewrite idsL_cons, ids_Element, idsL_nil, app_nil_r.
      now right.
    + cbn [expectedL flat_map]. now rewrite app_nil_r.
Qed.

Lemma kept_present x : classify x = Keep -> In (nid x) (idsL (expectedL [x])).
Proof.
  intros Hk. rewrite expectedL_cons. cbn [expectedL flat_map]. rewrite app_nil_r.
  destruct x as [i nm a cs | i d | i d].
  - rewrite expected_Element, Hk. rewrite idsL_cons, ids_Element. now left.
  - cbn [expected]. rewrite Hk. now left.
  - rewrite classify_Comment in Hk. discriminate.
Qed.

Lemma kept_is_in_result b bn ba z x :
  classify x = Keep -> notBelowForbidden z = true ->
  NoDup (ids (Element b bn ba (plug z [x]))) ->
  exists out, sanitizeHtml (Element b bn ba (plug z [x])) = Normal out /\
              In (nid x) (idsL out).
Proof.
  intros Hk Hz Hnd. exists (expectedL (plug z [x])).
  split; [now rewrite (sanitizeHtml_expected _ Hnd)|].
  apply present_in_place; [exact Hz | now apply kept_present].
Qed.

(** The attributes of a kept element, name by name. *)
Lemma kept_attribute_table nm a name :
  NoDup (map fst a) ->
  getAttr name (keptAttributes nm a) =
  if String.eqb "a" (toLowerCase nm) &&
     match getAttr "href" a with
     | Some href => negb (startsWith "mailto:" href)
     | None => false
     end
  then if String.eqb "rel" name then Some "external noopener noreferrer"
       else if String.eqb "target" name then Some "_blank"
       else filteredAttr (toLowerCase nm) a name
  else filteredAttr (toLowerCase nm) a name.
Proof.
  intros Hu. unfold keptAttributes, normalizedAttributes.
  rewrite (strippedAttributes_filter _ a Hu), (forces_of_filtered _ a Hu).
  assert (Hl : forall n, getAttr n (filter (fun at_ => negb (isUnwanted (toLowerCase nm) at_)) a)
                       = filteredAttr (toLowerCase nm) a n).
  { intros n. rewrite getAttr_filter by exact Hu. unfold filteredAttr.
    destruct (getAttr n a) as [v|]; [|reflexivity].
    now destruct (isUnwanted (toLowerCase nm) (n, v)). }
  destruct (String.eqb "a" (toLowerCase nm) && _); [|apply Hl].
  rewrite !getAttr_setAttr, Hl. reflexivity.
Qed.

Lemma anchor_is_element x :
  toLowerCase (nodeName x) = "a" -> exists i nm a cs, x = Element i nm a cs.
Proof. destruct x as [i nm a cs | i d | i d]; [eauto | discriminate | discriminate]. Qed.

(** * The claims *)

(** C1 (the code departs from it): the attribute filter asks
    [isAllowedAttr] first, and [isAllowedAttr] allows [src] on [img] and
    [href] on [a] whatever the value: neither validator is consulted.
    For the input [<img src="javascript:alert(1)">] the sanitizer returns
    the tag with its [src] in place. *)
Theorem img_src_javascript_survives :
  (forall value, isUnwanted "img" ("src", value) = false) /\
  (forall value, isUnwanted "a" ("href", value) = false) /\
  sanitizeHtml (Element 0 "BODY" [] [Element 1 "IMG" [("src", "javascript:alert(1)")] []])
  = Normal [Element 1 "IMG" [("src", "javascript:alert(1)")] []].
Proof.
  split; [|split]; try reflexivity.
Qed.

(** C2: when the document holds an element whose tag, lower-cased, is
    one of head, html, iframe, link, meta, object, script, style, the
    sanitizer returns, and neither that element nor any node of its
    subtree is a node of the result, whatever the descendants are. *)
Theorem forbidden_subtree_never_in_output body x m :
  NoDup (ids body) ->
  In x (subtreesL (childNodes body)) ->
  In (toLowerCase (nodeName x)) forbiddenTags ->
  In m (subtrees x) ->
  exists out, sanitizeHtml body = Normal out /\ ~ In (nid m) (idsL out).
Proof.
  intros Hnd Hx Hf Hm. exists (expectedL (childNodes body)).
  split; [now apply sanitizeHtml_expected|].
  apply (forbidden_absentL (childNodes body)) with (x := x); auto.
  - rewrite ids_childNodes in Hnd. now apply NoDup_cons_iff in Hnd.
  - unfold isForbidden. now apply in_oneOf.
Qed.

(** C5: a node that is neither forbidden nor allowed is unwrapped
    wherever it stands in the document: the sanitizer returns what it
    returns for the document that has the children of the node, in
    their order, in the place of the node, and the node itself is not
    in the result.  The nodes of the result stand in the order of the
    document that has the children in the place of the node, and when
    the place is below no forbidden element every child that is a kept
    node is in the result.  For an unknown node among the children of
    [body], the result is the result for the nodes before it, then the
    result for its children, then the result for the nodes after it.
    [<marquee>hello</marquee>] gives [hello], and
    [<p>one<marquee>two<b>three</b></marquee>four</p>] gives
    [<p>onetwo<b>three</b>four</p>]. *)
Theorem unknown_tag_unwrapped b nm a z x :
  isForbidden x = false ->
  isAllowedTag x = false ->
  NoDup (ids (Element b nm a (plug z [x]))) ->
  sanitizeHtml (Element b nm a (plug z [x])) =
  sanitizeHtml (Element b nm a (plug z (childNodes x))) /\
  (exists out, sanitizeHtml (Element b nm a (plug z [x])) = Normal out /\
               ~ In (nid x) (idsL out)) /\
  sanitizeHtml (Element 0 "BODY" [] [Element 1 "MARQUEE" [] [Text 2 "hello"]])
  = Normal [Text 2 "hello"] /\
  (exists out,
      sanitizeHtml (Element b nm a (plug z [x])) = Normal out /\
      subsequence (idsL out) (idsL (plug z (childNodes x))) /\
      (notBelowForbidden z = true ->
       forall c, In c (childNodes x) ->
                 isForbidden c = false -> isAllowedTag c = true ->
                 In (nid c) (idsL out))) /\
  (forall pre post,
      z = [Sib pre post] ->
      exists o1 o2 o3,
        sanitizeHtml (Element b nm a pre) = Normal o1 /\
        sanitizeHtml (Element b nm a (childNodes x)) = Normal o2 /\
        sanitizeHtml (Element b nm a post) = Normal o3 /\
        sanitizeHtml (Element b nm a (pre ++ [x] ++ post)) = Normal (o1 ++ o2 ++ o3)) /\
  sanitizeHtml
    (Element 0 "BODY" []
       [Element 1 "P" []
          [Text 2 "one";
           Element 3 "MARQUEE" [] [Text 4 "two"; Element 5 "B" [] [Text 6 "three"]];
           Text 7 "four"]])
  = Normal [Element 1 "P" []
              [Text 2 "one"; Text 4 "two"; Element 5 "B" [] [Text 6 "three"];
               Text 7 "four"]].
Proof.
  intros Hf Ha Hnd.
  assert (Hu : classify x = Unwrap) by (unfold classify; now rewrite Hf, Ha).
  destruct (unwrap_anywhere b nm a z x Hu Hnd) as [H1 H2].
  split; [exact H1|]. split; [|split; [reflexivity|split; [|split; [|reflexivity]]]].
  - exists (expectedL (plug z (childNodes x))). split; [exact H2|].
    intros Hin. apply ids_expectedL in Hin.
    rewrite ids_Element in Hnd. apply NoDup_cons_iff in Hnd. destruct Hnd as [_ Hnd].
    apply (Permutation_NoDup (idsL_plug z [x])) in Hnd.
    rewrite idsL_cons, idsL_nil, app_nil_r in Hnd.
    destruct (at_place z x Hnd) as [Hz [Hc _]].
    apply (Permutation_in _ (idsL_plug z (childNodes x))) in Hin.
    apply in_app_or in Hin. tauto.
  - exists (expectedL (plug z (childNodes x))). split; [exact H2|]. split.
    + apply subsequence_expected_list, Forall_forall. intros t _.
      apply subsequence_expected.
    + intros Hz c Hc Hcf Hca.
      destruct (in_split c (childNodes x) Hc) as [l1 [l2 ->]].
      change (plug z (l1 ++ c :: l2)) with (plug (Sib l1 l2 :: z) [c]).
      apply present_in_place; [exact Hz|].
      apply kept_present. unfold classify. now rewrite Hcf, Hca.
  - intros pre post ->. cbn [plug fold_left fill] in *.
    exists (expectedL pre), (expectedL (childNodes x)), (expectedL post).
    assert (Hl : NoDup (idsL (pre ++ [x] ++ post))).
    { rewrite ids_Element in Hnd. now apply NoDup_cons_iff in Hnd. }
    rewrite !idsL_app, idsL_cons, idsL_nil, app_nil_r in Hl.
    destruct (NoDup_app_inv _ _ Hl) as [Hpre [Hrest _]].
    destruct (NoDup_app_inv _ _ Hrest) as [Hx [Hpost _]].
    rewrite ids_childNodes in Hx. apply NoDup_cons_iff in Hx. destruct Hx as [_ Hx].
    assert (Hin : forall l', (forall k, In k (idsL l') -> In k (idsL (pre ++ [x] ++ post))) ->
                             NoDup (idsL l') -> NoDup (ids (Element b nm a l'))).
    { intros l' Hsub Hl'. now apply (NoDup_body_part b nm a (pre ++ [x] ++ post)). }
    repeat split.
    + rewrite sanitizeHtml_expected; [reflexivity|]. apply Hin; [|exact Hpre].
      intros k Hk. rewrite idsL_app. apply in_or_app. now left.
    + rewrite sanitizeHtml_expected; [reflexivity|]. apply Hin; [|exact Hx].
      intros k Hk. rewrite !idsL_app, idsL_cons, ids_childNodes.
      apply in_or_app. right. apply in_or_app. left. apply in_or_app. left. now right.
    + rewrite sanitizeHtml_expected; [reflexivity|]. apply Hin; [|exact Hpost].
      intros k Hk. rewrite !idsL_app. apply in_or_app. right. apply in_or_app. now right.
    + rewrite (sanitizeHtml_expected _ Hnd). cbn [childNodes].
      now rewrite !expectedL_app, (expected_unwrapped x Hu).
Qed.

(** C3: at the visit of an anchor (an anchor is always kept), when the
    [href] the attribute filter left is a string that does not start
    with [mailto:], [target] and [rel] end with the forced values,
    whatever the input had; when the [href] starts with [mailto:], the
    visit leaves the document as the attribute filter left it: [href]
    as it was, no [target], and the [rel] of the input if it had one.
    The same holds of what [sanitizeHtml] returns: an anchor of the
    document that is below no forbidden element is in the result, and
    the node of the result with the identity of an anchor has the
    [href] of that anchor, with the forced [target] and [rel] when the
    [href] does not start with [mailto:], with no [target] and the
    [rel] of the input when it does.
    [<a href="mailto:user@example.com">mail</a>] comes back unchanged;
    in [<p><a href="notes.html" target="_self" rel="me">text</a></p>]
    both values are overwritten. *)
Theorem anchor_link_normalization s i nm a cs :
  NoDup (idsL (doc s)) ->
  getNodeL i (doc s) = Some (Element i nm a cs) ->
  toLowerCase nm = "a" ->
  (forall href,
      getAttribute i "href" (stripAttributes i "a" (Element i nm a cs) (doc s)) = Some href ->
      startsWith "mailto:" href = false ->
      getAttribute i "target" (doc (visit s i)) = Some "_blank" /\
      getAttribute i "rel" (doc (visit s i)) = Some "external noopener noreferrer") /\
  (forall href,
      getAttr "href" a = Some href ->
      startsWith "mailto:" href = true ->
      doc (visit s i) = stripAttributes i "a" (Element i nm a cs) (doc s) /\
      getAttribute i "href" (doc (visit s i)) = Some href /\
      getAttribute i "target" (doc (visit s i)) = None /\
      getAttribute i "rel" (doc (visit s i)) = getAttr "rel" a) /\
  sanitizeHtml (Element 0 "BODY" []
                  [Element 1 "A" [("href", "mailto:user@example.com")] [Text 2 "mail"]])
  = Normal [Element 1 "A" [("href", "mailto:user@example.com")] [Text 2 "mail"]] /\
  (forall body out x y,
      NoDup (ids body) ->
      sanitizeHtml body = Normal out ->
      In x (subtreesL (childNodes body)) ->
      In y (subtreesL out) ->
      nid y = nid x ->
      toLowerCase (nodeName x) = "a" ->
      getAttr "href" (attributes y) = getAttr "href" (attributes x) /\
      (forall href,
          getAttr "href" (attributes x) = Some href ->
          startsWith "mailto:" href = false ->
          getAttr "target" (attributes y) = Some "_blank" /\
          getAttr "rel" (attributes y) = Some "external noopener noreferrer") /\
      (forall href,
          getAttr "href" (attributes x) = Some href ->
          startsWith "mailto:" href = true ->
          getAttr "target" (attributes y) = None /\
          getAttr "rel" (attributes y) = getAttr "rel" (attributes x))) /\
  (forall b bn ba z x,
      toLowerCase (nodeName x) = "a" ->
      notBelowForbidden z = true ->
      NoDup (ids (Element b bn ba (plug z [x]))) ->
      exists out, sanitizeHtml (Element b bn ba (plug z [x])) = Normal out /\
                  In (nid x) (idsL out)) /\
  sanitizeHtml (Element 0 "BODY" []
                  [Element 1 "P" []
                     [Element 2 "A" [("href", "notes.html"); ("target", "_self");
                                     ("rel", "me")]
                        [Text 3 "text"]]])
  = Normal [Element 1 "P" []
              [Element 2 "A" [("href", "notes.html");
                              ("rel", "external noopener noreferrer");
                              ("target", "_blank")]
                 [Text 3 "text"]]].
Proof.
  intros Hnd Hg Hnm.
  pose proof (classify_anchor i nm a cs Hnm) as Hk.
  pose proof (fun name => visit_kept_attribute s i nm a cs name Hnd Hg Hk) as Hv.
  pose proof (fun name => filter_step_attribute (doc s) i nm a cs name Hnd Hg) as Hs.
  unfold keptAttributes in Hv. rewrite Hnm in Hv, Hs.
  split; [|split; [|split; [reflexivity|split; [|split; [|reflexivity]]]]].
  - intros href Hh Hm. rewrite Hs in Hh. rewrite !Hv.
    unfold normalizedAttributes. rewrite forces_anchor, Hh, Hm. cbn [negb]. split.
    + rewrite getAttr_setAttr_other by discriminate. apply getAttr_setAttr_same.
    + apply getAttr_setAttr_same.
  - intros href Hh Hm.
    assert (Hn : normalizedAttributes "a" (strippedAttributes "a" a) = strippedAttributes "a" a).
    { unfold normalizedAttributes. now rewrite forces_anchor, anchor_href_stripped, Hh, Hm. }
    rewrite !Hv, Hn. repeat split.
    + rewrite (visit_kept s i nm a cs Hnd Hg Hk). cbn [doc].
      unfold keptAttributes. rewrite Hnm, Hn.
      pose proof (stripAttributes_found (doc s) i nm a cs Hnd Hg) as Hf.
      rewrite Hnm in Hf. now rewrite Hf.
    + now rewrite anchor_href_stripped.
    + apply stripped_target.
    + apply getAttr_stripped_wanted. reflexivity.
  - clear. intros body out x y Hnd Hs Hx Hy E Ha.
    destruct (result_of_node body out x y Hnd Hs Hx Hy E) as [_ [_ [Hat _]]].
    destruct (anchor_is_element x Ha) as [j [nm [a [cs ->]]]].
    cbn [nodeName attributes] in *. rewrite Hat. unfold keptAttributes. rewrite Ha.
    unfold normalizedAttributes. rewrite forces_anchor, anchor_href_stripped.
    split; [|split].
    + destruct (getAttr "href" a) as [h|] eqn:Eh; [|now rewrite anchor_href_stripped].
      destruct (negb (startsWith "mailto:" h)); [|now rewrite anchor_href_stripped].
      now rewrite !getAttr_setAttr_other, anchor_href_stripped by discriminate.
    + intros href Hh Hm. rewrite Hh, Hm. cbn [negb]. split.
      * rewrite getAttr_setAttr_other by discriminate. apply getAttr_setAttr_same.
      * apply getAttr_setAttr_same.
    + intros href Hh Hm. rewrite Hh, Hm. cbn [negb]. split.
      * apply stripped_target.
      * apply getAttr_stripped_wanted. reflexivity.
  - clear. intros b bn ba z x Ha Hz Hnd.
    apply kept_is_in_result; [|exact Hz|exact Hnd].
    destruct (anchor_is_element x Ha) as [j [nm [a [cs ->]]]].
    now apply classify_anchor.
Qed.

(** C9: at the visit of an anchor the attribute filter never picks
    [href], whatever its value, so the anchor has after the filter and
    after the visit the [href] it had.  An anchor with
    [href="javascript:alert(1)"] comes back with that [href] and the
    forced [target] and [rel]; one with [href="mailto:not-an-email"]
    comes back unchanged, whatever the e-mail validator answers. *)
Theorem anchor_href_never_filtered s i nm a cs :
  NoDup (idsL (doc s)) ->
  getNodeL i (doc s) = Some (Element i nm a cs) ->
  toLowerCase nm = "a" ->
  isAllowedAttr "a" "href" = true /\
  (forall value, isUnwanted "a" ("href", value) = false) /\
  getAttribute i "href" (stripAttributes i "a" (Element i nm a cs) (doc s)) = getAttr "href" a /\
  getAttribute i "href" (doc (visit s i)) = getAttr "href" a /\
  sanitizeHtml (Element 0 "BODY" []
                  [Element 1 "A" [("href", "javascript:alert(1)")] [Text 2 "x"]])
  = Normal [Element 1 "A" [("href", "javascript:alert(1)"); ("target", "_blank");
                           ("rel", "external noopener noreferrer")] [Text 2 "x"]] /\
  sanitizeHtml (Element 0 "BODY" []
                  [Element 1 "A" [("href", "mailto:not-an-email")] [Text 2 "x"]])
  = Normal [Element 1 "A" [("href", "mailto:not-an-email")] [Text 2 "x"]].
Proof.
  intros Hnd Hg Hnm.
  pose proof (classify_anchor i nm a cs Hnm) as Hk.
  pose proof (fun name => visit_kept_attribute s i nm a cs name Hnd Hg Hk) as Hv.
  pose proof (fun name => filter_step_attribute (doc s) i nm a cs name Hnd Hg) as Hs.
  unfold keptAttributes in Hv. rewrite Hnm in Hv, Hs.
  repeat split; try reflexivity.
  - rewrite Hs. apply anchor_href_stripped.
  - rewrite Hv. unfold normalizedAttributes.
    destruct (forcesLinkAttributes "a" (strippedAttributes "a" a)).
    + rewrite !getAttr_setAttr_other by discriminate. apply anchor_href_stripped.
    + apply anchor_href_stripped.
Qed.

(** C10: [target] is in no per-tag list and is neither [href] nor
    [src]: at the visit of a kept node the attribute filter leaves no
    [target], whatever the input had, and the node ends its visit
    without one unless it is an anchor whose [href], after the filter,
    is a string that does not start with [mailto:].  So in the result
    a node has no [target], or it is such an anchor and its [target] is
    the forced one. *)
Theorem target_never_survives_filter s i x :
  NoDup (idsL (doc s)) ->
  getNodeL i (doc s) = Some x ->
  isForbidden x = false ->
  isAllowedTag x = true ->
  (forall tagName value, isAllowedAttr tagName "target" = false /\
                         isUnwanted tagName ("target", value) = true) /\
  getAttribute i "target"
    (stripAttributes i (toLowerCase (nodeName x)) x (doc s)) = None /\
  (toLowerCase (nodeName x) <> "a" \/
   getAttribute i "href"
     (stripAttributes i (toLowerCase (nodeName x)) x (doc s)) = None \/
   (exists href,
       getAttribute i "href"
         (stripAttributes i (toLowerCase (nodeName x)) x (doc s)) = Some href /\
       startsWith "mailto:" href = true) ->
   getAttribute i "target" (doc (visit s i)) = None) /\
  (forall body out y,
      NoDup (ids body) -> sanitizeHtml body = Normal out -> In y (subtreesL out) ->
      getAttr "target" (attributes y) = None \/
      (toLowerCase (nodeName y) = "a" /\
       getAttr "target" (attributes y) = Some "_blank" /\
       exists href, getAttr "href" (attributes y) = Some href /\
                    startsWith "mailto:" href = false)).
Proof.
  intros Hnd Hg Hf Ha.
  split; [intros; split; [apply isAllowedAttr_target | apply isUnwanted_target]|].
  rewrite <- and_assoc. split.
  2:{ intros body out y Hb Hs Hy. rewrite (sanitizeHtml_expected body Hb) in Hs.
      injection Hs as <-.
      destruct (result_nodesL _ _ Hy) as [[k [nm [a [cs ->]]]]|[k [d ->]]].
      - cbn [attributes nodeName]. apply kept_target.
      - now left. }
  destruct x as [j nm a cs | j d | j d].
  - assert (j = i) as ->.
    { destruct (located_node _ _ _ Hnd Hg) as [z [_ [E _]]]. exact E. }
    assert (Hk : classify (Element i nm a cs) = Keep)
      by (unfold classify; now rewrite Hf, Ha).
    cbn [nodeName attributes]. split.
    + rewrite filter_step_attribute by assumption. apply stripped_target.
    + rewrite (filter_step_attribute (doc s) i nm a cs "href") by assumption.
      intros Hc. rewrite (visit_kept_attribute s i nm a cs) by assumption.
      unfold keptAttributes, normalizedAttributes.
      assert (Hn : forcesLinkAttributes (toLowerCase nm)
                     (strippedAttributes (toLowerCase nm) a) = false).
      { destruct (String.eqb_spec (toLowerCase nm) "a") as [E|E].
        - rewrite E in *. rewrite forces_anchor.
          destruct Hc as [Hc|[Hc|[href [Hc Hm]]]]; [congruence | now rewrite Hc |].
          now rewrite Hc, Hm.
        - now apply forces_not_anchor. }
      rewrite Hn. apply stripped_target.
  - destruct (located_node _ _ _ Hnd Hg) as [z [E [Hi Hx]]]. cbn [nid] in Hi. subst j.
    destruct (at_place z _ Hx) as [Hz _]. cbn [nid] in Hz.
    assert (Hs : stripAttributes i (toLowerCase (nodeName (Text i d))) (Text i d) (doc s)
                 = doc s) by reflexivity.
    rewrite Hs. split.
    + unfold getAttribute. now rewrite Hg.
    + intros _. rewrite (visit_found s i _ Hnd Hg). cbn [doc visited attributes].
      rewrite E, updateAttributes_plug by exact Hz. cbn [map updateAttributes].
      unfold getAttribute.
      pose proof (getNodeL_at z (Text i d) Hz) as Hg'. cbn [nid] in Hg'. now rewrite Hg'.
  - discriminate Ha.
Qed.

(** C7: an [input] element is never forbidden, and it is allowed if and
    only if its [type] attribute is [checkbox].  A kept one ends its
    visit with the [type] and the [checked] it had; any other is queued
    for unwrapping, and the result is the one of the document without
    its tag.  [<input type="checkbox" checked>] comes back with both
    attributes, [<input type="text">] does not come back. *)
Theorem input_kept_only_as_checkbox i nm a cs :
  toLowerCase nm = "input" ->
  isForbidden (Element i nm a cs) = false /\
  (isAllowedTag (Element i nm a cs) = true <-> getAttr "type" a = Some "checkbox") /\
  (getAttr "type" a = Some "checkbox" ->
   forall s, NoDup (idsL (doc s)) -> getNodeL i (doc s) = Some (Element i nm a cs) ->
             removeList (visit s i) = removeList s /\
             forbiddenList (visit s i) = forbiddenList s /\
             getAttribute i "type" (doc (visit s i)) = Some "checkbox" /\
             getAttribute i "checked" (doc (visit s i)) = getAttr "checked" a) /\
  (getAttr "type" a <> Some "checkbox" ->
   (forall s, getNodeL i (doc s) = Some (Element i nm a cs) ->
              visit s i = WalkState (doc s) (removeList s ++ [i]) (forbiddenList s)) /\
   (forall b bn ba z,
       NoDup (ids (Element b bn ba (plug z [Element i nm a cs]))) ->
       sanitizeHtml (Element b bn ba (plug z [Element i nm a cs])) =
       sanitizeHtml (Element b bn ba (plug z cs)))) /\
  sanitizeHtml (Element 0 "BODY" []
                  [Element 1 "INPUT" [("type", "checkbox"); ("checked", "")] []])
  = Normal [Element 1 "INPUT" [("type", "checkbox"); ("checked", "")] []] /\
  sanitizeHtml (Element 0 "BODY" [] [Element 1 "INPUT" [("type", "text")] []])
  = Normal [].
Proof.
  intros Hnm.
  assert (Hf : isForbidden (Element i nm a cs) = false).
  { unfold isForbidden. cbn [nodeName]. now rewrite Hnm. }
  assert (Ha : isAllowedTag (Element i nm a cs) = true <-> getAttr "type" a = Some "checkbox").
  { unfold isAllowedTag. cbn [nodeName attributes]. rewrite Hnm.
    change (String.eqb "input" "input") with true. cbv iota.
    destruct (getAttr "type" a) as [t|]; [|split; discriminate].
    split.
    - intros E. apply String.eqb_eq in E. now subst.
    - intros E. injection E as ->. reflexivity. }
  split; [exact Hf|]. split; [exact Ha|]. split; [|split; [|split; reflexivity]].
  - intros Ht s Hnd Hg.
    assert (Hk : classify (Element i nm a cs) = Keep).
    { unfold classify. rewrite Hf. apply Ha in Ht. now rewrite Ht. }
    rewrite (visit_kept s i nm a cs Hnd Hg Hk). cbn [removeList forbiddenList doc].
    rewrite !(getAttribute_updated (doc s) i nm a cs) by assumption.
    unfold keptAttributes, normalizedAttributes. rewrite Hnm.
    rewrite forces_not_anchor by discriminate.
    rewrite !getAttr_stripped_wanted by reflexivity. auto.
  - intros Ht.
    assert (Ha' : isAllowedTag (Element i nm a cs) = false).
    { destruct (isAllowedTag (Element i nm a cs)); [|reflexivity].
      elim Ht. now apply Ha. }
    split.
    + intros s Hg. unfold visit. now rewrite Hg, Hf, Ha'.
    + intros b bn ba z Hnd.
      apply (unwrap_anywhere b bn ba z (Element i nm a cs)); [|exact Hnd].
      unfold classify. now rewrite Hf, Ha'.
Qed.

(** C6: on a kept element whose attributes have distinct names, the
    statement that strips attributes leaves a document that differs
    from the one it found in the attribute list of that element alone:
    the list is now the attributes the policy allows (by the per-tag
    list, as a web URI in [href] or [src], or as a [mailto:] [href]
    with a valid address), all of them, with their values and in their
    order; every attribute the policy does not allow is gone, however
    many there were.  The element, its name and its children are where
    they were, no node has moved, and no other node has lost or gained
    an attribute.
    The loop body and the sanitizer keep that: after the visit of a
    kept element, and on the node of the result that has its identity,
    a name holds the value the element had when the policy allows the
    attribute and nothing when it does not ([target] and [rel] apart,
    which the link normalization may set on an anchor); the node has
    its name, its children are the result for its children, and a kept
    element below no forbidden element is in the result.
    [<img class="big" src="pic.png" style="x" onclick="evil()"
    alt="picture" id="i">] gives [<img src="pic.png" alt="picture">]. *)
Theorem attribute_filter_frame F i nm a cs :
  NoDup (idsL F) ->
  getNodeL i F = Some (Element i nm a cs) ->
  NoDup (map fst a) ->
  stripAttributes i (toLowerCase nm) (Element i nm a cs) F =
  map (updateAttributes i
         (fun _ => filter (fun at_ => negb (isUnwanted (toLowerCase nm) at_)) a)) F /\
  getNodeL i (stripAttributes i (toLowerCase nm) (Element i nm a cs) F) =
  Some (Element i nm (filter (fun at_ => negb (isUnwanted (toLowerCase nm) at_)) a) cs) /\
  idsL (stripAttributes i (toLowerCase nm) (Element i nm a cs) F) = idsL F /\
  (forall j, parentNode j (stripAttributes i (toLowerCase nm) (Element i nm a cs) F)
             = parentNode j F) /\
  (forall j name,
      j <> i ->
      getAttribute j name (stripAttributes i (toLowerCase nm) (Element i nm a cs) F)
      = getAttribute j name F) /\
  (forall name value,
      isUnwanted (toLowerCase nm) (name, value) = false <->
      isAllowedAttr (toLowerCase nm) name = true \/
      ((name = "href" \/ name = "src") /\ isWebUri value = true) \/
      (name = "href" /\ startsWith "mailto:" value = true /\
       isemail_validate (slice 7 value) = true)) /\
  (forall s,
      doc s = F ->
      isForbidden (Element i nm a cs) = false ->
      isAllowedTag (Element i nm a cs) = true ->
      (exists a', getNodeL i (doc (visit s i)) = Some (Element i nm a' cs)) /\
      (forall name,
          name <> "target" -> name <> "rel" ->
          getAttribute i name (doc (visit s i)) = filteredAttr (toLowerCase nm) a name) /\
      (toLowerCase nm <> "a" ->
       forall name,
         getAttribute i name (doc (visit s i)) = filteredAttr (toLowerCase nm) a name)) /\
  (forall body out x y,
      NoDup (ids body) ->
      sanitizeHtml body = Normal out ->
      In x (subtreesL (childNodes body)) ->
      In y (subtreesL out) ->
      nid y = nid x ->
      NoDup (map fst (attributes x)) ->
      nodeName y = nodeName x /\
      sanitizeHtml x = Normal (childNodes y) /\
      (forall name,
          name <> "target" -> name <> "rel" ->
          getAttr name (attributes y) =
          filteredAttr (toLowerCase (nodeName x)) (attributes x) name) /\
      (toLowerCase (nodeName x) <> "a" ->
       forall name,
         getAttr name (attributes y) =
         filteredAttr (toLowerCase (nodeName x)) (attributes x) name)) /\
  (forall b bn ba z x,
      isForbidden x = false ->
      isAllowedTag x = true ->
      notBelowForbidden z = true ->
      NoDup (ids (Element b bn ba (plug z [x]))) ->
      exists out, sanitizeHtml (Element b bn ba (plug z [x])) = Normal out /\
                  In (nid x) (idsL out)) /\
  sanitizeHtml
    (Element 0 "BODY" []
       [Element 1 "IMG" [("class", "big"); ("src", "pic.png"); ("style", "x");
                         ("onclick", "evil()"); ("alt", "picture"); ("id", "i")] []])
  = Normal [Element 1 "IMG" [("src", "pic.png"); ("alt", "picture")] []].
Proof.
  intros Hnd Hg Ha.
  assert (Htable : forall nm0 a0 name,
             NoDup (map fst a0) ->
             (name <> "target" -> name <> "rel" ->
              getAttr name (keptAttributes nm0 a0) = filteredAttr (toLowerCase nm0) a0 name) /\
             (toLowerCase nm0 <> "a" ->
              getAttr name (keptAttributes nm0 a0) = filteredAttr (toLowerCase nm0) a0 name)).
  { clear. intros nm0 a0 name Hu. rewrite (kept_attribute_table nm0 a0 name Hu). split.
    - intros Ht Hr.
      destruct (String.eqb_spec "rel" name) as [E|_]; [now symmetry in E|].
      destruct (String.eqb_spec "target" name) as [E|_]; [now symmetry in E|].
      now destruct (String.eqb "a" (toLowerCase nm0) && _).
    - intros Hn. destruct (String.eqb_spec "a" (toLowerCase nm0)) as [E|_];
        [now symmetry in E | reflexivity]. }
  rewrite (stripAttributes_found F i nm a cs Hnd Hg).
  rewrite (strippedAttributes_filter _ a Ha).
  set (a' := filter _ a).
  split; [reflexivity|].
  split; [|split; [|split; [|split; [|split; [|split; [|split; [|split]]]]]]].
  - destruct (located_node F i _ Hnd Hg) as [z [-> [_ Hx]]].
    destruct (at_place z _ Hx) as [Hz [Hc _]]. cbn [nid childNodes] in *.
    rewrite updateAttributes_at by assumption.
    pose proof (getNodeL_at z (Element i nm a' cs) Hz) as Hg'. now cbn [nid] in Hg'.
  - apply idsL_updateAttributes.
  - intros j. apply parentNode_updateAttributes.
  - intros j name Hj. unfold getAttribute. rewrite getNodeL_updateAttributes.
    destruct (getNodeL j F) as [y|] eqn:E; [|reflexivity]. cbn [option_map].
    rewrite attributes_updateAttributes_other; [reflexivity|].
    now rewrite (getNodeL_nid j F y E).
  - intros name value. apply isUnwanted_false.
  - intros s Hs Hf Hal. subst F.
    assert (Hk : classify (Element i nm a cs) = Keep)
      by (unfold classify; now rewrite Hf, Hal).
    split; [|split].
    + rewrite (visit_kept s i nm a cs Hnd Hg Hk). cbn [doc].
      destruct (located_node (doc s) i _ Hnd Hg) as [z [-> [_ Hx]]].
      destruct (at_place z _ Hx) as [Hz [Hc _]]. cbn [nid childNodes] in *.
      rewrite updateAttributes_at by assumption.
      exists (keptAttributes nm a).
      pose proof (getNodeL_at z (Element i nm (keptAttributes nm a) cs) Hz) as Hg'.
      now cbn [nid] in Hg'.
    + intros name Ht Hr. rewrite (visit_kept_attribute s i nm a cs name Hnd Hg Hk).
      now apply (proj1 (Htable nm a name Ha)).
    + intros Hn name. rewrite (visit_kept_attribute s i nm a cs name Hnd Hg Hk).
      now apply (proj2 (Htable nm a name Ha)).
  - clear - Htable. intros body out x y Hnd Hs Hx Hy E Hu.
    destruct (result_of_node body out x y Hnd Hs Hx Hy E) as [_ [Hn [Hat Hc]]].
    split; [exact Hn|]. split; [exact Hc|]. rewrite Hat.
    destruct x as [j nm a cs | j d | j d]; cbn [nodeName attributes] in *.
    + split; [intros name Ht Hr | intros Hna name].
      * now apply (proj1 (Htable nm a name Hu)).
      * now apply (proj2 (Htable nm a name Hu)).
    + split; reflexivity.
    + split; reflexivity.
  - clear. intros b bn ba z x Hf Hal Hz Hnd.
    apply kept_is_in_result; [|exact Hz|exact Hnd].
    unfold classify. now rewrite Hf, Hal.
  - reflexivity.
Qed.

(** C8: the walk moves no node; after it every queued elimination runs,
    which leaves no forbidden node below [body], then every queued
    unwrapping, and the sanitizer returns.  A queued node that is no
    longer below [body] (an ancestor went before it) is processed
    without a change to the tree of [body], and whatever the queue
    holds, each of the two loops runs to its end: no exception leaves
    it.  [<marquee><script>evil()</script>safe</marquee>] gives [safe],
    [<script><marquee>x</marquee></script>] gives nothing. *)
Theorem removals_deferred_and_absorbed body :
  NoDup (ids body) ->
  map shape (doc (walk body)) = [shape body] /\
  (exists F1 F2 out,
      forEach (forbiddenList (walk body)) eliminate (doc (walk body)) = (Normal tt, F1) /\
      (forall x, In x (subtreesL (childNodes body)) -> isForbidden x = true ->
                 ~ In (nid x) (walkOrder (hd body F1))) /\
      forEach (removeList (walk body)) unwrap F1 = (Normal tt, F2) /\
      bodyChildren body F2 = (Normal out, F2) /\
      sanitizeHtml body = Normal out) /\
  (forall i b rest,
      NoDup (idsL (b :: rest)) -> ~ In i (walkOrder b) ->
      (exists rest', eliminate i (b :: rest) = (Normal tt, b :: rest')) /\
      (exists rest', unwrap i (b :: rest) = (Normal tt, b :: rest'))) /\
  (forall l b rest,
      NoDup (idsL (b :: rest)) ->
      (exists F', forEach l eliminate (b :: rest) = (Normal tt, F')) /\
      (exists F', forEach l unwrap (b :: rest) = (Normal tt, F'))) /\
  sanitizeHtml (Element 0 "BODY" []
                  [Element 1 "MARQUEE" []
                     [Element 2 "SCRIPT" [] [Text 3 "evil()"]; Text 4 "safe"]])
  = Normal [Text 4 "safe"] /\
  sanitizeHtml (Element 0 "BODY" []
                  [Element 1 "SCRIPT" [] [Element 2 "MARQUEE" [] [Text 3 "x"]]])
  = Normal [].
Proof.
  intros Hnd. rewrite (walk_spec body Hnd). cbn [doc removeList forbiddenList].
  split; [|split; [|split; [|split; [|split; reflexivity]]]].
  - cbn [map]. now rewrite shape_walkedBody.
  - assert (Hw : NoDup (idsL [walkedBody body])).
    { rewrite idsL_cons, idsL_nil, app_nil_r.
      destruct body as [i nm a cs | |]; [|exact Hnd|exact Hnd].
      cbn [walkedBody]. rewrite ids_Element in *. now rewrite idsL_walked. }
    destruct (forEach_eliminate (forbiddenIds (subtreesL (childNodes body))) _ _ Hw)
      as [rest1 [E1 N1]].
    destruct (forEach_unwrap (unwrapIds (subtreesL (childNodes body))) _ _ N1)
      as [rest2 [E2 N2]].
    eexists _, _, (expectedL (childNodes body)).
    split; [exact E1|]. split; [|split; [exact E2|]].
    + intros x Hx Hf Hin. cbn [hd] in Hin. unfold walkOrder in Hin.
      apply ids_after_dropIn in Hin. apply Hin.
      unfold forbiddenIds. apply in_map. apply filter_In. now split.
    + pose proof (sanitizeHtml_expected body Hnd) as Hs.
      unfold sanitizeHtml in Hs. rewrite (walk_spec body Hnd) in Hs.
      cbn [doc removeList forbiddenList] in Hs. unfold bind in Hs.
      rewrite E1, E2 in Hs. unfold bodyChildren in *.
      destruct (getNodeL (nid body) _) as [b2|]; [|discriminate Hs].
      cbn [fst] in Hs. injection Hs as Hs. rewrite Hs. split; [reflexivity|].
      now apply sanitizeHtml_expected.
  - intros i b rest Hb Hi. split.
    + destruct (eliminate_spec i b rest Hb) as [rest' [E _]].
      exists rest'. rewrite E. f_equal. f_equal.
      apply (edit_keyed_id _ [i]); [apply keyed_dropIn|].
      intros j Hj [<-|[]]. now apply Hi.
    + destruct (unwrap_spec i b rest Hb) as [rest' [E _]].
      exists rest'. rewrite E. f_equal. f_equal.
      apply (edit_keyed_id _ [i]); [apply keyed_spliceIn|].
      intros j Hj [<-|[]]. now apply Hi.
  - intros l b rest Hb. split.
    + destruct (forEach_eliminate l b rest Hb) as [rest' [E _]]. eauto.
    + destruct (forEach_unwrap l b rest Hb) as [rest' [E _]]. eauto.
Qed.


End Sanitizer.

Ltac distinct :=
  simpl; repeat (constructor; [simpl; intuition (try discriminate; try lia)|]); constructor.

Lemma forbidden_subtree_never_in_output_witness :
  exists out,
    sanitizeHtml sampleWebUri sampleEmail docObject = Normal out /\
    ~ In (nid (Text 4 "evil()")) (idsL out).
Proof.
  apply (forbidden_subtree_never_in_output sampleWebUri sampleEmail docObject
           (Element 2 "OBJECT" [] [Element 3 "B" [] [Text 4 "evil()"]])
           (Text 4 "evil()")).
  - distinct.
  - simpl. auto.
  - simpl. intuition.
  - simpl. auto.
Defined.

Lemma unknown_tag_unwrapped_witness :
  sanitizeHtml sampleWebUri sampleEmail docMarquee =
  sanitizeHtml sampleWebUri sampleEmail
    (Element 0 "BODY" []
       [Element 1 "P" []
          [Text 2 "one"; Text 4 "two"; Element 5 "B" [] [Text 6 "three"]; Text 7 "four"]]).
Proof.
  exact (proj1 (unknown_tag_unwrapped sampleWebUri sampleEmail 0 "BODY" []
                  [Sib [Text 2 "one"] [Text 7 "four"]; Wrap 1 "P" []]
                  (Element 3 "MARQUEE" [] [Text 4 "two"; Element 5 "B" [] [Text 6 "three"]])
                  eq_refl eq_refl ltac:(distinct))).
Defined.

Lemma anchor_link_normalization_witness :
  getAttribute 1 "target" (doc (visit sampleWebUri sampleEmail (WalkState [docLink] [] []) 1))
  = Some "_blank" /\
  getAttribute 1 "rel" (doc (visit sampleWebUri sampleEmail (WalkState [docLink] [] []) 1))
  = Some "external noopener noreferrer".
Proof.
  apply (proj1 (anchor_link_normalization sampleWebUri sampleEmail
                  (WalkState [docLink] [] []) 1 "A"
                  [("href", "https://example.com"); ("onclick", "evil()");
                   ("target", "top"); ("rel", "me")]
                  [Text 2 "text"] ltac:(distinct) eq_refl eq_refl)
               "https://example.com" eq_refl eq_refl).
Defined.

Ltac pages := simpl; repeat constructor; simpl; intuition discriminate.



Lemma attribute_filter_frame_witness :
  stripAttributes sampleWebUri sampleEmail 1 "p"
    (Element 1 "P" [("class", "x"); ("style", "y"); ("title", "z");
                    ("href", "https://example.com")] [Text 2 "t"])
    [docParagraph] =
  [Element 0 "BODY" []
     [Element 1 "P" [("href", "https://example.com")] [Text 2 "t"]]].
Proof.
  exact (proj1 (attribute_filter_frame sampleWebUri sampleEmail [docParagraph] 1 "P"
                  [("class", "x"); ("style", "y"); ("title", "z");
                   ("href", "https://example.com")]
                  [Text 2 "t"] ltac:(distinct) eq_refl ltac:(distinct))).
Defined.

Lemma input_kept_only_as_checkbox_witness :
  getAttribute 1 "type"
    (doc (visit sampleWebUri sampleEmail (WalkState [docCheckbox] [] []) 1))
  = Some "checkbox" /\
  getAttribute 1 "checked"
    (doc (visit sampleWebUri sampleEmail (WalkState [docCheckbox] [] []) 1))
  = Some "".
Proof.
  exact (proj2 (proj2
           (proj1 (proj2 (proj2
                     (input_kept_only_as_checkbox sampleWebUri sampleEmail 1 "INPUT"
                        [("type", "checkbox"); ("checked", ""); ("class", "big")] []
                        eq_refl)))
              eq_refl (WalkState [docCheckbox] [] []) ltac:(distinct) eq_refl))).
Defined.

Lemma removals_deferred_and_absorbed_witness :
  map shape (doc (walk sampleWebUri sampleEmail docObject)) = [shape docObject].
Proof.
  exact (proj1 (removals_deferred_and_absorbed sampleWebUri sampleEmail docObject
                  ltac:(distinct))).
Defined.

Lemma anchor_href_never_filtered_witness :
  getAttribute 1 "href" (doc (visit sampleWebUri sampleEmail (WalkState [docLink] [] []) 1))
  = Some "https://example.com".
Proof.
  exact (proj1 (proj2 (proj2 (proj2
           (anchor_href_never_filtered sampleWebUri sampleEmail
              (WalkState [docLink] [] []) 1 "A"
              [("href", "https://example.com"); ("onclick", "evil()");
               ("target", "top"); ("rel", "me")]
              [Text 2 "text"] ltac:(distinct) eq_refl eq_refl))))).
Defined.

Lemma target_never_survives_filter_witness :
  getAttribute 1 "target"
    (stripAttributes sampleWebUri sampleEmail 1 "a"
       (Element 1 "A" [("href", "https://example.com"); ("onclick", "evil()");
                       ("target", "top"); ("rel", "me")] [Text 2 "text"])
       [docLink]) = None.
Proof.
  exact (proj1 (proj2
           (target_never_survives_filter sampleWebUri sampleEmail
              (WalkState [docLink] [] []) 1
              (Element 1 "A" [("href", "https://example.com"); ("onclick", "evil()");
                              ("target", "top"); ("rel", "me")] [Text 2 "text"])
              ltac:(distinct) eq_refl eq_refl eq_refl))).
Defined.

(** * The further properties on sample documents *)

(** [<p>t<a href="mailto:user@example.com">m</a></p>] *)
Lemma clean_document_unchanged_witness :
  sanitizeHtml sampleWebUri sampleEmail
    (Element 0 "BODY" []
       [Element 1 "P" []
          [Text 2 "t";
           Element 3 "A" [("href", "mailto:user@example.com")] [Text 4 "m"]]]) =
  Normal
    [Element 1 "P" []
       [Text 2 "t";
        Element 3 "A" [("href", "mailto:user@example.com")] [Text 4 "m"]]].
Proof.
  apply (clean_document_unchanged sampleWebUri sampleEmail
           (Element 0 "BODY" []
              [Element 1 "P" []
                 [Text 2 "t";
                  Element 3 "A" [("href", "mailto:user@example.com")] [Text 4 "m"]]])).
  - distinct.
  - simpl. intros x [<-|[<-|[<-|[<-|[]]]]]; simpl;
      (split; [reflexivity|]; split; [reflexivity|]; split; [|reflexivity]).
    + intros at_ [].
    + intros at_ [].
    + intros at_ [<-|[]]. reflexivity.
    + intros at_ [].
Defined.

Lemma result_holds_only_allowed_nodes_witness :
  isForbidden (Element 5 "B" [] [Text 6 "three"]) = false /\
  isAllowedTag (Element 5 "B" [] [Text 6 "three"]) = true /\
  (forall i d, Element 5 "B" [] [Text 6 "three"] <> Comment i d) /\
  exists x, In x (subtreesL (childNodes docMarquee)) /\
            isForbidden x = false /\ isAllowedTag x = true /\
            nid x = nid (Element 5 "B" [] [Text 6 "three"]) /\
            nodeName x = nodeName (Element 5 "B" [] [Text 6 "three"]).
Proof.
  apply (result_holds_only_allowed_nodes sampleWebUri sampleEmail docMarquee
           [Element 1 "P" []
              [Text 2 "one"; Text 4 "two"; Element 5 "B" [] [Text 6 "three"];
               Text 7 "four"]]
           (Element 5 "B" [] [Text 6 "three"]) ltac:(distinct) eq_refl).
  simpl. auto 10.
Defined.

Lemma result_attribute_names_witness :
  getAttr "onclick"
    (attributes
       (Element 1 "A"
          [("href", "https://example.com"); ("rel", "external noopener noreferrer");
           ("target", "_blank")]
          [Text 2 "text"])) = None.
Proof.
  refine (proj2 (proj2
            (result_attribute_names sampleWebUri sampleEmail docLink
               [Element 1 "A"
                  [("href", "https://example.com");
                   ("rel", "external noopener noreferrer"); ("target", "_blank")]
                  [Text 2 "text"]]
               (Element 1 "A"
                  [("href", "https://example.com");
                   ("rel", "external noopener noreferrer"); ("target", "_blank")]
                  [Text 2 "text"])
               "onclick" ltac:(distinct) eq_refl _)) eq_refl).
  simpl. auto.
Defined.

Lemma result_text_is_visible_text_witness :
  exists out,
    sanitizeHtml sampleWebUri sampleEmail docObject = Normal out /\
    flat_map textOf out = flat_map visibleText (childNodes docObject).
Proof.
  apply (result_text_is_visible_text sampleWebUri sampleEmail docObject).
  distinct.
Defined.

Lemma sanitize_is_compositional_witness :
  exists o1 o2,
    sanitizeHtml sampleWebUri sampleEmail
      (Element 0 "BODY" [] [Element 1 "P" [] [Text 2 "one"]]) = Normal o1 /\
    sanitizeHtml sampleWebUri sampleEmail
      (Element 0 "BODY" [] [Element 3 "SCRIPT" [] [Text 4 "x"]; Text 5 "two"]) = Normal o2 /\
    sanitizeHtml sampleWebUri sampleEmail
      (Element 0 "BODY" []
         ([Element 1 "P" [] [Text 2 "one"]] ++
          [Element 3 "SCRIPT" [] [Text 4 "x"]; Text 5 "two"])) = Normal (o1 ++ o2).
Proof.
  exact (proj1 (sanitize_is_compositional sampleWebUri sampleEmail 0 "BODY" []
                  [Element 1 "P" [] [Text 2 "one"]]
                  [Element 3 "SCRIPT" [] [Text 4 "x"]; Text 5 "two"]
                  ltac:(distinct))).
Defined.

Lemma result_nodes_distinct_and_old_witness :
  exists out,
    sanitizeHtml sampleWebUri sampleEmail docMarquee = Normal out /\
    NoDup (idsL out) /\
    (forall i, In i (idsL out) -> In i (walkOrder docMarquee)) /\
    ~ In (nid docMarquee) (idsL out).
Proof.
  apply (result_nodes_distinct_and_old sampleWebUri sampleEmail docMarquee).
  distinct.
Defined.

Lemma visit_attribute_table_witness :
  getAttribute 1 "onclick"
    (doc (visit sampleWebUri sampleEmail (WalkState [docLink] [] []) 1)) = None.
Proof.
  exact (visit_attribute_table sampleWebUri sampleEmail
           (WalkState [docLink] [] []) 1 "A"
           [("href", "https://example.com"); ("onclick", "evil()");
            ("target", "top"); ("rel", "me")]
           [Text 2 "text"] "onclick"
           ltac:(distinct) eq_refl eq_refl eq_refl ltac:(distinct)).
Defined.

Lemma visit_frame_witness :
  visit sampleWebUri sampleEmail (WalkState [docObject] [] []) 2 =
  WalkState [docObject] [] [2].
Proof.
  exact (proj1 (proj2 (proj2 (proj2 (proj2
           (visit_frame sampleWebUri sampleEmail (WalkState [docObject] [] []) 2
              ltac:(distinct)))))
           (Element 2 "OBJECT" [] [Element 3 "B" [] [Text 4 "evil()"]]) eq_refl)
           eq_refl).
Defined.

Lemma walk_queues_witness :
  forbiddenList (walk sampleWebUri sampleEmail docObject) =
  map nid (filter isForbidden (subtreesL (childNodes docObject))) /\
  removeList (walk sampleWebUri sampleEmail docObject) =
  map nid (filter (fun n => negb (isForbidden n) && negb (isAllowedTag n))
                  (subtreesL (childNodes docObject))) /\
  NoDup (forbiddenList (walk sampleWebUri sampleEmail docObject) ++
         removeList (walk sampleWebUri sampleEmail docObject)) /\
  idsL (doc (walk sampleWebUri sampleEmail docObject)) = ids docObject.
Proof.
  apply (walk_queues sampleWebUri sampleEmail docObject). distinct.
Defined.

Lemma catch_blocks_never_run_witness :
  exists F1 F2,
    forEach (forbiddenList (walk sampleWebUri sampleEmail docQueues)) eliminateUnguarded
            (doc (walk sampleWebUri sampleEmail docQueues)) = (Normal tt, F1) /\
    forEach (forbiddenList (walk sampleWebUri sampleEmail docQueues)) eliminate
            (doc (walk sampleWebUri sampleEmail docQueues)) = (Normal tt, F1) /\
    forEach (removeList (walk sampleWebUri sampleEmail docQueues)) unwrapUnguarded F1
    = (Normal tt, F2) /\
    forEach (removeList (walk sampleWebUri sampleEmail docQueues)) unwrap F1
    = (Normal tt, F2).
Proof.
  apply (catch_blocks_never_run sampleWebUri sampleEmail docQueues). distinct.
Defined.

Lemma sanitize_thrice_is_twice_witness :
  sanitizeHtmlString sampleWebUri sampleEmail sampleParse sampleInnerHTML
    (sampleInnerHTML (map markup (childNodes docLinkTwice)))
  = Normal (sampleInnerHTML (map markup (childNodes docLinkTwice))).
Proof.
  destruct (sanitize_thrice_is_twice sampleWebUri sampleEmail
              sampleParse sampleInnerHTML sampleLink) as [out1 [H1 [_ H2]]].
  - change (sampleParse sampleLink) with docPlainLink.
    split; [distinct | unfold uniqueAttributes; pages].
  - change (sampleParse sampleLink) with docPlainLink in H1.
    injection H1 as <-.
    destruct H2 as [out2 [T2 [_ H3]]].
    + change (NoDup (ids docLinkOnce)). distinct.
    + reflexivity.
    + injection T2 as <-. apply H3.
      * change (NoDup (ids docLinkTwice)). distinct.
      * reflexivity.
Defined.

Lemma tag_case_is_immaterial_witness :
  exists out,
    sanitizeHtml sampleWebUri sampleEmail docMarquee = Normal out /\
    sanitizeHtml sampleWebUri sampleEmail (lowerTags docMarquee) =
    Normal (map lowerTags out).
Proof.
  apply (tag_case_is_immaterial sampleWebUri sampleEmail docMarquee). distinct.
Defined.

Lemma result_keeps_document_order_witness :
  exists out,
    sanitizeHtml sampleWebUri sampleEmail docMarquee = Normal out /\
    subsequence (idsL out) (walkOrder docMarquee).
Proof.
  apply (result_keeps_document_order sampleWebUri sampleEmail docMarquee). distinct.
Defined.
